(** * Sequential announcement subsystem of the lifecycle hooks

    A shallow embedding of the text normaliser (lib/tts/normalizer.ts), the
    provider resolver (lib/tts/resolver.ts), the speech backends
    (lib/tts/native.ts, lib/tts/elevenlabs.ts, lib/tts/openai.ts), the
    file-lock queue (lib/queue/tts-queue.ts) and the JSON activity log
    (lib/log.ts, lib/activity-log.ts), with the properties the specification
    states about them.

    Around them: the command lines of the players (lib/tts/playback.ts), the
    configuration (lib/config.ts and the command-line tool's
    config-manager.ts), the message templates (lib/templates/loader.ts) and
    the transcript parser (lib/transcript-parser.ts), with further properties
    of the code in the last part. *)

From Stdlib Require Import ZArith NArith List String Ascii Bool Lia.
From Stdlib Require DecimalPos DecimalN.
From stdpp Require Import gmap.
Import ListNotations.

Set Implicit Arguments.
Unset Strict Implicit.
Set Warnings "-register-all".

(** ** JavaScript strings

    A JavaScript string is a sequence of UTF-16 code units; a code unit is
    modelled as a number.  Literals of the source are ASCII and are written
    through [js]. *)

Module JS.

Abbreviation jsstring := (list N).

Definition ch (a : ascii) : N := N_of_ascii a.

Definition js (s : string) : jsstring := map ch (list_ascii_of_string s).

Definition str_eqb (a b : jsstring) : bool :=
  if decide (a = b) then true else false.

(** Character classes of the regular expressions, as data: a list of
    inclusive code-unit ranges, possibly negated ([[^...]]). *)
Record cls := Cls { cls_neg : bool; cls_ranges : list (N * N) }.

Definition in_ranges (rs : list (N * N)) (c : N) : bool :=
  existsb (fun r => (fst r <=? c)%N && (c <=? snd r)%N) rs.

Definition one (a : ascii) : N * N := (ch a, ch a).
Definition range (a b : ascii) : N * N := (ch a, ch b).

(** [\s]: WhiteSpace and LineTerminator of ECMAScript. *)
Definition ws_ranges : list (N * N) :=
  [ (9, 13); (32, 32); (160, 160); (5760, 5760); (8192, 8202); (8232, 8233);
    (8239, 8239); (8287, 8287); (12288, 12288); (65279, 65279) ]%N.

(** [\w] is [[A-Za-z0-9_]] and [\d] is [[0-9]]. *)
Definition word_ranges : list (N * N) :=
  [ range "A" "Z"; range "a" "z"; range "0" "9"; one "_" ].
Definition digit_ranges : list (N * N) := [ range "0" "9" ].

Definition is_ws (c : N) : bool := in_ranges ws_ranges c.
Definition is_word (c : N) : bool := in_ranges word_ranges c.

(** Canonicalisation of the [i] flag, on the ASCII letters: the classes and
    literals of the case-insensitive patterns of the source are ASCII, and a
    code unit above 127 is never canonicalised to one below 128. *)
Definition upperA (c : N) : N :=
  if ((ch "a" <=? c) && (c <=? ch "z"))%N then (c - 32)%N else c.
Definition lowerA (c : N) : N :=
  if ((ch "A" <=? c) && (c <=? ch "Z"))%N then (c + 32)%N else c.

Definition in_cls (icase : bool) (k : cls) (c : N) : bool :=
  xorb (cls_neg k)
       (if icase then in_ranges (cls_ranges k) (lowerA c) || in_ranges (cls_ranges k) (upperA c)
        else in_ranges (cls_ranges k) c).

(** ** Regular expressions with backtracking

    The fragment the source uses: classes, sequence, alternation, greedy
    bounded repetition, [\b], a one-character negative look-behind, [^] and
    [$].  A matcher state is the code unit before the current position (if
    any) and the rest of the input.  [m] lists the states after every way of
    matching, in the order a backtracking matcher tries them, so its head is
    the match JavaScript reports. *)
Inductive re :=
| RChar (k : cls)
| RSeq (a b : re)
| RAlt (a b : re)
| RRep (lo : nat) (hi : option nat) (a : re)
| RWordB
| RNotBehind (k : cls)
| RBol
| REol.

Abbreviation mstate := (option N * list N)%type.

Definition at_word (o : option N) : bool :=
  match o with Some c => is_word c | None => false end.

Definition more (hi : option nat) : bool :=
  match hi with Some 0 => false | _ => true end.
Definition dec (hi : option nat) : option nat :=
  match hi with Some n => Some (pred n) | None => None end.

Section Matcher.
Variable icase : bool.

(** Greedy repetition of a matcher [step], between [lo] and [hi] times: one
    more round first (a round must consume input), stopping here last. *)
Fixpoint rep (step : mstate -> list mstate) (fuel lo : nat) (hi : option nat)
         (st : mstate) : list mstate :=
  match fuel with
  | O => if Nat.eqb lo 0 then [st] else []
  | S fuel' =>
      (if more hi
       then flat_map
              (fun st' =>
                 if Nat.ltb (length (snd st')) (length (snd st))
                 then rep step fuel' (pred lo) (dec hi) st' else [])
              (step st)
       else [])
      ++ (if Nat.eqb lo 0 then [st] else [])
  end.

Fixpoint m (r : re) (st : mstate) : list mstate :=
  match r with
  | RChar k =>
      match snd st with
      | c :: t => if in_cls icase k c then [(Some c, t)] else []
      | [] => []
      end
  | RSeq a b => flat_map (m b) (m a st)
  | RAlt a b => m a st ++ m b st
  | RRep lo hi a => rep (m a) (length (snd st)) lo hi st
  | RWordB =>
      if xorb (at_word (fst st)) (at_word (hd_error (snd st))) then [st] else []
  | RNotBehind k =>
      match fst st with
      | Some c => if in_cls icase k c then [] else [st]
      | None => [st]
      end
  | RBol => match fst st with None => [st] | Some _ => [] end
  | REol => match snd st with [] => [st] | _ :: _ => [] end
  end.

(** The first match at the current position: the matched text and the
    state after it. *)
Definition match_here (r : re) (st : mstate) : option (jsstring * mstate) :=
  match m r st with
  | st' :: _ => Some (firstn (length (snd st) - length (snd st')) (snd st), st')
  | [] => None
  end.

(** [String.prototype.replace] with a global pattern and a callback: scan
    from the left, replace each match by the callback's result and go on
    after the match.  After an empty match the scan moves on by one code
    unit. *)
Fixpoint replace_from (fuel : nat) (r : re) (f : jsstring -> jsstring)
         (prev : option N) (s : jsstring) : jsstring :=
  match fuel with
  | O => s
  | S fuel' =>
      match match_here r (prev, s) with
      | Some (mt, (prev', rest)) =>
          match mt, s with
          | [], c :: t => f [] ++ c :: replace_from fuel' r f (Some c) t
          | [], [] => f []
          | _ :: _, _ => f mt ++ replace_from fuel' r f prev' rest
          end
      | None =>
          match s with
          | c :: t => c :: replace_from fuel' r f (Some c) t
          | [] => []
          end
      end
  end.

Definition replace_all (r : re) (f : jsstring -> jsstring) (s : jsstring) : jsstring :=
  replace_from (S (length s)) r f None s.

(** [replace] with a pattern that has no [g] flag: the first match only. *)
Fixpoint replace_first_from (r : re) (f : jsstring -> jsstring)
         (prev : option N) (s : jsstring) : jsstring :=
  match match_here r (prev, s) with
  | Some (mt, (_, rest)) => f mt ++ rest
  | None =>
      match s with
      | c :: t => c :: replace_first_from r f (Some c) t
      | [] => []
      end
  end.

Definition replace_first (r : re) (f : jsstring -> jsstring) (s : jsstring) : jsstring :=
  replace_first_from r f None s.

(** [RegExp.prototype.test]: is there a match anywhere. *)
Fixpoint test_from (r : re) (prev : option N) (s : jsstring) : bool :=
  match m r (prev, s) with
  | _ :: _ => true
  | [] =>
      match s with
      | c :: t => test_from r (Some c) t
      | [] => false
      end
  end.

Definition test (r : re) (s : jsstring) : bool := test_from r None s.
End Matcher.

(** Pattern notation helpers. *)
Definition lit1 (a : ascii) : re := RChar (Cls false [one a]).
Fixpoint lit_list (l : list ascii) : re :=
  match l with
  | [] => RRep 0 (Some 0) RBol
  | [a] => lit1 a
  | a :: t => RSeq (lit1 a) (lit_list t)
  end.
Definition lit (s : string) : re := lit_list (list_ascii_of_string s).
Definition plus (a : re) : re := RRep 1 None a.
Definition star (a : re) : re := RRep 0 None a.
Definition opt (a : re) : re := RRep 0 (Some 1) a.
Definition at_least (n : nat) (a : re) : re := RRep n None a.
Fixpoint seqs (l : list re) : re :=
  match l with
  | [] => RRep 0 (Some 0) RBol
  | [a] => a
  | a :: t => RSeq a (seqs t)
  end.
Fixpoint alts (l : list re) : re :=
  match l with
  | [] => RChar (Cls false [])
  | [a] => a
  | a :: t => RAlt a (alts t)
  end.

(** ** String methods *)

(** [s.split(c)] for a one-character separator. *)
Fixpoint split_on (c : N) (s : jsstring) : list jsstring :=
  match s with
  | [] => [[]]
  | x :: t =>
      if (x =? c)%N then [] :: split_on c t
      else match split_on c t with
           | p :: ps => (x :: p) :: ps
           | [] => [[x]]
           end
  end.

(** [parts.join(c)]. *)
Fixpoint join_with (c : N) (l : list jsstring) : jsstring :=
  match l with
  | [] => []
  | [p] => p
  | p :: ps => p ++ c :: join_with c ps
  end.

(** [.filter(Boolean)] on strings keeps the non-empty ones. *)
Definition filter_nonempty (l : list jsstring) : list jsstring :=
  List.filter (fun p => match p with [] => false | _ => true end) l.

Definition includes_char (c : N) (s : jsstring) : bool :=
  existsb (fun x => (x =? c)%N) s.

Fixpoint trim_start (s : jsstring) : jsstring :=
  match s with
  | c :: t => if is_ws c then trim_start t else s
  | [] => []
  end.

Definition trim (s : jsstring) : jsstring :=
  rev (trim_start (rev (trim_start s))).

End JS.

(** ** The text normaliser (lib/tts/normalizer.ts) *)

Module Normalizer.
Import JS.

(** The patterns of the source, in its order. *)

(** Pattern "/^www\./" *)
Definition re_www : re := seqs [RBol; lit "www"; lit1 "."].
(** Pattern "/\./g" *)
Definition re_dot : re := lit1 ".".
(** Pattern "/https?:\/\//" *)
Definition re_scheme : re := seqs [lit "http"; opt (lit1 "s"); lit "://"].
(** Pattern "/https?:\/\/[^\s,)}\]]+/g" *)
Definition cls_url : cls := Cls true (ws_ranges ++ [one ","; one ")"; one "}"; one "]"]).
Definition re_url : re := seqs [lit "http"; opt (lit1 "s"); lit "://"; plus (RChar cls_url)].
(** Pattern "/\/(?:[^\s/]+\/){2,}[^\s/]+/g" *)
Definition cls_seg : cls := Cls true (ws_ranges ++ [one "/"]).
Definition re_abs : re :=
  seqs [lit1 "/"; at_least 2 (RSeq (plus (RChar cls_seg)) (lit1 "/")); plus (RChar cls_seg)].
(** Pattern "/(?<![:\w])(?:[a-zA-Z0-9_.-]+\/){2,}[a-zA-Z0-9_.-]+/g" *)
Definition cls_rel : cls :=
  Cls false [range "a" "z"; range "A" "Z"; range "0" "9"; one "_"; one "."; one "-"].
Definition cls_behind : cls := Cls false (one ":" :: word_ranges).
Definition re_rel : re :=
  seqs [RNotBehind cls_behind;
        at_least 2 (RSeq (plus (RChar cls_rel)) (lit1 "/")); plus (RChar cls_rel)].
(** Pattern "/\b[0-9a-f]{8,}\b/gi" *)
Definition cls_hex : cls := Cls false [range "0" "9"; range "a" "f"].
Definition re_hex : re := seqs [RWordB; at_least 8 (RChar cls_hex); RWordB].
(** Patterns "/\d/" and "/[a-f]/i" *)
Definition re_digit : re := RChar (Cls false digit_ranges).
Definition re_af : re := RChar (Cls false [range "a" "f"]).
(** Pattern "/\b ID (?:\. ID){3,} \b/g" (without the blanks), where ID is
    "[a-zA-Z][a-zA-Z0-9]*". *)
Definition cls_alpha : cls := Cls false [range "a" "z"; range "A" "Z"].
Definition cls_alnum : cls := Cls false [range "a" "z"; range "A" "Z"; range "0" "9"].
Definition re_ident : re := RSeq (RChar cls_alpha) (star (RChar cls_alnum)).
Definition re_dotted : re :=
  seqs [RWordB; re_ident; at_least 3 (RSeq (lit1 ".") re_ident); RWordB].
(** Pattern "/\.(com|org|net|io|dev|js|ts|py|go|rs|java|css|html)$/i" *)
Definition re_known_ext : re :=
  seqs [lit1 ".";
        alts (map lit ["com"; "org"; "net"; "io"; "dev"; "js"; "ts"; "py"; "go"; "rs";
                       "java"; "css"; "html"]%string);
        REol].
(** Pattern "/  +/g" *)
Definition re_spaces : re := RSeq (lit1 " ") (plus (lit1 " ")).

Section WithUrlParser.
(** [new URL(url).hostname] is the platform's URL parser, not code of the
    repository: it is a parameter, [None] standing for the constructor
    throwing. *)
Variable urlHostname : jsstring -> option jsstring.

Definition simplifyUrl (url : jsstring) : jsstring :=
  match urlHostname url with
  | Some hostname =>
      let host := replace_first false re_www (fun _ => []) hostname in
      replace_all false re_dot (fun _ => js " dot ") host
  | None =>
      hd [] (split_on (ch "/") (replace_first false re_scheme (fun _ => []) url))
  end.

Definition simplifyPath (path : jsstring) : jsstring :=
  let segments := filter_nonempty (split_on (ch "/") path) in
  if Nat.leb (length segments) 2 then join_with (ch "/") segments
  else
    let file := nth (length segments - 1) segments [] in
    let parent := nth (length segments - 2) segments [] in
    if includes_char (ch ".") file then file
    else parent ++ ch "/" :: file.

Definition simplifyHex (hex : jsstring) : jsstring :=
  js "hash " ++ firstn 6 hex.

Definition simplifyDottedPath (dottedPath : jsstring) : jsstring :=
  let parts := split_on (ch ".") dottedPath in
  nth (length parts - 1) parts [].

Definition step_urls (s : jsstring) : jsstring :=
  replace_all false re_url simplifyUrl s.

Definition step_abs_paths (s : jsstring) : jsstring :=
  replace_all false re_abs simplifyPath s.

Definition step_rel_paths (s : jsstring) : jsstring :=
  replace_all false re_rel
    (fun mt =>
       if Nat.ltb (length (filter_nonempty (split_on (ch "/") mt))) 3 then mt
       else simplifyPath mt) s.

Definition step_hex (s : jsstring) : jsstring :=
  replace_all true re_hex
    (fun mt =>
       if test false re_digit mt && test true re_af mt then simplifyHex mt else mt) s.

Definition step_dotted (s : jsstring) : jsstring :=
  replace_all false re_dotted
    (fun mt => if test true re_known_ext mt then mt else simplifyDottedPath mt) s.

Definition step_spaces (s : jsstring) : jsstring :=
  trim (replace_all false re_spaces (fun _ => js " ") s).

Definition normalizeTTSText (text : jsstring) : jsstring :=
  let result := text in
  let result := step_urls result in
  let result := step_abs_paths result in
  let result := step_rel_paths result in
  let result := step_hex result in
  let result := step_dotted result in
  let result := step_spaces result in
  result.
End WithUrlParser.

(** A stand-in for the URL parser on plain URLs, used to run examples: the
    host is what follows the scheme up to the first of [/ ? # :], lower-cased;
    it fails on an empty host or a host with a character outside
    [[A-Za-z0-9.-]]. *)
Definition cls_host : cls := Cls false [range "a" "z"; range "A" "Z"; range "0" "9"; one "."; one "-"].
Definition plainHostname (url : jsstring) : option jsstring :=
  match match_here false (seqs [RBol; lit "http"; opt (lit1 "s"); lit "://"]) (None, url) with
  | Some (_, (_, rest)) =>
      match match_here false (plus (RChar cls_host)) (None, rest) with
      | Some (h, (_, after)) =>
          match after with
          | [] => Some (map lowerA h)
          | c :: _ =>
              if in_ranges [one "/"; one "?"; one "#"; one ":"] c then Some (map lowerA h)
              else None
          end
      | None => None
      end
  | None => None
  end.

Definition show (s : jsstring) : string :=
  string_of_list_ascii (map ascii_of_N s).

End Normalizer.

(** ** Numbers and strings: [String(n)] and [parseInt(s, 10)] *)

Module Num.
Import JS.

Fixpoint uint_chars (u : Decimal.uint) : jsstring :=
  match u with
  | Decimal.Nil => []
  | Decimal.D0 u => ch "0" :: uint_chars u
  | Decimal.D1 u => ch "1" :: uint_chars u
  | Decimal.D2 u => ch "2" :: uint_chars u
  | Decimal.D3 u => ch "3" :: uint_chars u
  | Decimal.D4 u => ch "4" :: uint_chars u
  | Decimal.D5 u => ch "5" :: uint_chars u
  | Decimal.D6 u => ch "6" :: uint_chars u
  | Decimal.D7 u => ch "7" :: uint_chars u
  | Decimal.D8 u => ch "8" :: uint_chars u
  | Decimal.D9 u => ch "9" :: uint_chars u
  end.

(** [String(n)] for an integer [n]: its decimal digits, with a minus sign
    when negative. *)
Definition String_of (n : Z) : jsstring :=
  match n with
  | Zneg p => ch "-" :: uint_chars (Pos.to_uint p)
  | _ => uint_chars (N.to_uint (Z.to_N n))
  end.

(** The longest prefix of decimal digits. *)
Fixpoint digits_prefix (s : jsstring) : Decimal.uint :=
  match s with
  | [] => Decimal.Nil
  | c :: t =>
      if (c =? ch "0")%N then Decimal.D0 (digits_prefix t)
      else if (c =? ch "1")%N then Decimal.D1 (digits_prefix t)
      else if (c =? ch "2")%N then Decimal.D2 (digits_prefix t)
      else if (c =? ch "3")%N then Decimal.D3 (digits_prefix t)
      else if (c =? ch "4")%N then Decimal.D4 (digits_prefix t)
      else if (c =? ch "5")%N then Decimal.D5 (digits_prefix t)
      else if (c =? ch "6")%N then Decimal.D6 (digits_prefix t)
      else if (c =? ch "7")%N then Decimal.D7 (digits_prefix t)
      else if (c =? ch "8")%N then Decimal.D8 (digits_prefix t)
      else if (c =? ch "9")%N then Decimal.D9 (digits_prefix t)
      else Decimal.Nil
  end.

(** [parseInt(s, 10)]: skip leading white space, read an optional sign, then
    the longest run of decimal digits; [None] is NaN (no digit).  The value is
    the exact integer: a process identifier is far below 2^53, where
    JavaScript's numbers are exact, and a value that is not yields no valid
    identifier either way. *)
Definition parseInt (s : jsstring) : option Z :=
  let s := trim_start s in
  let (neg, body) :=
    match s with
    | c :: t =>
        if (c =? ch "-")%N then (true, t)
        else if (c =? ch "+")%N then (false, t)
        else (false, s)
    | [] => (false, s)
    end in
  match digits_prefix body with
  | Decimal.Nil => None
  | u => let v := Z.of_N (N.of_uint u) in Some (if neg then (- v)%Z else v)
  end.

End Num.

(** ** The file-lock queue (lib/queue/tts-queue.ts) *)

Module Queue.
Import JS Normalizer Num.

(** The lock file: [None] when absent, else its content. *)
Abbreviation lockfile := (option (list N)).

(** What a file-system call on the lock file did. *)
Inductive why := Stale | Unreadable | Forced | Release.
Inductive event :=
| EvCreate (ok : bool)      (* writeFileSync(LOCK_FILE, pid, { flag: 'wx' }) *)
| EvRead (ok : bool)        (* readFileSync(LOCK_FILE) *)
| EvUnlink (w : why)        (* unlinkSync(LOCK_FILE) *)
| EvExists.                 (* existsSync(LOCK_FILE) *)

(** *** Synchronous code: a state and exception monad over the lock file,
    logging the file-system calls. *)
Inductive res (A : Type) := Ok (a : A) | Throw.
Arguments Throw {A}.

Definition io (A : Type) := lockfile -> res A * lockfile * list event.

Definition ret {A} (a : A) : io A := fun fs => (Ok a, fs, []).
Definition bind {A B} (c : io A) (k : A -> io B) : io B :=
  fun fs =>
    match c fs with
    | (Ok a, fs', l) => let '(r, fs'', l') := k a fs' in (r, fs'', l ++ l')
    | (Throw, fs', l) => (Throw, fs', l)
    end.
Definition try_catch {A} (c : io A) (h : io A) : io A :=
  fun fs =>
    match c fs with
    | (Ok a, fs', l) => (Ok a, fs', l)
    | (Throw, fs', l) => let '(r, fs'', l') := h fs' in (r, fs'', l ++ l')
    end.

Notation "x <- c ;; k" := (bind c (fun x => k))
  (at level 100, c at next level, right associativity).
Notation "c ;;; k" := (bind c (fun _ => k))
  (at level 100, right associativity).

(** Atomic create-if-absent: throws when the file exists. *)
Definition writeFileSync_wx (content : jsstring) : io unit :=
  fun fs =>
    match fs with
    | None => (Ok tt, Some content, [EvCreate true])
    | Some _ => (Throw, fs, [EvCreate false])
    end.

(** Throws when the file is absent. *)
Definition readFileSync : io jsstring :=
  fun fs =>
    match fs with
    | Some c => (Ok c, fs, [EvRead true])
    | None => (Throw, fs, [EvRead false])
    end.

(** Throws when the file is absent. *)
Definition unlinkSync (w : why) : io unit :=
  fun fs =>
    match fs with
    | Some _ => (Ok tt, None, [EvUnlink w])
    | None => (Throw, None, [EvUnlink w])
    end.

Definition existsSync : io bool :=
  fun fs => (Ok (match fs with Some _ => true | None => false end), fs, [EvExists]).

Section Process.
(** [process.pid] of the caller, and [isPidAlive]: [process.kill(pid, 0)]
    does not throw. *)
Variable pid : Z.
Variable isPidAlive : Z -> bool.

(** The staleness test of [acquireLock]:
    [isNaN(holdingPid) || !isPidAlive(holdingPid)]. *)
Definition stale (content : jsstring) : bool :=
  match parseInt (trim content) with
  | None => true
  | Some holdingPid => negb (isPidAlive holdingPid)
  end.

Definition acquireLock : io bool :=
  (* mkdirSync(LOCK_DIR, { recursive: true }) does not touch the lock file *)
  try_catch
    (writeFileSync_wx (String_of pid) ;;; ret true)
    (try_catch
       (content <- readFileSync ;;
        if stale content then
          try_catch (unlinkSync Stale) (ret tt) ;;;
          try_catch (writeFileSync_wx (String_of pid) ;;; ret true) (ret false)
        else ret false)
       (try_catch (unlinkSync Unreadable) (ret tt) ;;; ret false)).

Definition releaseLock : io unit :=
  try_catch
    (e <- existsSync ;;
     if e : bool then
       content <- readFileSync ;;
       if decide (parseInt (trim content) = Some pid) then unlinkSync Release
       else ret tt
     else ret tt)
    (ret tt).
End Process.

(** *** [speakWithLock] as a step machine

    Other processes run between any two file-system calls of a caller, so
    the asynchronous [speakWithLock] is a machine whose steps are the single
    calls: a program counter names the call about to be made. *)

Record config := Config { queue_enabled : bool; maxWaitMs : Z }.

(** The two call sites of [acquireLock]: the loop condition (line 95) and the
    last attempt after the forced delete (line 100). *)
Inductive site := InLoop | Final.

Inductive pc :=
| Start                              (* lines 82-91 *)
| AcqCreate (s : site)               (* line 37 *)
| AcqRead (s : site)                 (* lines 42-45 *)
| AcqStaleUnlink (s : site)          (* line 47 *)
| AcqRetry (s : site)                (* line 49 *)
| AcqUnreadableUnlink (s : site)     (* line 57 *)
| CheckTime                          (* line 96 *)
| ForceUnlink                        (* line 99 *)
| Sleeping (until : Z)               (* line 107 *)
| SpeakDirect                        (* lines 86 and 102 *)
| SpeakHeld                          (* line 111 *)
| RelExists (ok : bool)              (* line 69 *)
| RelRead (ok : bool)                (* lines 70-71 *)
| RelUnlink (ok : bool)              (* line 72 *)
| Done (ok : bool).                  (* the promise resolved or rejected *)

(** A caller: where it is, the text it was given, and [startTime]. *)
Record proc := Proc { p_pc : pc; p_text : jsstring; p_start : Z }.

(** What the callers share: the lock file and the clock [Date.now()]. *)
Record world := World { lock : lockfile; now : Z }.

Inductive label :=
| LInit
| LFs (e : event)
| LTime (exceeded : bool)
| LWake
| LSpeak (text : jsstring) (held : bool) (ok : bool).

Definition pollIntervalMs : Z := 200.

(** Where [acquireLock] returns to. *)
Definition acquired (s : site) : pc := SpeakHeld.
Definition not_acquired (s : site) : pc :=
  match s with InLoop => CheckTime | Final => SpeakDirect end.

Section Machine.
Variable cfg : config.
Variable urlHostname : jsstring -> option jsstring.
Variable isPidAlive : Z -> bool.

Definition at_pc (p : proc) (c : pc) : proc := Proc c (p_text p) (p_start p).
Definition with_lock (w : world) (l : lockfile) : world := World l (now w).
Definition normalized (p : proc) : jsstring := normalizeTTSText urlHostname (p_text p).

(** One step of the caller with process identifier [self]; [ok] is whether
    [provider.speak] resolves, used by the steps that speak.  [None]: the
    caller cannot move (asleep before its timer, or done). *)
Definition pstep (self : Z) (ok : bool) (w : world) (p : proc)
  : option (label * world * proc) :=
  match p_pc p with
  | Start =>
      if queue_enabled cfg
      then Some (LInit, w, Proc (AcqCreate InLoop) (p_text p) (now w))
      else Some (LInit, w, at_pc p SpeakDirect)
  | AcqCreate s =>
      match lock w with
      | None => Some (LFs (EvCreate true), with_lock w (Some (String_of self)),
                      at_pc p (acquired s))
      | Some _ => Some (LFs (EvCreate false), w, at_pc p (AcqRead s))
      end
  | AcqRead s =>
      match lock w with
      | Some content =>
          if stale isPidAlive content
          then Some (LFs (EvRead true), w, at_pc p (AcqStaleUnlink s))
          else Some (LFs (EvRead true), w, at_pc p (not_acquired s))
      | None => Some (LFs (EvRead false), w, at_pc p (AcqUnreadableUnlink s))
      end
  | AcqStaleUnlink s =>
      Some (LFs (EvUnlink Stale), with_lock w None, at_pc p (AcqRetry s))
  | AcqRetry s =>
      match lock w with
      | None => Some (LFs (EvCreate true), with_lock w (Some (String_of self)),
                      at_pc p (acquired s))
      | Some _ => Some (LFs (EvCreate false), w, at_pc p (not_acquired s))
      end
  | AcqUnreadableUnlink s =>
      Some (LFs (EvUnlink Unreadable), with_lock w None, at_pc p (not_acquired s))
  | CheckTime =>
      if (now w - p_start p >? maxWaitMs cfg)%Z
      then Some (LTime true, w, at_pc p ForceUnlink)
      else Some (LTime false, w, at_pc p (Sleeping (now w + pollIntervalMs)))
  | ForceUnlink =>
      Some (LFs (EvUnlink Forced), with_lock w None, at_pc p (AcqCreate Final))
  | Sleeping until =>
      if (until <=? now w)%Z then Some (LWake, w, at_pc p (AcqCreate InLoop)) else None
  | SpeakDirect =>
      Some (LSpeak (normalized p) false ok, w, at_pc p (Done ok))
  | SpeakHeld =>
      Some (LSpeak (normalized p) true ok, w, at_pc p (RelExists ok))
  | RelExists r =>
      match lock w with
      | Some _ => Some (LFs EvExists, w, at_pc p (RelRead r))
      | None => Some (LFs EvExists, w, at_pc p (Done r))
      end
  | RelRead r =>
      match lock w with
      | Some content =>
          if decide (parseInt (trim content) = Some self)
          then Some (LFs (EvRead true), w, at_pc p (RelUnlink r))
          else Some (LFs (EvRead true), w, at_pc p (Done r))
      | None => Some (LFs (EvRead false), w, at_pc p (Done r))
      end
  | RelUnlink r =>
      Some (LFs (EvUnlink Release), with_lock w None, at_pc p (Done r))
  | Done _ => None
  end.

(** A caller is in [Holding] from a successful acquisition to the end of
    its release. *)
Definition holding (p : proc) : bool :=
  match p_pc p with
  | SpeakHeld | RelExists _ | RelRead _ | RelUnlink _ => true
  | _ => false
  end.

(** **** One caller against an arbitrary environment

    Before each step of the caller the environment presents the lock file
    and the clock in any state whatever (every interference by other
    processes is among them), and decides whether a [speak] resolves. *)
Fixpoint run_env (self : Z) (env : list (world * bool)) (p : proc)
  : list label * proc :=
  match env with
  | [] => ([], p)
  | (w, ok) :: env' =>
      match pstep self ok w p with
      | Some (l, _, p') => let '(ls, q) := run_env self env' p' in (l :: ls, q)
      | None => run_env self env' p
      end
  end.

(** **** One caller alone: each step sees the world the previous one left. *)
Fixpoint run_solo (n : nat) (self : Z) (ok : bool) (w : world) (p : proc)
  : list label * world * proc :=
  match n with
  | O => ([], w, p)
  | S n' =>
      match pstep self ok w p with
      | Some (l, w', p') =>
          let '(ls, w'', q) := run_solo n' self ok w' p' in (l :: ls, w'', q)
      | None => ([], w, p)
      end
  end.

(** **** Several callers: interleaving

    The callers are keyed by their process identifiers.  An action lets the
    clock advance or one caller take a step. *)
Record gstate := GState { g_world : world; g_procs : gmap Z proc }.

Inductive action :=
| Tick (d : Z)
| Run (i : Z) (ok : bool).

Definition gstep (g : gstate) (a : action) : option (option (Z * label) * gstate) :=
  match a with
  | Tick d =>
      if (0 <=? d)%Z
      then Some (None, GState (World (lock (g_world g)) (now (g_world g) + d)) (g_procs g))
      else None
  | Run i ok =>
      match g_procs g !! i with
      | Some p =>
          match pstep i ok (g_world g) p with
          | Some (l, w', p') => Some (Some (i, l), GState w' (<[i := p']> (g_procs g)))
          | None => None
          end
      | None => None
      end
  end.

Fixpoint exec (g : gstate) (acts : list action) : option (list (Z * label) * gstate) :=
  match acts with
  | [] => Some ([], g)
  | a :: acts' =>
      match gstep g a with
      | Some (ol, g') =>
          match exec g' acts' with
          | Some (ls, g'') => Some (match ol with Some l => l :: ls | None => ls end, g'')
          | None => None
          end
      | None => None
      end
  end.

(** All callers about to call [speakWithLock], no lock file. *)
Definition initial (g : gstate) : Prop :=
  lock (g_world g) = None /\
  forall i p, g_procs g !! i = Some p -> p_pc p = Start.

Definition holds (g : gstate) (i : Z) : Prop :=
  exists p, g_procs g !! i = Some p /\ holding p = true.
End Machine.

End Queue.

(** ** The speech backends (lib/tts/native.ts, elevenlabs.ts, openai.ts,
    playback.ts) *)

Module Backends.
Import JS.

(** How a [speak] promise settles, and whether audio was played to the end. *)
Inductive outcome := Resolved | Rejected.
Record result := Result { out : outcome; spoke : bool }.

Inductive platform := Darwin | Win32 | Linux.

(** A spawned command: [None] when [Bun.spawn] throws (no such executable),
    else the exit code. *)
Definition exit := option Z.

Definition exit_ok (e : exit) : bool :=
  match e with Some 0%Z => true | _ => false end.

(** [NativeTTSProvider]: available on macOS only; [speak] runs [say] and
    throws on a non-zero exit code. *)
Definition native_isAvailable (pf : platform) : bool :=
  match pf with Darwin => true | _ => false end.

Definition native_speak (say : exit) : result :=
  match say with
  | None => Result Rejected false
  | Some code => if (code =? 0)%Z then Result Resolved true else Result Rejected false
  end.


(** What [fetch] gives: a rejection, or a response with [ok], [status] and
    its body text. *)
Inductive fetched :=
| FetchRejects
| Response (ok : bool) (status : Z) (text : jsstring).


(** [s.includes(needle)]. *)
Fixpoint starts_with (needle s : jsstring) : bool :=
  match needle, s with
  | [], _ => true
  | a :: n', b :: s' => (a =? b)%N && starts_with n' s'
  | _ :: _, [] => false
  end.
Fixpoint includes (needle s : jsstring) : bool :=
  starts_with needle s ||
  match s with
  | [] => false
  | _ :: t => includes needle t
  end.

(** [errorText.includes('quota_exceeded') ||
     errorText.toLowerCase().includes('credits remaining')] *)
Definition quota_exceeded (errorText : jsstring) : bool :=
  includes (js "quota_exceeded") errorText
  || includes (js "credits remaining") (map lowerA errorText).

(** The fallback of [ElevenLabsTTSProvider.speak]:
    [if (native.isAvailable()) await native.speak(text)]. *)
Definition native_fallback (pf : platform) (say : exit) : result :=
  if native_isAvailable pf then native_speak say else Result Resolved false.

(** [ElevenLabsTTSProvider.speak].  [afplay] is the exit of the player,
    awaited without a look at its code; [say1] and [say2] are the exits of
    the first and the second run of [say], the second being the one of the
    [catch] block after the first threw inside the [try]. *)
Definition elevenlabs_speak (pf : platform) (f : fetched) (write : bool)
           (afplay say1 say2 : exit) : result :=
  let general_fallback (say : exit) := native_fallback pf say in
  match f with
  | FetchRejects => general_fallback say1
  | Response false status errorText =>
      if quota_exceeded errorText then
        if native_isAvailable pf then
          match out (native_speak say1) with
          | Resolved => native_speak say1
          | Rejected => general_fallback say2
          end
        else Result Resolved false
      else general_fallback say1
  | Response true _ _ =>
      if write then
        match afplay with
        | Some code => Result Resolved (code =? 0)%Z
        | None => general_fallback say1
        end
      else general_fallback say1
  end.

(** A failure nobody hears of: nothing was played and the promise resolved. *)
Definition swallowed (r : result) : bool :=
  match out r with Resolved => negb (spoke r) | Rejected => false end.

End Backends.

(** ** The provider resolver (lib/tts/resolver.ts) *)

Module Resolver.
Import JS.

Inductive provider := Native | ElevenLabs | OpenAI | UnrealSpeech | DeepSeek.

(** What [isAvailable] reads: the platform, the API keys of the environment
    and the DeepSeek endpoint of the configuration. *)
Record environment := Environment {
  is_darwin : bool;
  ELEVENLABS_API_KEY : bool;
  OPENAI_API_KEY : bool;
  UNREAL_SPEECH_API_KEY : bool;
  DEEPSEEK_API_KEY : bool;
  deepseek_endpoint : bool
}.

Definition isAvailable (e : environment) (p : provider) : bool :=
  match p with
  | Native => is_darwin e
  | ElevenLabs => ELEVENLABS_API_KEY e
  | OpenAI => OPENAI_API_KEY e
  | UnrealSpeech => UNREAL_SPEECH_API_KEY e
  | DeepSeek => DEEPSEEK_API_KEY e && deepseek_endpoint e
  end.

(** The own properties of the object literal [PROVIDERS]. *)
Definition PROVIDERS : gmap jsstring provider :=
  list_to_map [ (js "native", Native); (js "elevenlabs", ElevenLabs);
                (js "openai", OpenAI); (js "unreal-speech", UnrealSpeech);
                (js "deepseek", DeepSeek) ].

(** [PROVIDERS] is a plain object, so [PROVIDERS[name]] also finds the
    properties it inherits from [Object.prototype]. *)
Definition object_prototype_keys : list jsstring :=
  map js [ "constructor"; "toString"; "toLocaleString"; "valueOf"; "hasOwnProperty";
           "isPrototypeOf"; "propertyIsEnumerable"; "__proto__"; "__defineGetter__";
           "__defineSetter__"; "__lookupGetter__"; "__lookupSetter__" ]%string.

Inductive property :=
| Own (p : provider)     (* a factory of the registry *)
| Inherited              (* a member of Object.prototype: truthy, no factory *)
| Undefined.

Section Lookup.
Variable registry : gmap jsstring provider.

Definition get (name : jsstring) : property :=
  match registry !! name with
  | Some p => Own p
  | None =>
      if existsb (str_eqb name) object_prototype_keys then Inherited else Undefined
  end.

(** [resolveTTSProvider] over the priority list of the configuration.
    [None] is a TypeError: an inherited member is truthy, so it passes
    [if (!factory) continue], and then either calling it throws or what it
    returns has no [isAvailable]. *)
Fixpoint resolve (e : environment) (priority : list jsstring) : option (option provider) :=
  match priority with
  | [] => Some None
  | name :: rest =>
      match get name with
      | Undefined => resolve e rest
      | Own p => if isAvailable e p then Some (Some p) else resolve e rest
      | Inherited => None
      end
  end.
End Lookup.

Definition resolveTTSProvider (e : environment) (priority : list jsstring)
  : option (option provider) :=
  resolve PROVIDERS e priority.

End Resolver.

(** ** The activity log (lib/log.ts, lib/activity-log.ts) *)

Module Log.
Import JS.

Inductive json :=
| JNull
| JBool (b : bool)
| JNum (n : Z)
| JStr (s : jsstring)
| JArr (l : list json)
| JObj (fields : list (jsstring * json)).

Definition is_array (v : json) : bool :=
  match v with JArr _ => true | _ => false end.

(** How a call ends. *)
Inductive completion (A : Type) := Returns (a : A) | Throws.
Arguments Throws {A}.

Section WithJSON.
(** [JSON.parse] (it throws on text that is not JSON) and
    [JSON.stringify(_, null, 2)] are the platform's. *)
Variable JSON_parse : jsstring -> completion json.
Variable JSON_stringify : json -> jsstring.

(** The collection [appendToJsonLog] starts from, given the log file
    ([None]: it does not exist): the parsed array; the empty collection when
    the parsed value is not an array, and when reading and parsing threw
    (the [catch] block). *)
Definition read_log (file : option jsstring) : list json :=
  match file with
  | Some raw =>
      match JSON_parse raw with
      | Returns (JArr parsed) => parsed
      | Returns _ => []
      | Throws => []
      end
  | None => []
  end.

(** [appendToJsonLog(logPath, entry)]: how it ends and the new state of the
    log file.  [mkdirSync] and [writeFileSync] on the log path are taken to
    work. *)
Definition appendToJsonLog (file : option jsstring) (entry : json)
  : completion unit * option jsstring :=
  let logData := read_log file in
  (Returns tt, Some (JSON_stringify (JArr (logData ++ [entry])))).

(** [logTTSActivity(entry)]: [id] and [timestamp] come from the clock and
    the random generator. *)
Definition logTTSActivity (id timestamp : jsstring) (entry : list (jsstring * json))
           (file : option jsstring) : completion unit * option jsstring :=
  let fullEntry := JObj ((js "id", JStr id) :: (js "timestamp", JStr timestamp) :: entry) in
  appendToJsonLog file fullEntry.
End WithJSON.

End Log.

Module Providers.
Import JS Resolver.

(** The entries of the object literal [PROVIDERS], in its order. *)
Definition PROVIDERS_entries : list (jsstring * provider) :=
  [ (js "native", Native); (js "elevenlabs", ElevenLabs); (js "openai", OpenAI);
    (js "unreal-speech", UnrealSpeech); (js "deepseek", DeepSeek) ].

(** [getAllProviders()]: each entry with its availability. *)
Definition getAllProviders (e : environment) : list (jsstring * bool) :=
  map (fun entry => (fst entry, isAvailable e (snd entry))) PROVIDERS_entries.


End Providers.

Module Playback.
Import JS Num Backends.

(** Patterns "/\\/g" and "/'/g".  Their replacement strings, "/" and two
    apostrophes, hold no dollar sign, so they are inserted as they are. *)
Definition re_backslash : re := lit1 "\".
Definition re_quote : re := lit1 "'".

(** [text.replace(/'/g, "''")] *)
Definition double_quotes (text : jsstring) : jsstring :=
  replace_all false re_quote (fun _ => js "''") text.

(** [lines.join('\n')] *)
Definition lines (l : list jsstring) : jsstring := join_with 10%N l.

(** The PowerShell script of [playAudioFile] on Windows. *)
Definition fileUri (filePath : jsstring) : jsstring :=
  js "file:///" ++ replace_all false re_backslash (fun _ => js "/") filePath.

Definition safeUri (filePath : jsstring) : jsstring := double_quotes (fileUri filePath).

Definition play_script (filePath : jsstring) : jsstring :=
  lines [ js "Add-Type -AssemblyName PresentationCore";
          js "$p = New-Object System.Windows.Media.MediaPlayer";
          js "$p.Open([uri]'" ++ safeUri filePath ++ js "')";
          js "Start-Sleep -Milliseconds 600";
          js "$p.Play()";
          js "$t = 0";
          js "while (-not $p.NaturalDuration.HasTimeSpan -and $t -lt 50) { Start-Sleep -Milliseconds 100; $t++ }";
          js "if ($p.NaturalDuration.HasTimeSpan) {";
          js "  Start-Sleep -Milliseconds ([int]$p.NaturalDuration.TimeSpan.TotalMilliseconds + 250)";
          js "} else {";
          js "  Start-Sleep -Seconds 10";
          js "}";
          js "$p.Close()" ].

(** [if (voice)] and [if (rate)]: an absent or empty voice, an absent or zero
    rate are skipped.  The rate is an integer, as the configuration has it. *)
Definition given_voice (voice : option jsstring) : bool :=
  match voice with Some (_ :: _) => true | _ => false end.
Definition given_rate (rate : option Z) : bool :=
  match rate with Some 0%Z | None => false | Some _ => true end.

(** [Math.max(-10, Math.min(10, Math.round((rate - 175) / 25)))];
    [Math.round] rounds a half upwards. *)
Definition winRate (rate : option Z) : Z :=
  match rate with
  | Some r => if given_rate rate
              then Z.max (-10) (Z.min 10 ((2 * (r - 175) + 25) / 50))
              else 0
  | None => 0
  end.

(** The PowerShell script of [speakNative] on Windows. *)
Definition speak_script (text : jsstring) (rate : option Z) : jsstring :=
  lines [ js "Add-Type -AssemblyName System.Speech";
          js "$s = New-Object System.Speech.Synthesis.SpeechSynthesizer";
          js "$s.Rate = " ++ String_of (winRate rate);
          js "$s.Speak('" ++ double_quotes text ++ js "')";
          js "$s.Dispose()" ].

(** The command [speakNative] spawns. *)
Definition speakNative_command (pf : platform) (text : jsstring)
           (voice : option jsstring) (rate : option Z) : list jsstring :=
  let opt_rate flag :=
    match rate with
    | Some r => if given_rate rate then [js flag; String_of r] else []
    | None => []
    end in
  match pf with
  | Darwin =>
      [js "say"]
        ++ match voice with
           | Some v => if given_voice voice then [js "-v"; v] else []
           | None => []
           end
        ++ opt_rate "-r"%string ++ [text]
  | Win32 => [js "powershell"; js "-NoProfile"; js "-Command"; speak_script text rate]
  | Linux => [js "espeak"] ++ opt_rate "-s"%string ++ [text]
  end.

(** [speakNative] throws when the command exits with a code that is not 0. *)
Definition speakNative (e : exit) : result := native_speak e.

End Playback.

Module Obj.
Import JS Num Log.

Abbreviation fields := (list (jsstring * json)).

(** The own property [key]. *)
Fixpoint own (o : fields) (key : jsstring) : option json :=
  match o with
  | [] => None
  | (k, v) :: o' => if str_eqb k key then Some v else own o' key
  end.

Fixpoint overwrite (o : fields) (key : jsstring) (v : json) : fields :=
  match o with
  | [] => []
  | (k, w) :: o' =>
      if str_eqb k key then (k, v) :: o' else (k, w) :: overwrite o' key v
  end.

(** [o[key] = v], for an object whose prototype is [Object.prototype]: an
    own property is overwritten; a new one is created, except under the name
    [__proto__], which is an accessor of the prototype: that assignment goes
    to the prototype of [o] and leaves its own properties as they are. *)
Definition assign (o : fields) (key : jsstring) (v : json) : fields :=
  match own o key with
  | Some _ => overwrite o key v
  | None => if str_eqb key (js "__proto__") then o else o ++ [(key, v)]
  end.

(** [v && typeof v === 'object' && !Array.isArray(v)] *)
Definition is_record (v : json) : bool :=
  match v with JObj _ => true | _ => false end.

(** The string that a template literal, or a comparison with a number,
    makes of a value.  An array is its
    elements joined by commas, null standing for nothing; an object is
    "[object Object]", unless it has a property [toString] of its own, which
    JSON data cannot call: then the conversion throws. *)
Fixpoint to_text (v : json) {struct v} : completion jsstring :=
  match v with
  | JNull => Returns (js "null")
  | JBool true => Returns (js "true")
  | JBool false => Returns (js "false")
  | JNum n => Returns (String_of n)
  | JStr s => Returns s
  | JArr l =>
      (fix join (l : list json) : completion jsstring :=
         match l with
         | [] => Returns []
         | x :: l' =>
             match (match x with JNull => Returns [] | _ => to_text x end), join l' with
             | Returns a, Returns b =>
                 Returns (match l' with [] => a | _ :: _ => a ++ ch "," :: b end)
             | _, _ => Throws
             end
         end) l
  | JObj o =>
      match own o (js "toString") with
      | Some _ => Throws
      | None => Returns (js "[object Object]")
      end
  end.

End Obj.

Module Config.
Import JS Num Log Obj.

(** [deepMerge(target, source)] on the own properties.  Where the target
    has no own property [key], [target[key]] is undefined or a member of
    [Object.prototype]; a member is a function, so the source value is
    assigned, but for [__proto__], where [assign] keeps the own properties
    whatever the value is. *)
Fixpoint deepMerge_json (target : fields) (source : json) {struct source} : fields :=
  match source with
  | JObj src =>
      (fix loop (src : fields) (result : fields) {struct src} : fields :=
         match src with
         | [] => result
         | (key, sv) :: src' =>
             loop src'
                  (match sv, own target key with
                   | JObj _, Some (JObj tv) => assign result key (JObj (deepMerge_json tv sv))
                   | _, _ => assign result key sv
                   end)
         end) src target
  | _ => target
  end.

Definition deepMerge (target source : fields) : fields :=
  deepMerge_json target (JObj source).

(** [Object.keys(v)] with the values [v[key]], for each kind of value that
    [JSON.parse] returns: it throws on null, a number or a boolean has no
    keys, a string and an array have their indices. *)
Definition indexed (l : list json) : fields :=
  combine (map (fun i => String_of (Z.of_nat i)) (seq 0 (length l))) l.

Definition entries (v : json) : completion fields :=
  match v with
  | JNull => Throws
  | JBool _ | JNum _ => Returns []
  | JStr s => Returns (indexed (map (fun c => JStr [c]) s))
  | JArr l => Returns (indexed l)
  | JObj f => Returns f
  end.

(** [v.key]: it throws on null and undefined. *)
Definition member (v : option json) (key : jsstring) : completion (option json) :=
  match v with
  | None | Some JNull => Throws
  | Some (JObj f) => Returns (own f key)
  | Some _ => Returns None
  end.

(** A value that a condition takes for true. *)
Definition truthy (v : option json) : bool :=
  match v with
  | None | Some JNull | Some (JBool false) | Some (JNum 0) | Some (JStr []) => false
  | Some _ => true
  end.

Section WithDefaults.
Variable JSON_parse : jsstring -> completion json.
(** [Number(s) < n] for a string [s], of the platform. *)
Variable number_below : jsstring -> Z -> bool.
(** The own properties of the object literal [DEFAULTS]; in it [llm],
    [llm.anthropic], [llm.openai] and the [model] of both are own properties,
    and so they are in every merge with it. *)
Variable DEFAULTS : fields.

(** [model.length < n].  A string and an array have a length; an object has
    its own property [length], if any, converted to a number (an array or an
    object through its text, which may throw); the other values have none,
    and undefined is below nothing. *)
Definition length_below (model : json) (n : Z) : completion bool :=
  match model with
  | JStr s => Returns (Z.of_nat (length s) <? n)%Z
  | JArr l => Returns (Z.of_nat (length l) <? n)%Z
  | JObj o =>
      match own o (js "length") with
      | None => Returns false
      | Some JNull => Returns (0 <? n)%Z
      | Some (JBool b) => Returns ((if b then 1 else 0) <? n)%Z
      | Some (JNum k) => Returns (k <? n)%Z
      | Some (JStr s) => Returns (number_below s n)
      | Some v =>
          match to_text v with
          | Throws => Throws
          | Returns s => Returns (number_below s n)
          end
      end
  | _ => Returns false
  end.

(** [if (model && model.length < n) console.error(`... "${model}" ...`)]:
    what is written is not modelled, the making of the text is. *)
Definition warn_short (model : option json) (n : Z) : completion unit :=
  match model with
  | Some m =>
      if truthy model then
        match length_below m n with
        | Throws => Throws
        | Returns true =>
            match to_text m with
            | Throws => Throws
            | Returns _ => Returns tt
            end
        | Returns false => Returns tt
        end
      else Returns tt
  | None => Returns tt
  end.

(** The check of the model names after the merge: [llm.anthropic.model] and
    [llm.openai.model] throw when [llm] is not an object or one of the two is
    null or missing. *)
Definition validate (config : fields) : completion unit :=
  match member (own config (js "llm")) (js "anthropic") with
  | Throws => Throws
  | Returns anthropic =>
      match member anthropic (js "model") with
      | Throws => Throws
      | Returns model =>
          match warn_short model 5 with
          | Throws => Throws
          | Returns _ =>
              match member (own config (js "llm")) (js "openai") with
              | Throws => Throws
              | Returns openai =>
                  match member openai (js "model") with
                  | Throws => Throws
                  | Returns model => warn_short model 3
                  end
              end
          end
      end
  end.

(** [loadConfig()]: the result and the cache it leaves.  [cachedConfig] is
    the cache before the call, [file] the content of hooks.config.json
    ([None]: there is no such file). *)
Definition loadConfig (cachedConfig : option fields) (file : option jsstring)
  : completion fields * option fields :=
  match cachedConfig with
  | Some config => (Returns config, cachedConfig)
  | None =>
      let userConfig :=
        match file with
        | Some raw =>
            match JSON_parse raw with
            | Returns v => v
            | Throws => JObj []
            end
        | None => JObj []
        end in
      match entries userConfig with
      | Throws => (Throws, None)
      | Returns source =>
          let config := deepMerge DEFAULTS source in
          match validate config with
          | Throws => (Throws, Some config)
          | Returns _ => (Returns config, Some config)
          end
      end
  end.
End WithDefaults.

End Config.

Module Templates.
Import JS Num Log Obj.

(** [deepMerge(target, source)] of the loader, on values of any kind:
    [None] is undefined. *)
Fixpoint deepMerge_with (target : option json) (source : json) {struct source} : json :=
  match source, target with
  | JObj src, Some (JObj tv) =>
      JObj ((fix loop (src : fields) (result : fields) {struct src} : fields :=
               match src with
               | [] => result
               | (key, sv) :: src' =>
                   loop src' (assign result key (deepMerge_with (own tv key) sv))
               end) src tv)
  | _, _ => source
  end.

Definition deepMerge (target source : option json) : option json :=
  match source with
  | Some s => Some (deepMerge_with target s)
  | None => target
  end.

(** The replacement text of [String.prototype.replace] with a string as
    second argument (GetSubstitution of ECMAScript), for a pattern without
    groups: [$$] is a dollar sign, [$&] the matched text, [$`] and [$'] the
    text before and after the match; any other [$] stands for itself. *)
Fixpoint GetSubstitution (matched before after replacement : jsstring) : jsstring :=
  match replacement with
  | [] => []
  | c :: t =>
      if (c =? ch "$")%N then
        match t with
        | d :: t' =>
            if (d =? ch "$")%N then ch "$" :: GetSubstitution matched before after t'
            else if (d =? ch "&")%N then matched ++ GetSubstitution matched before after t'
            else if (d =? ch "`")%N then before ++ GetSubstitution matched before after t'
            else if (d =? ch "'")%N then after ++ GetSubstitution matched before after t'
            else c :: GetSubstitution matched before after t
        | [] => [c]
        end
      else c :: GetSubstitution matched before after t
  end.

(** [s.replace(pattern, replacement)] with a global pattern and a string:
    as [replace_all], with the text already scanned kept (in reverse) for
    [$`]. *)
Fixpoint replace_str_from (fuel : nat) (r : re) (replacement : jsstring)
         (scanned : jsstring) (s : jsstring) : jsstring :=
  match fuel with
  | O => s
  | S fuel' =>
      match match_here false r (hd_error scanned, s) with
      | Some (mt, (_, rest)) =>
          match mt, s with
          | [], c :: t =>
              GetSubstitution [] (rev scanned) s replacement
                ++ c :: replace_str_from fuel' r replacement (c :: scanned) t
          | [], [] => GetSubstitution [] (rev scanned) [] replacement
          | _ :: _, _ =>
              GetSubstitution mt (rev scanned) rest replacement
                ++ replace_str_from fuel' r replacement (rev mt ++ scanned) rest
          end
      | None =>
          match s with
          | c :: t => c :: replace_str_from fuel' r replacement (c :: scanned) t
          | [] => []
          end
      end
  end.

Definition replace_str (r : re) (replacement : jsstring) (s : jsstring) : jsstring :=
  replace_str_from (S (length s)) r replacement [] s.

(** [TemplateVars]; [None] is an absent field.  [count] is an integer (the
    callers pass a length). *)
Record TemplateVars := {
  projectName : jsstring;
  userName : jsstring;
  activity : option jsstring;
  lastActivity : option jsstring;
  count : option Z;
  agentName : option jsstring;
  description : option jsstring
}.

(** [v ?? ''] *)
Definition or_empty (v : option jsstring) : jsstring :=
  match v with Some s => s | None => [] end.

(** The pattern "/\{\{name\}\}/g". *)
Definition placeholder (name : string) : re := lit ("{{" ++ name ++ "}}").

Definition renderTemplate (template : jsstring) (vars : TemplateVars) : jsstring :=
  let t := template in
  let t := replace_str (placeholder "projectName") (projectName vars) t in
  let t := replace_str (placeholder "userName") (userName vars) t in
  let t := replace_str (placeholder "activity") (or_empty (activity vars)) t in
  let t := replace_str (placeholder "lastActivity") (or_empty (lastActivity vars)) t in
  let t := replace_str (placeholder "count")
                       (String_of (match count vars with Some n => n | None => 0%Z end)) t in
  let t := replace_str (placeholder "agentName") (or_empty (agentName vars)) t in
  let t := replace_str (placeholder "description") (or_empty (description vars)) t in
  t.

(** [pickAndRender(templates, vars)]; [i] is
    [Math.floor(Math.random() * templates.length)].  The element of an empty
    array is undefined, and [renderTemplate] throws on it. *)
Definition pickAndRender (templates : list jsstring) (i : nat) (vars : TemplateVars)
  : completion jsstring :=
  match nth_error templates i with
  | Some template => Returns (renderTemplate template vars)
  | None => Throws
  end.

End Templates.

Module ConfigManager.
Import JS Log Obj.

(** What a look-up by path gives: a JSON value, undefined, or a member of
    [Object.prototype] (a function, or the prototype itself), which is no
    JSON value. *)
Inductive found :=
| Value (v : json)
| Undefined
| Inherited.

(** A function is no object: the loop returns undefined at the next key. *)
Definition at_function (keys : list jsstring) : found :=
  match keys with [] => Inherited | _ :: _ => Undefined end.

(** The loop from [Object.prototype], which [__proto__] reaches: its
    members are functions, and its own [__proto__] is null. *)
Definition at_prototype (keys : list jsstring) : found :=
  match keys with
  | [] => Inherited
  | key :: keys' =>
      if str_eqb key (js "__proto__")
      then match keys' with [] => Value JNull | _ :: _ => Undefined end
      else if existsb (str_eqb key) Resolver.object_prototype_keys then at_function keys'
      else Undefined
  end.

(** The loop of [getConfigValue] over the keys, from the value [current]. *)
Fixpoint get_from (current : json) (keys : list jsstring) : found :=
  match keys with
  | [] => Value current
  | key :: keys' =>
      match current with
      | JObj o =>
          match own o key with
          | Some v => get_from v keys'
          | None =>
              if str_eqb key (js "__proto__") then at_prototype keys'
              else if existsb (str_eqb key) Resolver.object_prototype_keys
                   then at_function keys'
                   else Undefined
          end
      | _ => Undefined
      end
  end.

(** [getConfigValue(config, dotPath)], for a configuration whose objects
    have the prototype [Object.prototype]: one that [JSON.parse] made, or
    [setConfigValue] on a path without [__proto__]. *)
Definition getConfigValue (config : fields) (dotPath : jsstring) : found :=
  get_from (JObj config) (split_on (ch ".") dotPath).

(** The loop of [setConfigValue]: every object on the way is copied, what is
    no object there is replaced by an empty one, and the last key is
    assigned. *)
Fixpoint set_from (current : fields) (keys : list jsstring) (value : json) : fields :=
  match keys with
  | [] => current
  | [key] => assign current key value
  | key :: keys' =>
      let next :=
        match own current key with
        | Some (JObj o) => o
        | _ => []
        end in
      assign current key (JObj (set_from next keys' value))
  end.

(** [setConfigValue(config, dotPath, value)]: the own properties of the
    result. *)
Definition setConfigValue (config : fields) (dotPath : jsstring) (value : json) : fields :=
  set_from config (split_on (ch ".") dotPath) value.

Section WithJSON.
Variable JSON_parse : jsstring -> completion json.

(** [readConfig(configPath)]: the empty object when the file is missing or
    does not parse. *)
Definition readConfig (file : option jsstring) : json :=
  match file with
  | Some raw =>
      match JSON_parse raw with
      | Returns v => v
      | Throws => JObj []
      end
  | None => JObj []
  end.
End WithJSON.

End ConfigManager.

Module Transcript.
Import JS Num Log Obj.

(** [v.key] for the keys the parser reads ([type], [message], [content],
    [name], [input], [command], [file_path], [pattern], [subagent_type],
    [description]), none of which a prototype defines: it throws on null and
    undefined, is the own property of an object, and undefined on the rest. *)
Definition member (v : option json) (key : string) : completion (option json) :=
  match v with
  | None | Some JNull => Throws
  | Some (JObj o) => Returns (own o (js key))
  | Some _ => Returns None
  end.

(** [v ?? d] *)
Definition or_else (v : option json) (d : json) : json :=
  match v with
  | None | Some JNull => d
  | Some x => x
  end.

(** [(v ?? '').slice(0, n)] and the text of it: a string and an array have
    [slice]; on the other values the call throws. *)
Definition sliced (v : option json) (n : nat) : completion jsstring :=
  match or_else v (JStr []) with
  | JStr s => Returns (firstn n s)
  | JArr l => to_text (JArr (firstn n l))
  | _ => Throws
  end.

Section WithPlatform.
Variable JSON_parse : jsstring -> completion json.
(** [path.basename] of the platform, on whatever it is given. *)
Variable basename : json -> completion jsstring.

(** [parseTranscript]: the lines that parse, in their order; [None] is a
    file that cannot be read. *)
Definition parseTranscript (file : option jsstring) : list json :=
  match file with
  | None => []
  | Some content =>
      flat_map (fun line =>
                  match trim line with
                  | [] => []
                  | trimmed =>
                      match JSON_parse trimmed with
                      | Returns v => [v]
                      | Throws => []
                      end
                  end)
               (split_on 10%N content)
  end.

Definition is_text (v : option json) (s : string) : bool :=
  match v with
  | Some (JStr t) => str_eqb t (js s)
  | _ => false
  end.

(** [describeToolUse(toolName, input)]; [None] is null. *)
Definition describeToolUse (toolName input : option json) : completion (option jsstring) :=
  let named (verb : string) :=
    match member input "file_path" with
    | Throws => Throws
    | Returns p =>
        match basename (or_else p (JStr [])) with
        | Throws => Throws
        | Returns path => Returns (Some (js verb ++ path))
        end
    end in
  if is_text toolName "Bash" then
    match member input "command" with
    | Throws => Throws
    | Returns c =>
        match sliced c 50 with
        | Throws => Throws
        | Returns cmd => Returns (Some (js "ran command: " ++ cmd))
        end
    end
  else if is_text toolName "Read" then named "read "%string
  else if is_text toolName "Write" then named "wrote "%string
  else if is_text toolName "Edit" then named "edited "%string
  else if is_text toolName "Glob" then
    match member input "pattern" with
    | Throws => Throws
    | Returns p =>
        match to_text (or_else p (JStr [])) with
        | Throws => Throws
        | Returns pattern => Returns (Some (js "searched for " ++ pattern))
        end
    end
  else if is_text toolName "Grep" then
    match member input "pattern" with
    | Throws => Throws
    | Returns p =>
        match sliced p 30 with
        | Throws => Throws
        | Returns pattern => Returns (Some (js "searched for '" ++ pattern ++ js "'"))
        end
    end
  else if is_text toolName "Task" then
    match member input "subagent_type" with
    | Throws => Throws
    | Returns s =>
        match member input "description" with
        | Throws => Throws
        | Returns d =>
            match to_text (or_else s (JStr (js "agent"))), to_text (or_else d (JStr [])) with
            | Returns subagent, Returns desc =>
                Returns (Some (js "launched " ++ subagent ++ js ": " ++ desc))
            | _, _ => Throws
            end
        end
    end
  else if is_text toolName "TodoWrite" then Returns (Some (js "updated task list"))
  else Returns None.

(** The inner loop of [extractRecentActivity] over the blocks of one
    message: the activities after it, and whether it ended at the bound. *)
Fixpoint over_blocks (maxItems : Z) (blocks : list json) (activities : list jsstring)
  : completion (list jsstring) :=
  match blocks with
  | [] => Returns activities
  | block :: rest =>
      match member (Some block) "type" with
      | Throws => Throws
      | Returns ty =>
          if is_text ty "tool_use" then
            match member (Some block) "name", member (Some block) "input" with
            | Returns toolName, Returns input =>
                match describeToolUse toolName input with
                | Throws => Throws
                | Returns (Some (c :: t)) =>
                    let activities := activities ++ [c :: t] in
                    if (Z.of_nat (length activities) >=? maxItems)%Z
                    then Returns activities
                    else over_blocks maxItems rest activities
                | Returns _ => over_blocks maxItems rest activities
                end
            | _, _ => Throws
            end
          else over_blocks maxItems rest activities
      end
  end.

(** The outer loop, over the messages from the last to the first. *)
Fixpoint over_messages (maxItems : Z) (messages : list json) (activities : list jsstring)
  : completion (list jsstring) :=
  match messages with
  | [] => Returns activities
  | msg :: earlier =>
      if (Z.of_nat (length activities) >=? maxItems)%Z then Returns activities
      else
        match member (Some msg) "type" with
        | Throws => Throws
        | Returns ty =>
            if negb (is_text ty "assistant") then over_messages maxItems earlier activities
            else
              match member (Some msg) "message" with
              | Throws => Throws
              | Returns messageContent =>
                  let contentBlocks :=
                    match messageContent with
                    | None | Some JNull => None
                    | Some (JObj o) => own o (js "content")
                    | Some _ => None
                    end in
                  match contentBlocks with
                  | None | Some JNull | Some (JBool false) | Some (JNum 0) | Some (JStr [])
                    => over_messages maxItems earlier activities
                  | Some (JArr blocks) =>
                      match over_blocks maxItems blocks activities with
                      | Throws => Throws
                      | Returns activities => over_messages maxItems earlier activities
                      end
                  | Some (JStr _) => over_messages maxItems earlier activities
                  | Some _ => Throws
                  end
              end
        end
  end.

Definition extractRecentActivity (file : option jsstring) (maxItems : Z)
  : completion (list jsstring) :=
  match over_messages maxItems (rev (parseTranscript file)) [] with
  | Throws => Throws
  | Returns activities => Returns (rev activities)
  end.
End WithPlatform.

End Transcript.

Import JS Normalizer Num Queue.
Import Log Resolver Backends.

(** * The vocabulary of the properties

    Predicates over the model, the runs and the inputs that the statements
    below speak of.  Nothing here belongs to the program. *)

(** ** The lock file and the calls on it *)

(** The lock file names [p]: its trimmed content parses to [p]. *)
Definition names (fs : lockfile) (p : Z) : Prop :=
  exists content, fs = Some content /\ parseInt (trim content) = Some p.

(** A label that is a call on the lock file. *)
Definition touches_lock (l : label) : bool :=
  match l with LFs _ => true | _ => false end.

(** The calls of a [releaseLock]. *)
Definition release_label (l : label) : bool :=
  match l with
  | LFs EvExists | LFs (EvRead _) | LFs (EvUnlink Release) => true
  | _ => false
  end.


(** ** The activity log *)

(** A stand-in for [JSON.parse] and [JSON.stringify], to run an example: it
    reads the empty array only, and writes no more than the number of entries
    of an array. *)
Definition tiny_stringify (v : json) : jsstring :=
  match v with
  | JArr l => js "[" ++ repeat (ch "#") (length l) ++ js "]"
  | _ => js "?"
  end.

(** It parses the empty array and throws on everything else. *)
Definition tiny_parse (s : jsstring) : completion json :=
  if str_eqb s (js "[]") then Returns (JArr []) else Throws.

(** ** The resolver *)

(** The first name of the list that is registered and available. *)
Fixpoint first_available (registry : gmap jsstring provider) (e : environment)
         (priority : list jsstring) : option provider :=
  match priority with
  | [] => None
  | name :: rest =>
      match registry !! name with
      | Some p => if isAvailable e p then Some p else first_available registry e rest
      | None => first_available registry e rest
      end
  end.


(** ** Runs of several callers *)

(** No white space in [s]: what [trim] leaves alone. *)
Definition no_ws (s : jsstring) : bool := forallb (fun c => negb (is_ws c)) s.


(** Two callers, and three, about to call [speakWithLock]; no lock file. *)
Definition two_callers : gstate :=
  GState (World None 0)
         (<[1%Z := Proc Start (js "first") 0]> (<[2%Z := Proc Start (js "second") 0]> ∅)).

Definition three_callers : gstate :=
  GState (World None 0)
         (<[1%Z := Proc Start (js "first") 0]>
            (<[2%Z := Proc Start (js "second") 0]> (<[3%Z := Proc Start (js "third") 0]> ∅))).


(** Caller 1 releases between the failed creation and the read of caller 2;
    caller 3 acquires before caller 2 deletes the file it could not read;
    caller 2 then acquires at its next poll, 200 ms after its start. *)
Definition unreadable_schedule : list action :=
  [Run 1 true; Run 1 true; Run 2 true; Run 2 true;
   Run 1 true; Run 1 true; Run 1 true; Run 1 true;
   Run 2 true; Run 3 true; Run 3 true; Run 2 true; Run 2 true; Tick 200;
   Run 2 true; Run 2 true].

(** A run of two callers without those deletions: caller 2 polls while caller
    1 speaks, and acquires after the release. *)
Definition polite_schedule : list action :=
  [Run 1 true; Run 1 true; Run 2 true; Run 2 true; Run 2 true; Run 2 true;
   Run 1 true; Run 1 true; Run 1 true; Run 1 true; Tick 200; Run 2 true; Run 2 true].

(** ** Shapes of text *)

(** The number of code units satisfying [P]. *)
Definition count_if (P : N -> bool) (s : jsstring) : nat := length (List.filter P s).

(** [suf] is what is left of [s] after a prefix. *)
Definition is_suffix (suf s : jsstring) : Prop := exists pre, s = pre ++ suf.

(** The code unit of the character [a]; a hexadecimal digit of either case. *)
Definition is_char (a : ascii) (c : N) : bool := (c =? ch a)%N.

Definition is_hex (c : N) : bool := in_cls true cls_hex c.

(** The length of the run of code units satisfying [P] at the head of [s],
    and of the longest such run anywhere in [s]. *)
Fixpoint run_len (P : N -> bool) (s : jsstring) : nat :=
  match s with
  | c :: t => if P c then S (run_len P t) else 0
  | [] => 0
  end.

Fixpoint max_run (P : N -> bool) (s : jsstring) : nat :=
  match s with
  | [] => 0
  | _ :: t => Nat.max (run_len P s) (max_run P t)
  end.

(** Two adjacent blanks somewhere in [s]. *)
Fixpoint double_space (s : jsstring) : bool :=
  match s with
  | c1 :: t => match t with
               | c2 :: _ => (is_char " " c1 && is_char " " c2) || double_space t
               | [] => false
               end
  | [] => false
  end.

(** The first code unit is white space. *)
Definition starts_ws (s : jsstring) : bool :=
  match s with c :: _ => is_ws c | [] => false end.

(** Nothing is left to simplify: no colon (so no URL), at most one slash (no
    path of three segments), at most two dots (no dotted path of four), no
    run of eight hexadecimal digits, no doubled blank, no white space at
    either end. *)
Definition simplified (t : jsstring) : bool :=
  Nat.eqb (count_if (is_char ":") t) 0
  && Nat.ltb (count_if (is_char "/") t) 2
  && Nat.ltb (count_if (is_char ".") t) 3
  && Nat.ltb (max_run is_hex t) 8
  && negb (double_space t)
  && negb (starts_ws t)
  && negb (starts_ws (rev t)).

#[local] Instance cls_eq_dec : EqDecision cls.
Proof. solve_decision. Defined.

(** The class of the one character [a]. *)
Definition just (a : ascii) (k : cls) : bool :=
  if decide (k = Cls false [one a]) then true else false.

(** The class of the hexadecimal digits. *)
Definition just_hex (k : cls) : bool :=
  if decide (k = cls_hex) then true else false.

(** The steps of [normalizeTTSText] after the first. *)
Definition after_urls (t : jsstring) : jsstring :=
  step_spaces (step_dotted (step_hex (step_rel_paths (step_abs_paths t)))).

(** The documented examples of the four kinds of input. *)
Definition sample_url : jsstring := js "https://api.example.com/v2/users/123?q=foo".

Definition sample_path : jsstring := js "/Users/jeff/dev/hooks/lib/config.ts".

Definition sample_hex : jsstring := js "a1b2c3d4e5f67890abcdef1234567890".

Definition sample_dotted : jsstring := js "com.example.foo.BarService".

(** ** The first match of a pattern *)

(** The match the engine takes: the first of the end states in priority
    order. *)
Definition first (icase : bool) (r : re) (st : mstate) : option mstate :=
  hd_error (m icase r st).

(** The code unit before the position reached after a run. *)
Definition last_of (prev : option N) (run : jsstring) : option N :=
  match rev run with c :: _ => Some c | [] => prev end.

(** What stops a run of a class: the end of the input, or a code unit
    outside the class. *)
Definition stops (icase : bool) (k : cls) (rest : jsstring) : Prop :=
  match rest with [] => True | c :: _ => in_cls icase k c = false end.

(** ** The four kinds of input *)

(** A letter or a digit. *)
Definition alnum (c : N) : Prop :=
  (48 <= c <= 57 \/ 65 <= c <= 90 \/ 97 <= c <= 122)%N.

(** An identifier: a letter, then letters and digits. *)
Definition ident (w : jsstring) : Prop :=
  exists c t, w = c :: t
              /\ in_cls false cls_alpha c = true
              /\ forallb (in_cls false cls_alnum) t = true.

(** [.w1.w2...] *)
Fixpoint dot_joined (ws : list jsstring) : jsstring :=
  match ws with
  | [] => []
  | w :: ws' => ch "." :: w ++ dot_joined ws'
  end.

(** An identifier of four segments or more: [w.w1.w2.w3...]. *)
Definition dotted (s : jsstring) (w : jsstring) (ws : list jsstring) : Prop :=
  s = w ++ dot_joined ws /\ ident w /\ Forall ident ws /\ (3 <= length ws)%nat.

(** One more segment of the dotted pattern: "\.[a-zA-Z][a-zA-Z0-9]*". *)
Definition re_dot_ident : re := RSeq (lit1 ".") re_ident.

(** A path segment: not empty, no white space, no slash. *)
Definition segment (g : jsstring) : Prop :=
  g <> [] /\ forallb (in_cls false cls_seg) g = true.

(** [d1/d2/.../] *)
Fixpoint dir_joined (dirs : list jsstring) : jsstring :=
  match dirs with
  | [] => []
  | d :: ds => d ++ ch "/" :: dir_joined ds
  end.

(** An absolute path of four segments or more: [/d1/d2/d3/.../file]. *)
Definition abs_path (s : jsstring) (dirs : list jsstring) (file : jsstring) : Prop :=
  s = ch "/" :: dir_joined dirs ++ file
  /\ Forall segment dirs /\ segment file /\ (3 <= length dirs)%nat.

(** Two adjacent characters [a]. *)
Fixpoint doubled (a : ascii) (s : jsstring) : bool :=
  match s with
  | c1 :: t => match t with
               | c2 :: _ => (is_char a c1 && is_char a c2) || doubled a t
               | [] => false
               end
  | [] => false
  end.

(** One directory of the path pattern: "[^\s/]+\/". *)
Definition re_dir : re := RSeq (plus (RChar cls_seg)) (lit1 "/").

(** The short form of an absolute path: its file when that has a dot, else
    the last directory and the file. *)
Definition short_path (dirs : list jsstring) (file : jsstring) : jsstring :=
  if includes_char (ch ".") file then file
  else List.last dirs [] ++ ch "/" :: file.

(** A URL as the first pattern takes it: the scheme, "://", and then one
    character or more, none of them white space or one of [, ) } ]]. *)
Definition url (s rest : jsstring) : Prop :=
  (s = js "http://" ++ rest \/ s = js "https://" ++ rest)
  /\ rest <> [] /\ forallb (in_cls false cls_url) rest = true.


(** ** Runs of one caller and of several *)



(** The forced delete of the max-wait valve (line 99). *)
Definition is_forced (l : label) : bool :=
  match l with LFs (EvUnlink Forced) => true | _ => false end.

(** A caller that started at [now0] or later and is not past a time check
    that found the wait exceeded. *)
Definition patient (now0 : Z) (p : proc) : Prop :=
  match p_pc p with
  | Start | SpeakDirect | SpeakHeld | RelExists _ | RelRead _ | RelUnlink _ | Done _ => True
  | AcqCreate InLoop | AcqRead InLoop | AcqStaleUnlink InLoop | AcqRetry InLoop
  | AcqUnreadableUnlink InLoop | CheckTime | Sleeping _ => (now0 <= p_start p)%Z
  | ForceUnlink | AcqCreate Final | AcqRead Final | AcqStaleUnlink Final
  | AcqRetry Final | AcqUnreadableUnlink Final => False
  end.

(** ** More shapes of text *)

(** The first code unit is a blank. *)
Definition starts_sp (s : jsstring) : bool :=
  match s with c :: _ => is_char " " c | [] => false end.

(** The number of dots that a letter follows. *)
Fixpoint dot_letters (s : jsstring) : nat :=
  match s with
  | c :: t =>
      (if is_char "." c && match t with d :: _ => in_cls false cls_alpha d | [] => false end
       then 1 else 0) + dot_letters t
  | [] => 0
  end.

(** A name of a relative path: not empty, of letters, digits and [_ . -]. *)
Definition rel_name (g : jsstring) : Prop :=
  g <> [] /\ forallb (in_cls false cls_rel) g = true.

(** A relative path of three segments: [d1/d2/file]. *)
Definition rel_path3 (s d1 d2 file : jsstring) : Prop :=
  s = d1 ++ ch "/" :: d2 ++ ch "/" :: file
  /\ rel_name d1 /\ rel_name d2 /\ rel_name file.

(** One directory of the relative pattern: "[a-zA-Z0-9_.-]+\/". *)
Definition re_rel_dir : re := RSeq (plus (RChar cls_rel)) (lit1 "/").

(** The host without a leading "www.", and with each dot spoken. *)
Definition strip_www (host : jsstring) : jsstring :=
  if starts_with (js "www.") host then skipn 4 host else host.

Definition speak_dots (host : jsstring) : jsstring :=
  flat_map (fun c => if is_char "." c then js " dot " else [c]) host.

(** Every apostrophe stands in a pair. *)
Fixpoint paired_quotes (s : jsstring) : bool :=
  match s with
  | [] => true
  | c :: t =>
      if is_char "'" c
      then match t with
           | d :: t' => is_char "'" d && paired_quotes t'
           | [] => false
           end
      else paired_quotes t
  end.

(** Two strings that differ at a position both have. *)
Fixpoint clash (p q : jsstring) : bool :=
  match p, q with
  | a :: p', b :: q' => negb (a =? b)%N || clash p' q'
  | _, _ => false
  end.

(** ** The activity log, call after call *)

(** The log file after one call of [appendToJsonLog] for each entry. *)
Definition log_all (JSON_parse : jsstring -> completion json)
           (JSON_stringify : json -> jsstring)
           (file : option jsstring) (entries : list json) : option jsstring :=
  fold_left (fun f entry => snd (appendToJsonLog JSON_parse JSON_stringify f entry))
            entries file.

(** A stand-in for [JSON.parse] and [JSON.stringify] on arrays of nulls:
    an array is written as one mark for each element. *)
Definition marks_stringify (v : json) : jsstring :=
  match v with
  | JArr l => repeat (ch "#") (length l)
  | _ => js "?"
  end.

Definition marks_parse (s : jsstring) : completion json :=
  if forallb (fun c => (c =? ch "#")%N) s then Returns (JArr (repeat JNull (length s)))
  else Throws.

(** ** The ElevenLabs backend *)

(** The call got its audio, wrote it and started the player. *)
Definition reaches_player (f : fetched) (write : bool) (afplay : exit) : bool :=
  match f, afplay with
  | Response true _ _, Some _ => write
  | _, _ => false
  end.

(** ** Merged configurations *)

(** What [deepMerge] assigns for a source value [sv] where the target has
    [tv]: the merge of the two when both are objects, else [sv]. *)
Definition merged (tv : option json) (sv : json) : json :=
  match sv, tv with
  | JObj s, Some (JObj t) => JObj (Config.deepMerge t s)
  | _, _ => sv
  end.

(** Induction on JSON values, through arrays and objects. *)
Fixpoint json_nested_ind (P : json -> Prop)
         (Hnull : P JNull) (Hbool : forall b, P (JBool b)) (Hnum : forall n, P (JNum n))
         (Hstr : forall s, P (JStr s))
         (Harr : forall l, List.Forall P l -> P (JArr l))
         (Hobj : forall f, List.Forall (fun kv => P (snd kv)) f -> P (JObj f))
         (v : json) {struct v} : P v :=
  match v with
  | JNull => Hnull
  | JBool b => Hbool b
  | JNum n => Hnum n
  | JStr s => Hstr s
  | JArr l =>
      Harr l ((fix all (l : list json) : List.Forall P l :=
                 match l with
                 | [] => @List.Forall_nil _ P
                 | x :: l' =>
                     @List.Forall_cons _ P x l'
                       (json_nested_ind Hnull Hbool Hnum Hstr Harr Hobj x) (all l')
                 end) l)
  | JObj f =>
      Hobj f ((fix all (f : Obj.fields) : List.Forall (fun kv => P (snd kv)) f :=
                 match f with
                 | [] => @List.Forall_nil _ (fun kv => P (snd kv))
                 | kv :: f' =>
                     @List.Forall_cons _ (fun kv => P (snd kv)) kv f'
                       (json_nested_ind Hnull Hbool Hnum Hstr Harr Hobj (snd kv)) (all f')
                 end) f)
  end.

(** The same on a target that is an object. *)
Definition config_merge (t : Obj.fields) (v : json) : json :=
  match v with
  | JObj _ => JObj (Config.deepMerge_json t v)
  | _ => v
  end.

(** A stand-in for [JSON.parse] on two texts, and small defaults, to run
    examples. *)
Definition tiny_config_parse (s : jsstring) : completion json :=
  if str_eqb s (js "null") then Returns JNull
  else if str_eqb s (js "llm: null") then Returns (JObj [(js "llm", JNull)])
  else Throws.

Definition tiny_defaults : Obj.fields :=
  [ (js "tts", JObj [(js "enabled", JBool true)]);
    (js "llm", JObj [(js "anthropic", JObj [(js "model", JStr (js "haiku"))]);
                     (js "openai", JObj [(js "model", JStr (js "mini"))])]) ].

(** ** Templates in pieces *)

(** The placeholders [renderTemplate] knows. *)
Inductive hole :=
| ProjectName | UserName | Activity | LastActivity | Count | AgentName | Description.

Definition hole_name (h : hole) : string :=
  match h with
  | ProjectName => "projectName"
  | UserName => "userName"
  | Activity => "activity"
  | LastActivity => "lastActivity"
  | Count => "count"
  | AgentName => "agentName"
  | Description => "description"
  end.

Definition hole_eqb (a b : hole) : bool :=
  match a, b with
  | ProjectName, ProjectName | UserName, UserName | Activity, Activity
  | LastActivity, LastActivity | Count, Count | AgentName, AgentName
  | Description, Description => true
  | _, _ => false
  end.

(** A template in pieces: text, and placeholders. *)
Inductive piece :=
| Text (t : jsstring)
| Hole (h : hole).

Definition written (p : piece) : jsstring :=
  match p with
  | Text t => t
  | Hole h => js ("{{" ++ hole_name h ++ "}}")
  end.

Definition template_of (l : list piece) : jsstring := flat_map written l.

(** What [renderTemplate] puts for a placeholder. *)
Definition value_of (vars : Templates.TemplateVars) (h : hole) : jsstring :=
  match h with
  | ProjectName => Templates.projectName vars
  | UserName => Templates.userName vars
  | Activity => Templates.or_empty (Templates.activity vars)
  | LastActivity => Templates.or_empty (Templates.lastActivity vars)
  | Count => String_of (match Templates.count vars with Some n => n | None => 0%Z end)
  | AgentName => Templates.or_empty (Templates.agentName vars)
  | Description => Templates.or_empty (Templates.description vars)
  end.

Definition filled (vars : Templates.TemplateVars) (p : piece) : jsstring :=
  match p with
  | Text t => t
  | Hole h => value_of vars h
  end.

(** One pass of [renderTemplate], on the pieces. *)
Definition fill_one (h : hole) (v : jsstring) (p : piece) : piece :=
  match p with
  | Hole h' => if hole_eqb h h' then Text v else p
  | Text _ => p
  end.

(** Text that holds neither an opening brace nor a dollar sign. *)
Definition braceless (s : jsstring) : bool :=
  forallb (fun c => negb (is_char "{" c) && negb (is_char "$" c)) s.

(** The text between the placeholders holds no opening brace. *)
Definition well_formed (p : piece) : bool :=
  match p with
  | Text t => forallb (fun c => negb (is_char "{" c)) t
  | Hole _ => true
  end.

(** The values of the string fields hold no opening brace and no dollar
    sign. *)
Definition plain_vars (vars : Templates.TemplateVars) : bool :=
  braceless (Templates.projectName vars)
  && braceless (Templates.userName vars)
  && braceless (Templates.or_empty (Templates.activity vars))
  && braceless (Templates.or_empty (Templates.lastActivity vars))
  && braceless (Templates.or_empty (Templates.agentName vars))
  && braceless (Templates.or_empty (Templates.description vars)).

(** The pattern of [h] clashes with every suffix of [q]. *)
Definition inert (h : hole) (q : jsstring) : bool :=
  forallb (fun k => clash (js ("{{" ++ hole_name h ++ "}}")) (skipn k q)) (seq 0 (length q)).

(** ** A transcript to run the parser on *)

(** A stand-in for [JSON.parse] on three lines, and for [path.basename] on
    strings without a slash. *)
Definition tiny_line_parse (s : jsstring) : completion json :=
  let tool_use name input :=
    JObj [(js "type", JStr (js "assistant"));
          (js "message",
           JObj [(js "content",
                  JArr [JObj [(js "type", JStr (js "tool_use"));
                              (js "name", JStr (js name)); (js "input", input)]])])] in
  if str_eqb s (js "bash") then
    Returns (tool_use "Bash"%string (JObj [(js "command", JStr (js "bun test"))]))
  else if str_eqb s (js "edit") then
    Returns (tool_use "Edit"%string (JObj [(js "file_path", JStr (js "config.ts"))]))
  else if str_eqb s (js "user") then Returns (JObj [(js "type", JStr (js "user"))])
  else Throws.

Definition tiny_basename (v : json) : completion jsstring :=
  match v with
  | JStr s => Returns s
  | _ => Throws
  end.

(** * Properties *)

(** ** Acquiring and releasing the lock, one caller alone *)

Section LockAlone.
Variable pid : Z.
Variable isPidAlive : Z -> bool.

Ltac run_io :=
  cbv [acquireLock releaseLock try_catch bind ret writeFileSync_wx readFileSync
       unlinkSync existsSync].

Lemma acquire_free :
  acquireLock pid isPidAlive None = (Ok true, Some (String_of pid), [EvCreate true]).
Proof. reflexivity. Qed.

Lemma acquire_stale_content content :
  stale isPidAlive content = true ->
  acquireLock pid isPidAlive (Some content)
  = (Ok true, Some (String_of pid),
     [EvCreate false; EvRead true; EvUnlink Stale; EvCreate true]).
Proof. intros H. run_io. rewrite H. reflexivity. Qed.

Lemma acquire_live_content content :
  stale isPidAlive content = false ->
  acquireLock pid isPidAlive (Some content)
  = (Ok false, Some content, [EvCreate false; EvRead true]).
Proof. intros H. run_io. rewrite H. reflexivity. Qed.

Lemma acquire_never_throws fs :
  exists b fs' evs, acquireLock pid isPidAlive fs = (Ok b, fs', evs).
Proof.
  destruct fs as [content|]; [|rewrite acquire_free; eauto].
  destruct (stale isPidAlive content) eqn:H.
  - rewrite (acquire_stale_content H). eauto.
  - rewrite (acquire_live_content H). eauto.
Qed.

Lemma release_result fs :
  releaseLock pid fs
  = match fs with
    | Some content =>
        if decide (parseInt (trim content) = Some pid)
        then (Ok tt, None, [EvExists; EvRead true; EvUnlink Release])
        else (Ok tt, fs, [EvExists; EvRead true])
    | None => (Ok tt, None, [EvExists])
    end.
Proof.
  destruct fs as [content|]; [|reflexivity].
  run_io. destruct (decide _); reflexivity.
Qed.
End LockAlone.

(** ** The step machine agrees with the synchronous functions

    Run alone, the steps of an [acquireLock] call and of a [releaseLock] call
    make the file-system calls of the functions above, with their results. *)

Section MachineAlone.
Variable cfg : config.
Variable urlHostname : jsstring -> option jsstring.
Variable isPidAlive : Z -> bool.
Variable self : Z.

Local Abbreviation solo := (run_solo cfg urlHostname isPidAlive).

Lemma with_lock_same w : with_lock w (lock w) = w.
Proof. destruct w; reflexivity. Qed.

Lemma acquire_steps s w text t0 ok b fs' evs :
  acquireLock self isPidAlive (lock w) = (Ok b, fs', evs) ->
  solo (length evs) self ok w (Proc (AcqCreate s) text t0)
  = (map LFs evs, with_lock w fs', Proc (if b then acquired s else not_acquired s) text t0).
Proof.
  destruct w as [[content|] clock]; cbn [lock].
  - destruct (stale isPidAlive content) eqn:H.
    + rewrite (acquire_stale_content self H). intros [= <- <- <-].
      cbn. rewrite H. reflexivity.
    + rewrite (acquire_live_content self H). intros [= <- <- <-].
      cbn. rewrite H. reflexivity.
  - rewrite acquire_free. intros [= <- <- <-]. reflexivity.
Qed.

Lemma release_steps w text t0 ok r fs' evs :
  releaseLock self (lock w) = (Ok tt, fs', evs) ->
  solo (length evs) self ok w (Proc (RelExists r) text t0)
  = (map LFs evs, with_lock w fs', Proc (Done r) text t0).
Proof.
  rewrite release_result.
  destruct w as [[content|] clock]; cbn [lock].
  - destruct (decide _) as [E|E]; intros [= <- <-]; cbn;
      destruct (decide _); try contradiction; reflexivity.
  - intros [= <- <-]. reflexivity.
Qed.
End MachineAlone.

(** ** Stale locks (claims C3 and C10) and release (claim C4) *)

(** C3: when the lock file exists and names a process that is not alive, one
    [acquireLock] call deletes the file and retries the atomic creation once;
    with no other process in between the retry succeeds, so the caller holds
    the lock after its first attempt: it neither checks the elapsed time nor
    sleeps. *)
Theorem stale_lock_recovery cfg urlHostname isPidAlive pid content holder text t0 clock ok :
  parseInt (trim content) = Some holder ->
  isPidAlive holder = false ->
  queue_enabled cfg = true ->
  acquireLock pid isPidAlive (Some content)
  = (Ok true, Some (String_of pid),
     [EvCreate false; EvRead true; EvUnlink Stale; EvCreate true])
  /\ run_solo cfg urlHostname isPidAlive 5 pid ok
       (World (Some content) clock) (Proc Start text t0)
     = ([LInit; LFs (EvCreate false); LFs (EvRead true); LFs (EvUnlink Stale);
         LFs (EvCreate true)],
        World (Some (String_of pid)) clock, Proc SpeakHeld text clock).
Proof.
  intros Hparse Hdead Hq.
  assert (Hs : stale isPidAlive content = true)
    by (unfold stale; rewrite Hparse, Hdead; reflexivity).
  split; [apply acquire_stale_content, Hs|].
  cbn. rewrite Hq. cbn. rewrite Hs. reflexivity.
Qed.

Lemma stale_lock_recovery_witness :
  acquireLock 42 (fun _ => false) (Some (js "17"))
  = (Ok true, Some (js "42"),
     [EvCreate false; EvRead true; EvUnlink Stale; EvCreate true])
  /\ run_solo (Config true 30000) plainHostname (fun _ => false) 5 42 true
       (World (Some (js "17")) 1000) (Proc Start (js "done") 0)
     = ([LInit; LFs (EvCreate false); LFs (EvRead true); LFs (EvUnlink Stale);
         LFs (EvCreate true)],
        World (Some (js "42")) 1000, Proc SpeakHeld (js "done") 1000).
Proof.
  apply (@stale_lock_recovery (Config true 30000) plainHostname (fun _ => false) 42%Z
           (js "17") 17%Z (js "done") 0%Z 1000%Z true); reflexivity.
Defined.

(** C10: when the content of the lock file does not parse as an integer, no
    process can be probed and the lock counts as stale whatever processes are
    alive: [acquireLock] deletes the file and retries the creation once, as
    for a dead holder. *)
Theorem unparsable_lock_is_stale isPidAlive pid content :
  parseInt (trim content) = None ->
  stale isPidAlive content = true
  /\ acquireLock pid isPidAlive (Some content)
     = (Ok true, Some (String_of pid),
        [EvCreate false; EvRead true; EvUnlink Stale; EvCreate true]).
Proof.
  intros Hparse.
  assert (Hs : stale isPidAlive content = true) by (unfold stale; rewrite Hparse; reflexivity).
  split; [exact Hs | apply acquire_stale_content, Hs].
Qed.

Lemma unparsable_lock_is_stale_witness :
  stale (fun _ => true) (js "not a pid") = true
  /\ acquireLock 42 (fun _ => true) (Some (js "not a pid"))
     = (Ok true, Some (js "42"),
        [EvCreate false; EvRead true; EvUnlink Stale; EvCreate true]).
Proof.
  apply (@unparsable_lock_is_stale (fun _ => true) 42%Z (js "not a pid")). reflexivity.
Defined.

(** C4: [releaseLock] deletes the lock file when it names the caller; when it
    names another process or is missing, the file is left as it is; and the
    call never throws. *)
Theorem release_only_own_lock pid fs :
  (names fs pid -> snd (fst (releaseLock pid fs)) = None)
  /\ (forall other, names fs other -> other <> pid -> snd (fst (releaseLock pid fs)) = fs)
  /\ (fs = None -> snd (fst (releaseLock pid fs)) = fs)
  /\ fst (fst (releaseLock pid fs)) = Ok tt.
Proof.
  rewrite release_result.
  repeat split.
  - intros (content & -> & Hp). destruct (decide _); [reflexivity|contradiction].
  - intros other (content & -> & Hp) Hne.
    destruct (decide _) as [E|E]; [congruence|reflexivity].
  - intros ->. reflexivity.
  - destruct fs as [content|]; [destruct (decide _)|]; reflexivity.
Qed.

Lemma release_only_own_lock_witness :
  snd (fst (releaseLock 42 (Some (js "42")))) = None
  /\ snd (fst (releaseLock 42 (Some (js "17")))) = Some (js "17")
  /\ snd (fst (releaseLock 42 None)) = None
  /\ fst (fst (releaseLock 42 (Some (js "17")))) = Ok tt.
Proof.
  split; [|split; [|split]].
  - apply (proj1 (release_only_own_lock 42 (Some (js "42")))).
    exists (js "42"). split; reflexivity.
  - apply (proj1 (proj2 (release_only_own_lock 42 (Some (js "17")))) 17%Z).
    + exists (js "17"). split; reflexivity.
    + discriminate.
  - apply (proj1 (proj2 (proj2 (release_only_own_lock 42 None)))). reflexivity.
  - apply (proj2 (proj2 (proj2 (release_only_own_lock 42 (Some (js "17")))))).
Defined.

(** ** One caller against any interference (claims C5 and C2) *)

Ltac machine :=
  repeat (progress (cbn [run_env pstep p_pc p_text p_start lock now fst snd app];
                    try unfold at_pc; try unfold normalized; try unfold with_lock;
                    try unfold acquired; try unfold not_acquired)).

Section AgainstEnvironment.
Variable cfg : config.
Variable urlHostname : jsstring -> option jsstring.
Variable isPidAlive : Z -> bool.
Variable self : Z.

Local Abbreviation run := (run_env cfg urlHostname isPidAlive self).

Lemma run_env_done env r text t0 :
  run env (Proc (Done r) text t0) = ([], Proc (Done r) text t0).
Proof.
  induction env as [|[w ok] env IH]; [reflexivity|]. machine. exact IH.
Qed.

Lemma run_env_speak_direct w ok env text t0 :
  run ((w, ok) :: env) (Proc SpeakDirect text t0)
  = ([LSpeak (normalizeTTSText urlHostname text) false ok], Proc (Done ok) text t0).
Proof. machine. rewrite run_env_done. reflexivity. Qed.

Lemma run_env_release env c text t0 :
  match c with RelExists _ | RelRead _ | RelUnlink _ => True | _ => False end ->
  forallb release_label (fst (run env (Proc c text t0))) = true.
Proof.
  revert c.
  induction env as [|[w ok] env IH]; intros c Hc; [reflexivity|].
  destruct c; try contradiction; machine.
  - destruct (lock w).
    + specialize (IH (RelRead ok0) I). destruct (run env _). exact IH.
    + rewrite run_env_done. reflexivity.
  - destruct (lock w) as [content|].
    + destruct (decide _).
      * specialize (IH (RelUnlink ok0) I). destruct (run env _). exact IH.
      * rewrite run_env_done. reflexivity.
    + rewrite run_env_done. reflexivity.
  - rewrite run_env_done. reflexivity.
Qed.

Lemma run_env_speak_held w ok env text t0 :
  exists tail q,
    run ((w, ok) :: env) (Proc SpeakHeld text t0)
    = (LSpeak (normalizeTTSText urlHostname text) true ok :: tail, q)
    /\ forallb release_label tail = true.
Proof.
  machine.
  pose proof (@run_env_release env (RelExists ok) text t0 I) as H.
  destruct (run env _) as [tail q]. eauto.
Qed.
End AgainstEnvironment.

(** C5: with the queue disabled, [speakWithLock] calls [provider.speak] on
    the normalised text and makes no call on the lock file, whatever the
    other processes do: its whole trace is the set-up and the one [speak]. *)
Theorem disabled_queue_speaks_directly cfg urlHostname isPidAlive self text t0 env :
  queue_enabled cfg = false ->
  forallb (fun l => negb (touches_lock l))
          (fst (run_env cfg urlHostname isPidAlive self env (Proc Start text t0))) = true
  /\ forall w1 ok1 w2 ok2 env',
       env = (w1, ok1) :: (w2, ok2) :: env' ->
       run_env cfg urlHostname isPidAlive self env (Proc Start text t0)
       = ([LInit; LSpeak (normalizeTTSText urlHostname text) false ok2],
          Proc (Done ok2) text t0).
Proof.
  intros Hq.
  assert (Hrun : forall w1 ok1 w2 ok2 env',
             run_env cfg urlHostname isPidAlive self ((w1, ok1) :: (w2, ok2) :: env')
                     (Proc Start text t0)
             = ([LInit; LSpeak (normalizeTTSText urlHostname text) false ok2],
                Proc (Done ok2) text t0)).
  { intros. machine. rewrite Hq. machine. rewrite run_env_done. reflexivity. }
  split.
  - destruct env as [|[w1 ok1] [|[w2 ok2] env']].
    + reflexivity.
    + machine. rewrite Hq. reflexivity.
    + rewrite Hrun. reflexivity.
  - intros w1 ok1 w2 ok2 env' ->. apply Hrun.
Qed.

Lemma disabled_queue_speaks_directly_witness :
  run_env (Config false 30000) plainHostname (fun _ => true) 42
          [(World (Some (js "17")) 0, true); (World None 5, false)]
          (Proc Start (js "see /a/b/c.ts") 0)
  = ([LInit; LSpeak (js "see c.ts") false false], Proc (Done false) (js "see /a/b/c.ts") 0).
Proof.
  apply (proj2 (@disabled_queue_speaks_directly (Config false 30000) plainHostname
                  (fun _ => true) 42%Z (js "see /a/b/c.ts") 0%Z
                  [(World (Some (js "17")) 0, true); (World None 5, false)] eq_refl)
               (World (Some (js "17")) 0) true (World None 5) false []).
  reflexivity.
Defined.



(** ** The activity log (claim C9) *)

(** C9: when the existing log does not parse, or parses to something that is
    not an array, [appendToJsonLog] does not throw: it starts from an empty
    collection and writes the array of the one new entry; so does
    [logTTSActivity], which calls it with the full entry. *)
Theorem corrupt_log_starts_fresh JSON_parse JSON_stringify raw entry id timestamp fields :
  (JSON_parse raw = Throws
   \/ exists v, JSON_parse raw = Returns v /\ is_array v = false) ->
  appendToJsonLog JSON_parse JSON_stringify (Some raw) entry
  = (Returns tt, Some (JSON_stringify (JArr [entry])))
  /\ logTTSActivity JSON_parse JSON_stringify id timestamp fields (Some raw)
     = (Returns tt,
        Some (JSON_stringify
                (JArr [JObj ((js "id", JStr id) :: (js "timestamp", JStr timestamp) :: fields)]))).
Proof.
  intros Hcorrupt.
  assert (Hread : read_log JSON_parse (Some raw) = []).
  { unfold read_log. destruct Hcorrupt as [-> | (v & -> & Hv)]; [reflexivity|].
    destruct v; try reflexivity. discriminate. }
  unfold logTTSActivity, appendToJsonLog. rewrite Hread. split; reflexivity.
Qed.

Lemma corrupt_log_starts_fresh_witness :
  let entry := JObj [(js "hookType", JStr (js "stop")); (js "success", JBool true)] in
  tiny_parse (js "{oops") = Throws
  /\ appendToJsonLog tiny_parse tiny_stringify (Some (js "{oops")) entry
     = (Returns tt, Some (tiny_stringify (JArr [entry])))
  /\ logTTSActivity tiny_parse tiny_stringify (js "1-stop-ab12") (js "2026")
       [(js "hookType", JStr (js "stop"))] (Some (js "{oops"))
     = (Returns tt,
        Some (tiny_stringify
                (JArr [JObj [(js "id", JStr (js "1-stop-ab12"));
                             (js "timestamp", JStr (js "2026"));
                             (js "hookType", JStr (js "stop"))]]))).
Proof.
  split; [reflexivity|].
  apply (@corrupt_log_starts_fresh tiny_parse tiny_stringify (js "{oops")
           (JObj [(js "hookType", JStr (js "stop")); (js "success", JBool true)])
           (js "1-stop-ab12") (js "2026") [(js "hookType", JStr (js "stop"))]).
  left. reflexivity.
Defined.

(** A log that is an array is kept, and the entry goes after its entries. *)
Lemma intact_log_appends JSON_parse JSON_stringify raw parsed entry :
  JSON_parse raw = Returns (JArr parsed) ->
  appendToJsonLog JSON_parse JSON_stringify (Some raw) entry
  = (Returns tt, Some (JSON_stringify (JArr (parsed ++ [entry])))).
Proof. intros H. unfold appendToJsonLog, read_log. rewrite H. reflexivity. Qed.

(** With no log file the entry is the first. *)
Lemma missing_log_starts_fresh JSON_parse JSON_stringify entry :
  appendToJsonLog JSON_parse JSON_stringify None entry
  = (Returns tt, Some (JSON_stringify (JArr [entry]))).
Proof. reflexivity. Qed.

(** The file written over a corrupt log can be appended to: where
    [JSON.parse] reads back the arrays [JSON.stringify] writes, the next call
    adds its entry after the first. *)
Lemma fresh_log_can_be_appended JSON_parse JSON_stringify raw entry entry' :
  (forall l, JSON_parse (JSON_stringify (JArr l)) = Returns (JArr l)) ->
  JSON_parse raw = Throws ->
  snd (appendToJsonLog JSON_parse JSON_stringify
         (snd (appendToJsonLog JSON_parse JSON_stringify (Some raw) entry)) entry')
  = Some (JSON_stringify (JArr [entry; entry'])).
Proof.
  intros Hround Hraw.
  assert (Hfirst : snd (appendToJsonLog JSON_parse JSON_stringify (Some raw) entry)
                   = Some (JSON_stringify (JArr [entry]))).
  { unfold appendToJsonLog, read_log. rewrite Hraw. reflexivity. }
  rewrite Hfirst. unfold appendToJsonLog, read_log. rewrite Hround. reflexivity.
Qed.

(** ** The resolver (claim C7) *)


(** C7 fails on the code for a priority list with the name of a member of
    [Object.prototype]: on macOS, where the native backend is registered and
    available, [resolveTTSProvider] throws a TypeError on ["constructor";
    "native"] instead of skipping the unknown name and returning the native
    backend, while ["nope"; "native"] resolves to it. *)
Theorem resolve_inherited_name_throws :
  let macos := Environment true false false false false false in
  resolveTTSProvider macos [js "constructor"; js "native"] = None
  /\ first_available PROVIDERS macos [js "constructor"; js "native"] = Some Native
  /\ resolveTTSProvider macos [js "nope"; js "native"] = Some (Some Native).
Proof. vm_compute. repeat split. Qed.

(** ** The backends (claim C6) *)

(** The native backend and the backends that play through [playAudioFile]
    report every failure: nothing played means a rejected promise. *)
Lemma native_never_swallows say : swallowed (native_speak say) = false.
Proof. destruct say as [code|]; cbn; [destruct (code =? 0)%Z|]; reflexivity. Qed.



(** C6 fails on the code for the ElevenLabs backend.  On macOS, with a good
    response, a player that exits with code 1 leaves the promise resolved:
    the exit code of [afplay] is never read.  Off macOS, where the native
    backend is not available, a server error (or any other failure) ends in
    the [catch] block, which then does nothing: the promise resolves and
    nothing was played. *)
Theorem elevenlabs_swallows_failures :
  elevenlabs_speak Darwin (Response true 200 []) true (Some 1%Z) None None
  = Result Resolved false
  /\ elevenlabs_speak Linux (Response false 500 (js "server error")) true None None None
     = Result Resolved false
  /\ elevenlabs_speak Linux FetchRejects true None None None = Result Resolved false.
Proof. vm_compute. repeat split. Qed.

(** ** Process identifiers as text

    [parseInt] reads back what [String] wrote. *)

Lemma digits_prefix_chars u : digits_prefix (uint_chars u) = u.
Proof.
  induction u; cbn [uint_chars digits_prefix]; [reflexivity|..];
    rewrite IHu; reflexivity.
Qed.

Lemma uint_chars_no_ws u : no_ws (uint_chars u) = true.
Proof.
  induction u; [reflexivity|..]; unfold no_ws in *; cbn [uint_chars forallb];
    rewrite IHu; reflexivity.
Qed.

Lemma trim_start_no_ws s : no_ws s = true -> trim_start s = s.
Proof.
  destruct s as [|c t]; [reflexivity|]. unfold no_ws. cbn [forallb trim_start].
  destruct (is_ws c); [discriminate|reflexivity].
Qed.

Lemma no_ws_rev s : no_ws s = true -> no_ws (rev s) = true.
Proof.
  unfold no_ws. rewrite !forallb_forall. intros H c Hc. apply H, in_rev, Hc.
Qed.

Lemma trim_no_ws s : no_ws s = true -> trim s = s.
Proof.
  intros H. unfold trim. rewrite (trim_start_no_ws H).
  rewrite (trim_start_no_ws (no_ws_rev H)). apply rev_involutive.
Qed.

Lemma uint_chars_head u :
  u <> Decimal.Nil ->
  exists c t, uint_chars u = c :: t /\ (c =? ch "-")%N = false /\ (c =? ch "+")%N = false.
Proof.
  destruct u; [congruence|..]; intros _; cbn [uint_chars];
    eexists _, _; (split; [reflexivity|split; reflexivity]).
Qed.

Lemma parseInt_digits u :
  u <> Decimal.Nil -> parseInt (uint_chars u) = Some (Z.of_N (N.of_uint u)).
Proof.
  intros Hu. unfold parseInt. rewrite (trim_start_no_ws (uint_chars_no_ws u)).
  destruct (uint_chars_head Hu) as (c & t & E & Hm & Hp).
  rewrite E, Hm, Hp, <- E, digits_prefix_chars.
  destruct u; congruence.
Qed.

Lemma parseInt_String_of n : parseInt (trim (String_of n)) = Some n.
Proof.
  destruct n as [|p|p]; cbn [String_of Z.to_N].
  - reflexivity.
  - rewrite (trim_no_ws (uint_chars_no_ws _)).
    rewrite parseInt_digits by apply DecimalPos.Unsigned.to_uint_nonnil.
    change (N.of_uint (N.to_uint (N.pos p))) with (N.of_uint (N.to_uint (Npos p))).
    rewrite DecimalN.Unsigned.of_to. reflexivity.
  - assert (Hn : no_ws (ch "-" :: uint_chars (Pos.to_uint p)) = true)
      by (unfold no_ws; cbn [forallb]; apply (uint_chars_no_ws (Pos.to_uint p))).
    rewrite (trim_no_ws Hn). unfold parseInt. rewrite (trim_start_no_ws Hn).
    replace (ch "-" =? ch "-")%N with true by reflexivity.
    rewrite digits_prefix_chars.
    pose proof (DecimalPos.Unsigned.to_uint_nonnil p) as Hnil.
    pose proof (DecimalPos.Unsigned.of_to p) as Hof.
    remember (Pos.to_uint p) as u eqn:Eu. clear Eu.
    destruct u; [congruence|..]; unfold N.of_uint; rewrite Hof; reflexivity.
Qed.



(** ** Mutual exclusion (claim C1) *)

Section Mutex.
Variable cfg : config.
Variable urlHostname : jsstring -> option jsstring.
Variable isPidAlive : Z -> bool.

Local Abbreviation step := (pstep cfg urlHostname isPidAlive).
Local Abbreviation gstep' := (gstep cfg urlHostname isPidAlive).
Local Abbreviation exec' := (exec cfg urlHostname isPidAlive).








End Mutex.


(** The same without any time-out: the deletion after a failed read removes
    the lock of a holder that is alive. *)
Lemma two_holders_after_unreadable_lock :
  exists labels g,
    exec (Config true 30000) plainHostname (fun _ => true) three_callers unreadable_schedule
    = Some (labels, g)
    /\ now (g_world g) = 200%Z /\ holds g 2 /\ holds g 3.
Proof.
  eexists _, _. split; [vm_compute; reflexivity|]. split; [reflexivity|].
  split; eexists; (split; [vm_compute; reflexivity | reflexivity]).
Qed.


Lemma initial_two_callers : initial two_callers.
Proof.
  split; [reflexivity|]. intros i p. unfold two_callers. cbn [g_procs].
  destruct (decide (i = 1%Z)) as [->|H1];
    [rewrite lookup_insert_eq; intros [= <-]; reflexivity|].
  rewrite lookup_insert_ne by congruence.
  destruct (decide (i = 2%Z)) as [->|H2];
    [rewrite lookup_insert_eq; intros [= <-]; reflexivity|].
  rewrite lookup_insert_ne by congruence. rewrite lookup_empty. discriminate.
Qed.


(** ** Idempotence of the normaliser (claim C8) *)

(** *** What every match consumes

    For a property [P] of code units and a test [sub] on classes that
    singles out classes whose members all satisfy [P]: a match consumes a
    prefix of the input with at least [min_occ] code units satisfying [P],
    and only such code units when every class of the pattern passes [sub]. *)

Lemma count_if_app P a b : count_if P (a ++ b) = (count_if P a + count_if P b)%nat.
Proof. unfold count_if. rewrite List.filter_app, length_app. reflexivity. Qed.

Section MatchFacts.
Variable icase : bool.
Variable P : N -> bool.
Variable sub : cls -> bool.
Hypothesis sub_sound : forall k c, sub k = true -> in_cls icase k c = true -> P c = true.

Fixpoint min_occ (r : re) : nat :=
  match r with
  | RChar k => if sub k then 1 else 0
  | RSeq a b => min_occ a + min_occ b
  | RAlt a b => Nat.min (min_occ a) (min_occ b)
  | RRep lo _ a => lo * min_occ a
  | _ => 0
  end.

Fixpoint only (r : re) : bool :=
  match r with
  | RChar k => sub k
  | RSeq a b | RAlt a b => only a && only b
  | RRep _ _ a => only a
  | _ => true
  end.

Definition consumed_ok (n : nat) (all : bool) (st st' : mstate) : Prop :=
  exists consumed,
    snd st = consumed ++ snd st'
    /\ (n <= count_if P consumed)%nat
    /\ (all = true -> forallb P consumed = true).

Lemma consumed_ok_refl all st : consumed_ok 0 all st st.
Proof. exists []. repeat split; auto. Qed.

Lemma consumed_ok_trans n1 n2 a1 a2 st1 st2 st3 :
  consumed_ok n1 a1 st1 st2 -> consumed_ok n2 a2 st2 st3 ->
  consumed_ok (n1 + n2) (a1 && a2) st1 st3.
Proof.
  intros (c1 & E1 & N1 & A1) (c2 & E2 & N2 & A2).
  exists (c1 ++ c2). split; [rewrite E1, E2, app_assoc; reflexivity|].
  split; [rewrite count_if_app; lia|].
  intros H. apply andb_true_iff in H. rewrite forallb_app, A1, A2; tauto.
Qed.

Lemma consumed_ok_weaken n n' a a' st st' :
  (n' <= n)%nat -> (a' = true -> a = true) ->
  consumed_ok n a st st' -> consumed_ok n' a' st st'.
Proof. intros Hn Ha (c & E & N0 & A). exists c. repeat split; auto; lia. Qed.

Lemma rep_sound step k all :
  (forall st st', In st' (step st) -> consumed_ok k all st st') ->
  forall fuel lo hi st st',
    In st' (rep step fuel lo hi st) -> consumed_ok (lo * k) all st st'.
Proof.
  intros Hstep. induction fuel as [|fuel IH]; intros lo hi st st'; cbn [rep].
  - destruct (Nat.eqb_spec lo 0) as [->|]; [|contradiction].
    intros [<-|[]]. apply consumed_ok_refl.
  - rewrite in_app_iff. intros [H|H].
    + destruct (more hi); [|contradiction].
      apply in_flat_map in H. destruct H as (x & Hx & H).
      destruct (Nat.ltb _ _); [|contradiction].
      apply Hstep in Hx. apply IH in H.
      eapply consumed_ok_weaken; [| |exact (consumed_ok_trans Hx H)].
      * destruct lo; cbn; lia.
      * intros ->. reflexivity.
    + destruct (Nat.eqb_spec lo 0) as [->|]; [|contradiction].
      destruct H as [<-|[]]. apply consumed_ok_refl.
Qed.

Lemma m_sound r : forall st st',
  In st' (m icase r st) -> consumed_ok (min_occ r) (only r) st st'.
Proof.
  induction r as [k|a IHa b IHb|a IHa b IHb|lo hi a IHa| | | |]; intros st st';
    cbn [m min_occ only].
  - destruct st as [prev [|c t]]; cbn [snd]; [contradiction|].
    destruct (in_cls icase k c) eqn:Hk; [|contradiction].
    intros [<-|[]]. exists [c]. cbn [snd app]. split; [reflexivity|].
    unfold count_if. cbn [List.filter forallb].
    destruct (sub k) eqn:Hs.
    + rewrite (sub_sound Hs Hk). cbn. split; [lia|reflexivity].
    + split; [lia|discriminate].
  - intros H. apply in_flat_map in H. destruct H as (x & Hx & H).
    exact (consumed_ok_trans (IHa _ _ Hx) (IHb _ _ H)).
  - rewrite in_app_iff. intros [H|H]; [apply IHa in H|apply IHb in H];
      (eapply consumed_ok_weaken; [| |exact H]); try lia;
      intros E; apply andb_true_iff in E; tauto.
  - intros H. exact (rep_sound IHa H).
  - destruct (xorb _ _); [|contradiction]. intros [<-|[]]. apply consumed_ok_refl.
  - destruct (fst st); [destruct (in_cls icase k n); [contradiction|]|];
      intros [<-|[]]; apply consumed_ok_refl.
  - destruct (fst st); [contradiction|]. intros [<-|[]]. apply consumed_ok_refl.
  - destruct (snd st); [|contradiction]. intros [<-|[]]. apply consumed_ok_refl.
Qed.
End MatchFacts.

(** *** Replacing where nothing matches *)

Lemma is_suffix_refl s : is_suffix s s.
Proof. exists []. reflexivity. Qed.

Lemma is_suffix_tail suf c s : is_suffix suf s -> is_suffix suf (c :: s).
Proof. intros [pre ->]. exists (c :: pre). reflexivity. Qed.

Lemma replace_from_no_match icase r f : forall fuel prev s,
  (forall prev' suf, is_suffix suf s -> m icase r (prev', suf) = []) ->
  replace_from icase fuel r f prev s = s.
Proof.
  induction fuel as [|fuel IH]; intros prev s H; [reflexivity|].
  cbn [replace_from]. unfold match_here. rewrite (H prev s (is_suffix_refl s)).
  destruct s as [|c t]; [reflexivity|]. f_equal. apply IH.
  intros prev' suf Hs. apply H, is_suffix_tail, Hs.
Qed.

Lemma replace_all_no_match icase r f s :
  (forall prev suf, is_suffix suf s -> m icase r (prev, suf) = []) ->
  replace_all icase r f s = s.
Proof. apply replace_from_no_match. Qed.

(** *** Text in simplified form *)

Lemma just_sound a k c : just a k = true -> in_cls false k c = true -> is_char a c = true.
Proof.
  unfold just. destruct (decide _) as [->|]; [|discriminate]. intros _.
  unfold in_cls, in_ranges, is_char, one. cbn [cls_neg cls_ranges existsb fst snd xorb].
  rewrite orb_false_r, andb_true_iff, !N.leb_le, N.eqb_eq. lia.
Qed.

Lemma just_hex_sound k c : just_hex k = true -> in_cls true k c = true -> is_hex c = true.
Proof. unfold just_hex. destruct (decide _) as [->|]; [|discriminate]. auto. Qed.

Lemma count_if_suffix P suf s : is_suffix suf s -> (count_if P suf <= count_if P s)%nat.
Proof. intros [pre ->]. rewrite count_if_app. lia. Qed.

Lemma count_if_length P s : (count_if P s <= length s)%nat.
Proof. unfold count_if. apply List.filter_length_le. Qed.

(** A pattern that needs [n] characters [a] matches nowhere in a text with
    fewer of them. *)
Lemma no_match_by_count a r n t :
  (n <= min_occ (just a) r)%nat ->
  (count_if (is_char a) t < n)%nat ->
  forall prev suf, is_suffix suf t -> m false r (prev, suf) = [].
Proof.
  intros Hn Hc prev suf Hs.
  destruct (m false r (prev, suf)) as [|st' l] eqn:E; [reflexivity|exfalso].
  assert (Hin : In st' (m false r (prev, suf))) by (rewrite E; left; reflexivity).
  destruct (m_sound (@just_sound a) Hin) as (consumed & Es & Hcount & _).
  cbn [snd] in Es. apply (count_if_suffix (is_char a)) in Hs.
  rewrite Es, count_if_app in Hs. lia.
Qed.

Lemma run_len_prefix P consumed rest :
  forallb P consumed = true -> (length consumed <= run_len P (consumed ++ rest))%nat.
Proof.
  induction consumed as [|c t IH]; cbn [forallb app run_len length]; [lia|].
  intros H. apply andb_true_iff in H. destruct H as [-> H]. apply IH in H. lia.
Qed.

Lemma run_len_max_run P s : (run_len P s <= max_run P s)%nat.
Proof. destruct s; cbn [max_run]; [cbn|]; lia. Qed.

Lemma max_run_suffix P suf s : is_suffix suf s -> (run_len P suf <= max_run P s)%nat.
Proof.
  intros [pre ->]. induction pre as [|c pre IH]; [apply run_len_max_run|].
  cbn [app max_run]. lia.
Qed.

Lemma no_hex_match t :
  (max_run is_hex t < 8)%nat ->
  forall prev suf, is_suffix suf t -> m true re_hex (prev, suf) = [].
Proof.
  intros Hrun prev suf Hs.
  destruct (m true re_hex (prev, suf)) as [|st' l] eqn:E; [reflexivity|exfalso].
  assert (Hin : In st' (m true re_hex (prev, suf))) by (rewrite E; left; reflexivity).
  destruct (m_sound just_hex_sound Hin) as (consumed & Es & Hcount & Hall).
  cbn [snd] in Es. specialize (Hall eq_refl).
  change (min_occ just_hex re_hex) with 8%nat in Hcount.
  pose proof (count_if_length is_hex consumed).
  pose proof (run_len_prefix (snd st') Hall) as Hp. rewrite <- Es in Hp.
  pose proof (max_run_suffix is_hex Hs). lia.
Qed.

Lemma double_space_suffix c1 c2 rest t :
  is_suffix (c1 :: c2 :: rest) t -> is_char " " c1 = true -> is_char " " c2 = true ->
  double_space t = true.
Proof.
  intros [pre ->] H1 H2. induction pre as [|c pre IH].
  - cbn. rewrite H1, H2. reflexivity.
  - cbn [app double_space]. destruct (pre ++ c1 :: c2 :: rest) eqn:E.
    + destruct pre; discriminate.
    + rewrite IH. apply orb_true_r.
Qed.

Lemma no_spaces_match t :
  double_space t = false ->
  forall prev suf, is_suffix suf t -> m false re_spaces (prev, suf) = [].
Proof.
  intros Hd prev suf Hs.
  destruct (m false re_spaces (prev, suf)) as [|st' l] eqn:E; [reflexivity|exfalso].
  assert (Hin : In st' (m false re_spaces (prev, suf))) by (rewrite E; left; reflexivity).
  destruct (m_sound (@just_sound " ") Hin) as (consumed & Es & Hcount & Hall).
  cbn [snd] in Es. specialize (Hall eq_refl).
  change (min_occ (just " ") re_spaces) with 2%nat in Hcount.
  pose proof (count_if_length (is_char " ") consumed).
  destruct consumed as [|c1 [|c2 consumed]]; cbn [length] in *; try lia.
  cbn [forallb] in Hall. apply andb_true_iff in Hall. destruct Hall as [H1 Hall].
  apply andb_true_iff in Hall. destruct Hall as [H2 _].
  rewrite Es in Hs. cbn [app] in Hs.
  rewrite (double_space_suffix Hs H1 H2) in Hd. discriminate.
Qed.

Lemma trim_start_id s : starts_ws s = false -> trim_start s = s.
Proof. destruct s as [|c t]; [reflexivity|]. cbn. intros ->. reflexivity. Qed.

Lemma trim_id s : starts_ws s = false -> starts_ws (rev s) = false -> trim s = s.
Proof.
  intros H1 H2. unfold trim. rewrite (trim_start_id H1), (trim_start_id H2).
  apply rev_involutive.
Qed.

(** Each step leaves alone a text that lacks what its pattern needs. *)
Lemma step_urls_id urlHostname t :
  count_if (is_char ":") t = 0%nat -> step_urls urlHostname t = t.
Proof.
  intros H. apply replace_all_no_match.
  apply (@no_match_by_count ":" re_url 1 t); [vm_compute; lia | lia].
Qed.

Lemma step_abs_paths_id t :
  (count_if (is_char "/") t < 3)%nat -> step_abs_paths t = t.
Proof.
  intros H. apply replace_all_no_match.
  apply (@no_match_by_count "/" re_abs 3 t); [vm_compute; lia | lia].
Qed.

Lemma step_rel_paths_id t :
  (count_if (is_char "/") t < 2)%nat -> step_rel_paths t = t.
Proof.
  intros H. apply replace_all_no_match.
  apply (@no_match_by_count "/" re_rel 2 t); [vm_compute; lia | lia].
Qed.

Lemma step_hex_id t : (max_run is_hex t < 8)%nat -> step_hex t = t.
Proof. intros H. apply replace_all_no_match, no_hex_match, H. Qed.

Lemma step_dotted_id t :
  (count_if (is_char ".") t < 3)%nat -> step_dotted t = t.
Proof.
  intros H. apply replace_all_no_match.
  apply (@no_match_by_count "." re_dotted 3 t); [vm_compute; lia | lia].
Qed.

Lemma step_spaces_id t :
  double_space t = false -> starts_ws t = false -> starts_ws (rev t) = false ->
  step_spaces t = t.
Proof.
  intros Hsp H1 H2. unfold step_spaces.
  rewrite (replace_all_no_match _ (no_spaces_match Hsp)). apply trim_id; assumption.
Qed.

Lemma simplified_parts t :
  simplified t = true ->
  count_if (is_char ":") t = 0%nat
  /\ (count_if (is_char "/") t < 2)%nat
  /\ (count_if (is_char ".") t < 3)%nat
  /\ (max_run is_hex t < 8)%nat
  /\ double_space t = false
  /\ starts_ws t = false
  /\ starts_ws (rev t) = false.
Proof.
  unfold simplified. rewrite !andb_true_iff, !negb_true_iff, Nat.eqb_eq, !Nat.ltb_lt.
  tauto.
Qed.

Lemma simplified_of_parts t :
  count_if (is_char ":") t = 0%nat ->
  (count_if (is_char "/") t < 2)%nat ->
  (count_if (is_char ".") t < 3)%nat ->
  (max_run is_hex t < 8)%nat ->
  double_space t = false ->
  starts_ws t = false ->
  starts_ws (rev t) = false ->
  simplified t = true.
Proof.
  unfold simplified. rewrite !andb_true_iff, !negb_true_iff, Nat.eqb_eq, !Nat.ltb_lt.
  tauto.
Qed.

Lemma normalize_steps urlHostname s :
  normalizeTTSText urlHostname s = after_urls (step_urls urlHostname s).
Proof. reflexivity. Qed.

Lemma after_urls_simplified t : simplified t = true -> after_urls t = t.
Proof.
  intros H. apply simplified_parts in H.
  destruct H as (Hcolon & Hslash & Hdot & Hhex & Hsp & Hws1 & Hws2).
  unfold after_urls.
  rewrite step_abs_paths_id by lia. rewrite step_rel_paths_id by lia.
  rewrite step_hex_id by lia. rewrite step_dotted_id by lia.
  apply step_spaces_id; assumption.
Qed.


Example normalize_sample_url :
  normalizeTTSText plainHostname sample_url = js "api dot example dot com".
Proof. vm_compute. reflexivity. Qed.

Example normalize_sample_path urlHostname :
  normalizeTTSText urlHostname sample_path = js "config.ts".
Proof. vm_compute. reflexivity. Qed.

Example normalize_sample_hex urlHostname :
  normalizeTTSText urlHostname sample_hex = js "hash a1b2c3".
Proof. vm_compute. reflexivity. Qed.

Example normalize_sample_dotted urlHostname :
  normalizeTTSText urlHostname sample_dotted = js "BarService".
Proof. vm_compute. reflexivity. Qed.

Example normalize_sentence :
  normalizeTTSText plainHostname
    (js "Edited  /Users/jeff/dev/hooks/lib/config.ts at deadbeef12345678, see https://www.example.com/docs ")
  = js "Edited config.ts at hash deadbe, see example dot com".
Proof. vm_compute. reflexivity. Qed.



(** *** The first match, along the greedy path *)

Lemma hd_error_app_some {A} (l1 l2 : list A) x :
  hd_error l1 = Some x -> hd_error (l1 ++ l2) = Some x.
Proof. destruct l1; [discriminate|auto]. Qed.

Lemma first_seq icase a b st x y :
  first icase a st = Some x -> first icase b x = Some y ->
  first icase (RSeq a b) st = Some y.
Proof.
  unfold first. cbn [m]. destruct (m icase a st) as [|x' xs]; [discriminate|].
  intros [= ->] H. cbn [flat_map]. apply hd_error_app_some, H.
Qed.

Lemma flat_map_nil {A B} (f : A -> list B) l :
  (forall x, In x l -> f x = []) -> flat_map f l = [].
Proof.
  induction l as [|x l IH]; [reflexivity|]. intros H. cbn [flat_map].
  rewrite (H x (or_introl eq_refl)), IH; [reflexivity|].
  intros y Hy. apply H. right. exact Hy.
Qed.

(** One more round of a repetition, when the first way through the body
    makes progress and the rest goes through. *)
Lemma rep_head_step step fuel lo hi st x y :
  more hi = true ->
  hd_error (step st) = Some x ->
  (length (snd x) < length (snd st))%nat ->
  hd_error (rep step fuel (pred lo) (dec hi) x) = Some y ->
  hd_error (rep step (S fuel) lo hi st) = Some y.
Proof.
  intros Hm Hx Hlt Hy. cbn [rep]. rewrite Hm.
  destruct (step st) as [|x' xs]; [discriminate|]. injection Hx as ->.
  cbn [flat_map]. apply Nat.ltb_lt in Hlt. rewrite Hlt.
  apply hd_error_app_some, hd_error_app_some, Hy.
Qed.

(** The repetition stops where the body does not match. *)
Lemma rep_stop step fuel hi st : step st = [] -> rep step fuel 0 hi st = [st].
Proof.
  intros H. destruct fuel; cbn [rep]; [reflexivity|].
  rewrite H. destruct (more hi); reflexivity.
Qed.

Lemma last_of_cons prev c run : last_of prev (c :: run) = last_of (Some c) run.
Proof.
  unfold last_of. cbn [rev]. destruct (rev run) as [|d l] eqn:E; reflexivity.
Qed.

(** A greedy repetition of a class takes the whole run. *)
Lemma rep_class_run icase k rest : stops icase k rest ->
  forall run prev lo fuel,
    forallb (in_cls icase k) run = true ->
    (lo <= length run)%nat ->
    (length run <= fuel)%nat ->
    hd_error (rep (m icase (RChar k)) fuel lo None (prev, run ++ rest))
    = Some (last_of prev run, rest).
Proof.
  intros Hstop. induction run as [|c run IH]; intros prev lo fuel Hall Hlo Hfuel.
  - cbn [length] in Hlo. assert (lo = 0%nat) as -> by lia.
    rewrite rep_stop; [reflexivity|].
    cbn [app m snd]. destruct rest as [|c t]; [reflexivity|].
    cbn in Hstop. rewrite Hstop. reflexivity.
  - cbn [forallb] in Hall. apply andb_true_iff in Hall. destruct Hall as [Hc Hall].
    cbn [length] in Hlo, Hfuel. destruct fuel as [|fuel]; [lia|].
    rewrite last_of_cons.
    apply rep_head_step with (x := (Some c, run ++ rest)).
    + reflexivity.
    + cbn [m snd app]. rewrite Hc. reflexivity.
    + cbn [snd app length]. lia.
    + apply IH; [assumption|lia|lia].
Qed.

Lemma first_run icase k lo run rest prev :
  stops icase k rest ->
  forallb (in_cls icase k) run = true ->
  (lo <= length run)%nat ->
  first icase (RRep lo None (RChar k)) (prev, run ++ rest) = Some (last_of prev run, rest).
Proof.
  intros Hs Hall Hlo. unfold first. cbn [m snd].
  apply rep_class_run; try assumption. rewrite length_app. lia.
Qed.

Lemma in_cls_one a c : in_cls false (Cls false [one a]) c = (c =? ch a)%N.
Proof.
  unfold in_cls, in_ranges, one. cbn [cls_neg cls_ranges existsb fst snd xorb].
  rewrite orb_false_r.
  destruct (N.eqb_spec c (ch a)) as [->|Hne].
  - rewrite N.leb_refl. reflexivity.
  - apply andb_false_iff. rewrite !N.leb_gt. lia.
Qed.

Lemma first_lit1 a prev t :
  first false (lit1 a) (prev, ch a :: t) = Some (Some (ch a), t).
Proof.
  unfold first, lit1. cbn [m snd]. rewrite in_cls_one, N.eqb_refl. reflexivity.
Qed.

Lemma m_lit1_other a prev rest :
  match rest with [] => True | c :: _ => (c =? ch a)%N = false end ->
  m false (lit1 a) (prev, rest) = [].
Proof.
  destruct rest as [|c t]; [reflexivity|]. intros H.
  unfold lit1. cbn [m snd]. rewrite in_cls_one, H. reflexivity.
Qed.

(** A literal matches itself. *)
Lemma first_lit_list l : l <> [] -> forall prev rest,
  first false (lit_list l) (prev, map ch l ++ rest) = Some (last_of prev (map ch l), rest).
Proof.
  induction l as [|a l IH]; [congruence|]. intros _ prev rest.
  destruct l as [|b l].
  - apply first_lit1.
  - change (lit_list (a :: b :: l)) with (RSeq (lit1 a) (lit_list (b :: l))).
    cbn [map app]. rewrite last_of_cons.
    eapply first_seq; [apply first_lit1|]. apply (IH ltac:(discriminate)).
Qed.

Lemma first_lit str prev rest :
  list_ascii_of_string str <> [] ->
  first false (lit str) (prev, js str ++ rest) = Some (last_of prev (js str), rest).
Proof. intros H. apply (first_lit_list H). Qed.

Lemma match_here_first icase r st st' :
  first icase r st = Some st' ->
  match_here icase r st
  = Some (firstn (length (snd st) - length (snd st')) (snd st), st').
Proof.
  unfold first, match_here. destruct (m icase r st); [discriminate|].
  intros [= ->]. reflexivity.
Qed.

Lemma match_here_none icase r st : m icase r st = [] -> match_here icase r st = None.
Proof. unfold match_here. intros ->. reflexivity. Qed.

(** A whole-string match is replaced by the callback's result. *)
Lemma replace_all_whole icase r f s last :
  s <> [] ->
  first icase r (None, s) = Some (last, []) ->
  m icase r (last, []) = [] ->
  replace_all icase r f s = f s.
Proof.
  intros Hs Hfirst Hend. unfold replace_all.
  cbn [replace_from]. rewrite (match_here_first Hfirst).
  cbn [snd length]. rewrite Nat.sub_0_r, firstn_all.
  destruct s as [|c t]; [congruence|].
  cbn [length replace_from]. rewrite (match_here_none Hend). apply app_nil_r.
Qed.

(** *** Classes of code units, by their ranges *)

Ltac ch_values :=
  repeat match goal with
         | |- context [ch ?a] =>
             let v := eval vm_compute in (ch a) in change (ch a) with v
         | H : context [ch ?a] |- _ =>
             let v := eval vm_compute in (ch a) in change (ch a) with v in H
         end.

Ltac n_atoms :=
  repeat match goal with
         | H : context [(?a <=? ?b)%N] |- _ => destruct (N.leb_spec a b); cbn [andb orb negb xorb] in H
         | H : context [(?a =? ?b)%N] |- _ => destruct (N.eqb_spec a b); cbn [andb orb negb xorb] in H
         | |- context [(?a <=? ?b)%N] => destruct (N.leb_spec a b); cbn [andb orb negb xorb]
         | |- context [(?a =? ?b)%N] => destruct (N.eqb_spec a b); cbn [andb orb negb xorb]
         end.

Ltac unfold_classes :=
  unfold is_hex, is_char, is_ws, is_word, in_cls, in_ranges, cls_hex, cls_url, cls_seg,
    cls_rel, cls_alpha, cls_alnum, cls_behind, word_ranges, ws_ranges, digit_ranges,
    range, one in *;
  cbn [cls_neg cls_ranges existsb app fst snd] in *.

Lemma is_hex_range c :
  is_hex c = true ->
  (48 <= c <= 57 \/ 65 <= c <= 70 \/ 97 <= c <= 102)%N.
Proof.
  unfold_classes. unfold lowerA, upperA. ch_values. intros H.
  destruct (N.leb_spec 65 c), (N.leb_spec c 90), (N.leb_spec 97 c), (N.leb_spec c 122);
    cbn [andb] in H; n_atoms; try discriminate; lia.
Qed.

Lemma is_hex_alnum c : is_hex c = true -> alnum c.
Proof. intros H. apply is_hex_range in H. unfold alnum. lia. Qed.

Lemma cls_alnum_alnum c : in_cls false cls_alnum c = true -> alnum c.
Proof. unfold_classes. unfold alnum. ch_values. intros H. n_atoms; try discriminate; lia. Qed.

Lemma cls_alpha_alnum c : in_cls false cls_alpha c = true -> alnum c.
Proof. unfold_classes. unfold alnum. ch_values. intros H. n_atoms; try discriminate; lia. Qed.

Lemma alnum_cls_alnum c : alnum c -> in_cls false cls_alnum c = true.
Proof. unfold_classes. unfold alnum. ch_values. intros H. n_atoms; try reflexivity; lia. Qed.

Lemma alnum_word c : alnum c -> is_word c = true.
Proof. unfold_classes. unfold alnum. ch_values. intros H. n_atoms; try reflexivity; lia. Qed.

Lemma alnum_not_ws c : alnum c -> is_ws c = false.
Proof. unfold_classes. unfold alnum. ch_values. intros H. n_atoms; try reflexivity; lia. Qed.

Lemma alnum_not_char a c :
  (ch a < 48 \/ 57 < ch a < 65 \/ 90 < ch a < 97 \/ 122 < ch a)%N ->
  alnum c -> is_char a c = false.
Proof. unfold is_char, alnum. intros Ha H. apply N.eqb_neq. lia. Qed.

Lemma alnum_not_colon c : alnum c -> is_char ":" c = false.
Proof. apply alnum_not_char. vm_compute. intuition discriminate. Qed.
Lemma alnum_not_slash c : alnum c -> is_char "/" c = false.
Proof. apply alnum_not_char. vm_compute. intuition discriminate. Qed.
Lemma alnum_not_dot c : alnum c -> is_char "." c = false.
Proof. apply alnum_not_char. vm_compute. intuition discriminate. Qed.
Lemma alnum_not_space c : alnum c -> is_char " " c = false.
Proof. apply alnum_not_char. vm_compute. intuition discriminate. Qed.

(** *** Counting, runs and blanks over concatenations *)

Lemma count_if_none (Q : N -> bool) s :
  (forall c, In c s -> Q c = false) -> count_if Q s = 0%nat.
Proof.
  induction s as [|c t IH]; [reflexivity|]. intros H. unfold count_if in *.
  cbn [List.filter]. rewrite (H c (or_introl eq_refl)). apply IH.
  intros d Hd. apply H. right. exact Hd.
Qed.

Lemma run_len_le_length P s : (run_len P s <= length s)%nat.
Proof. induction s as [|c t IH]; cbn [run_len length]; [lia|]. destruct (P c); lia. Qed.

Lemma max_run_le_length P s : (max_run P s <= length s)%nat.
Proof.
  induction s as [|c t IH]; [cbn; lia|].
  pose proof (run_len_le_length P (c :: t)). cbn [max_run length] in *. lia.
Qed.

Lemma run_len_app_le P a b : (run_len P (a ++ b) <= run_len P a + run_len P b)%nat.
Proof.
  induction a as [|c a IH]; cbn [app run_len]; [lia|]. destruct (P c); lia.
Qed.

Lemma max_run_app_le P a b : (max_run P (a ++ b) <= max_run P a + max_run P b)%nat.
Proof.
  induction a as [|c a IH]; [cbn; lia|].
  pose proof (run_len_app_le P (c :: a) b) as H.
  pose proof (run_len_max_run P b).
  cbn [app max_run] in *. lia.
Qed.

Lemma double_space_none s :
  (forall c, In c s -> is_char " " c = false) -> double_space s = false.
Proof.
  induction s as [|c t IH]; [reflexivity|]. intros H. cbn [double_space].
  destruct t as [|d t']; [reflexivity|].
  rewrite (H c (or_introl eq_refl)). cbn [andb orb]. apply IH.
  intros e He. apply H. right. exact He.
Qed.

(** No doubled blank arises where the second part does not start with one. *)
Lemma double_space_app a b :
  double_space a = false -> double_space b = false ->
  match b with c :: _ => is_char " " c = false | [] => True end ->
  double_space (a ++ b) = false.
Proof.
  intros Ha Hb Hh. induction a as [|c a IH]; [exact Hb|].
  cbn [app double_space] in *. destruct a as [|d a'].
  - cbn [app]. destruct b as [|e b']; [reflexivity|].
    rewrite Hh, andb_false_r. exact Hb.
  - cbn [app] in *. apply orb_false_iff in Ha. destruct Ha as [-> Ha].
    cbn [orb]. apply IH, Ha.
Qed.

Lemma starts_ws_rev_app a p :
  p <> [] -> (forall c, In c p -> is_ws c = false) -> starts_ws (rev (a ++ p)) = false.
Proof.
  intros Hp H. rewrite rev_app_distr.
  destruct (rev p) as [|c l] eqn:E.
  - apply (f_equal (@rev N)) in E. rewrite rev_involutive in E. contradiction.
  - cbn. apply H, in_rev. rewrite E. left. reflexivity.
Qed.

Lemma forallb_In (P : N -> bool) s c : forallb P s = true -> In c s -> P c = true.
Proof. intros H. rewrite forallb_forall in H. apply H. Qed.

(** *** Hexadecimal strings *)

Lemma last_of_in prev s : s <> [] -> exists c, last_of prev s = Some c /\ In c s.
Proof.
  intros Hs. unfold last_of. destruct (rev s) as [|c l] eqn:E.
  - apply (f_equal (@rev N)) in E. rewrite rev_involutive in E. contradiction.
  - exists c. split; [reflexivity|]. apply in_rev. rewrite E. left. reflexivity.
Qed.

Lemma first_wordb_start icase c t :
  is_word c = true -> first icase RWordB (None, c :: t) = Some (None, c :: t).
Proof. intros H. unfold first. cbn [m fst snd hd_error at_word]. rewrite H. reflexivity. Qed.

Lemma first_wordb_end icase c :
  is_word c = true -> first icase RWordB (Some c, []) = Some (Some c, []).
Proof. intros H. unfold first. cbn [m fst snd hd_error at_word]. rewrite H. reflexivity. Qed.

Lemma hex_first s :
  forallb is_hex s = true -> (8 <= length s)%nat ->
  exists c, is_hex c = true /\ first true re_hex (None, s) = Some (Some c, []).
Proof.
  intros Hall Hlen.
  assert (Hs : s <> []) by (destruct s; [cbn in Hlen; lia | discriminate]).
  destruct (last_of_in None Hs) as (c & Hlast & Hc).
  pose proof (forallb_In Hall Hc) as Hhex.
  exists c. split; [exact Hhex|].
  change re_hex with (RSeq RWordB (RSeq (RRep 8 None (RChar cls_hex)) RWordB)).
  destruct s as [|c0 t]; [congruence|].
  eapply first_seq.
  - apply first_wordb_start, alnum_word, is_hex_alnum.
    apply (forallb_In Hall). left. reflexivity.
  - eapply first_seq.
    + rewrite <- (app_nil_r (c0 :: t)). apply first_run; [exact I|exact Hall|exact Hlen].
    + rewrite Hlast. apply first_wordb_end, alnum_word, is_hex_alnum, Hhex.
Qed.

Lemma hex_no_match_at_end prev : m true re_hex (prev, []) = [].
Proof.
  destruct (m true re_hex (prev, [])) as [|st' l] eqn:E; [reflexivity|exfalso].
  assert (Hin : In st' (m true re_hex (prev, []))) by (rewrite E; left; reflexivity).
  destruct (m_sound just_hex_sound Hin) as (consumed & Es & Hcount & _).
  cbn [snd] in Es. symmetry in Es. apply app_eq_nil in Es. destruct Es as [-> _].
  change (min_occ just_hex re_hex) with 8%nat in Hcount. cbn in Hcount. lia.
Qed.

Lemma step_hex_whole s :
  forallb is_hex s = true -> (8 <= length s)%nat ->
  step_hex s
  = if test false re_digit s && test true re_af s then simplifyHex s else s.
Proof.
  intros Hall Hlen. destruct (hex_first Hall Hlen) as (c & _ & Hfirst).
  unfold step_hex. apply replace_all_whole with (last := Some c).
  - destruct s; [cbn in Hlen; lia | discriminate].
  - exact Hfirst.
  - apply hex_no_match_at_end.
Qed.

Lemma hex_chars_plain s c :
  forallb is_hex s = true -> In c s -> alnum c.
Proof. intros H Hc. apply is_hex_alnum, (forallb_In H Hc). Qed.

Lemma firstn_In {A} n (l : list A) x : In x (firstn n l) -> In x l.
Proof.
  revert l. induction n as [|n IH]; intros [|a l]; cbn [firstn]; try contradiction.
  intros [->|H]; [left; reflexivity | right; apply IH, H].
Qed.

(** "hash " and six hexadecimal digits are in simplified form. *)
Lemma simplified_hash p :
  p <> [] -> (length p <= 6)%nat -> (forall c, In c p -> alnum c) ->
  simplified (js "hash " ++ p) = true.
Proof.
  intros Hp Hlen Hal.
  assert (Hcount : forall a, (forall c, alnum c -> is_char a c = false) ->
                             count_if (is_char a) (js "hash " ++ p)
                             = count_if (is_char a) (js "hash ")).
  { intros a Ha. rewrite count_if_app, (@count_if_none (is_char a) p); [lia|].
    intros c Hc. apply Ha, Hal, Hc. }
  apply simplified_of_parts.
  - rewrite (Hcount ":"%char alnum_not_colon). reflexivity.
  - rewrite (Hcount "/"%char alnum_not_slash). vm_compute. lia.
  - rewrite (Hcount "."%char alnum_not_dot). vm_compute. lia.
  - pose proof (max_run_app_le is_hex (js "hash ") p) as H.
    pose proof (max_run_le_length is_hex p).
    change (max_run is_hex (js "hash ")) with 1%nat in H. lia.
  - apply double_space_app; [reflexivity| |].
    + apply double_space_none. intros c Hc. apply alnum_not_space, Hal, Hc.
    + destruct p as [|c p']; [exact I|]. apply alnum_not_space, Hal. left. reflexivity.
  - reflexivity.
  - apply starts_ws_rev_app; [exact Hp|]. intros c Hc. apply alnum_not_ws, Hal, Hc.
Qed.

(** A string of letters and digits with no long hexadecimal run is in
    simplified form. *)
Lemma simplified_alnum s :
  (forall c, In c s -> alnum c) -> (max_run is_hex s < 8)%nat -> simplified s = true.
Proof.
  intros Hal Hrun.
  assert (Hcount : forall a, (forall c, alnum c -> is_char a c = false) ->
                             count_if (is_char a) s = 0%nat).
  { intros a Ha. apply count_if_none. intros c Hc. apply Ha, Hal, Hc. }
  apply simplified_of_parts.
  - apply (Hcount ":"%char alnum_not_colon).
  - rewrite (Hcount "/"%char alnum_not_slash). lia.
  - rewrite (Hcount "."%char alnum_not_dot). lia.
  - exact Hrun.
  - apply double_space_none. intros c Hc. apply alnum_not_space, Hal, Hc.
  - destruct s as [|c t]; [reflexivity|]. apply alnum_not_ws, Hal. left. reflexivity.
  - destruct (rev s) as [|c t] eqn:E; [reflexivity|].
    apply alnum_not_ws, Hal, in_rev. rewrite E. left. reflexivity.
Qed.

(** The normal form of a hexadecimal string: "hash " and its first six
    digits when it has eight or more, a digit among them and a letter; itself
    otherwise. *)
Lemma normalize_hex urlHostname s :
  forallb is_hex s = true ->
  normalizeTTSText urlHostname s
  = if Nat.leb 8 (length s) && (test false re_digit s && test true re_af s)
    then js "hash " ++ firstn 6 s else s.
Proof.
  intros Hall.
  assert (Hal : forall c, In c s -> alnum c) by (intros c; apply hex_chars_plain, Hall).
  assert (Hcount : forall a, (forall c, alnum c -> is_char a c = false) ->
                             count_if (is_char a) s = 0%nat).
  { intros a Ha. apply count_if_none. intros c Hc. apply Ha, Hal, Hc. }
  rewrite normalize_steps, step_urls_id by apply (Hcount ":"%char alnum_not_colon).
  unfold after_urls.
  rewrite step_abs_paths_id by (rewrite (Hcount "/"%char alnum_not_slash); lia).
  rewrite step_rel_paths_id by (rewrite (Hcount "/"%char alnum_not_slash); lia).
  destruct (Nat.leb_spec 8 (length s)) as [Hlen|Hlen]; cbn [andb].
  - rewrite (step_hex_whole Hall Hlen).
    destruct (test false re_digit s && test true re_af s).
    + assert (Hsimp : simplified (simplifyHex s) = true).
      { apply simplified_hash.
        - destruct s as [|c t]; [cbn in Hlen; lia | discriminate].
        - rewrite length_firstn. lia.
        - intros c Hc. apply Hal, (firstn_In Hc). }
      apply simplified_parts in Hsimp.
      destruct Hsimp as (_ & _ & Hdot & _ & Hsp & Hws1 & Hws2).
      rewrite step_dotted_id by exact Hdot. apply step_spaces_id; assumption.
    + rewrite step_dotted_id by (rewrite (Hcount "."%char alnum_not_dot); lia).
      apply step_spaces_id.
      * apply double_space_none. intros c Hc. apply alnum_not_space, Hal, Hc.
      * destruct s as [|c t]; [reflexivity|]. apply alnum_not_ws, Hal. left. reflexivity.
      * destruct (rev s) as [|c t] eqn:E; [reflexivity|].
        apply alnum_not_ws, Hal, in_rev. rewrite E. left. reflexivity.
  - assert (Hrun : (max_run is_hex s < 8)%nat)
      by (pose proof (max_run_le_length is_hex s); lia).
    pose proof (simplified_alnum Hal Hrun) as Hsimp.
    apply simplified_parts in Hsimp.
    destruct Hsimp as (_ & _ & Hdot & _ & Hsp & Hws1 & Hws2).
    rewrite step_hex_id by exact Hrun. rewrite step_dotted_id by exact Hdot.
    apply step_spaces_id; assumption.
Qed.


(** *** Dotted identifiers *)

Lemma ident_alnum w c : ident w -> In c w -> alnum c.
Proof.
  intros (c0 & t & -> & Hc0 & Ht) [<-|Hc].
  - apply cls_alpha_alnum, Hc0.
  - apply cls_alnum_alnum, (forallb_In Ht Hc).
Qed.

Lemma ident_nonempty w : ident w -> w <> [].
Proof. intros (c & t & -> & _). discriminate. Qed.

Lemma dot_not_alnum : in_cls false cls_alnum (ch ".") = false.
Proof. reflexivity. Qed.

Lemma stops_dot_joined ws : stops false cls_alnum (dot_joined ws).
Proof. destruct ws; [exact I | exact dot_not_alnum]. Qed.

Lemma first_ident w rest prev :
  ident w -> stops false cls_alnum rest ->
  first false re_ident (prev, w ++ rest) = Some (last_of prev w, rest).
Proof.
  intros (c & t & -> & Hc & Ht) Hstop. unfold re_ident.
  eapply first_seq.
  - unfold first. cbn [app m snd]. rewrite Hc. reflexivity.
  - rewrite last_of_cons. apply first_run; [exact Hstop|exact Ht|lia].
Qed.

Lemma length_dot_joined_cons w ws :
  length (dot_joined (w :: ws)) = S (length w + length (dot_joined ws)).
Proof. cbn [dot_joined length]. rewrite length_app. reflexivity. Qed.

Lemma rep_dot_joined : forall ws c0 lo fuel,
  Forall ident ws -> alnum c0 ->
  (lo <= length ws)%nat ->
  (length (dot_joined ws) <= fuel)%nat ->
  exists c, alnum c
            /\ hd_error (rep (m false re_dot_ident) fuel lo None (Some c0, dot_joined ws))
               = Some (Some c, []).
Proof.
  induction ws as [|w ws IH]; intros c0 lo fuel Hall Hc0 Hlo Hfuel.
  - cbn [length] in Hlo. assert (lo = 0%nat) as -> by lia.
    exists c0. split; [exact Hc0|]. rewrite rep_stop; reflexivity.
  - inversion Hall as [|? ? Hw Hws]; subst.
    rewrite length_dot_joined_cons in Hfuel. destruct fuel as [|fuel]; [lia|].
    destruct (last_of_in (Some (ch ".")) (ident_nonempty Hw)) as (c1 & Hlast & Hin).
    pose proof (ident_alnum Hw Hin) as Hc1.
    destruct (IH c1 (pred lo) fuel Hws Hc1) as (c & Hc & Hhd).
    + cbn [length] in Hlo. lia.
    + lia.
    + exists c. split; [exact Hc|].
      apply rep_head_step with (x := (Some c1, dot_joined ws)).
      * reflexivity.
      * change (hd_error (m false re_dot_ident (Some c0, dot_joined (w :: ws))))
          with (first false re_dot_ident (Some c0, ch "." :: w ++ dot_joined ws)).
        unfold re_dot_ident. eapply first_seq; [apply first_lit1|].
        rewrite <- Hlast. apply first_ident; [exact Hw|apply stops_dot_joined].
      * cbn [snd]. rewrite length_dot_joined_cons. lia.
      * exact Hhd.
Qed.

Lemma dotted_first s w ws :
  dotted s w ws ->
  exists c, first false re_dotted (None, s) = Some (Some c, []).
Proof.
  intros (-> & Hw & Hws & Hlen).
  destruct (last_of_in None (ident_nonempty Hw)) as (c1 & Hlast & Hin).
  pose proof (ident_alnum Hw Hin) as Hc1.
  destruct (@rep_dot_joined ws c1 3 (length (dot_joined ws)) Hws Hc1 Hlen (le_n _))
    as (c & Hc & Hhd).
  exists c.
  change re_dotted
    with (RSeq RWordB (RSeq re_ident (RSeq (RRep 3 None re_dot_ident) RWordB))).
  assert (Hstart : first false RWordB (None, w ++ dot_joined ws)
                   = Some (None, w ++ dot_joined ws)).
  { destruct Hw as (c0 & t & -> & Hc0 & _). cbn [app].
    apply first_wordb_start, alnum_word, cls_alpha_alnum, Hc0. }
  eapply first_seq.
  - exact Hstart.
  - eapply first_seq.
    + apply first_ident; [exact Hw|apply stops_dot_joined].
    + rewrite Hlast. eapply first_seq.
      * unfold first. cbn [m snd]. exact Hhd.
      * apply first_wordb_end, alnum_word, Hc.
Qed.

Lemma step_dotted_whole s w ws :
  dotted s w ws -> test true re_known_ext s = false ->
  step_dotted s = simplifyDottedPath s.
Proof.
  intros Hd Hext. destruct (dotted_first Hd) as (c & Hfirst).
  unfold step_dotted.
  rewrite (@replace_all_whole false re_dotted _ s (Some c)).
  - rewrite Hext. reflexivity.
  - destruct Hd as (-> & Hw & _). intros E. apply app_eq_nil in E.
    apply (ident_nonempty Hw), E.
  - exact Hfirst.
  - apply (@no_match_by_count "." re_dotted 3 []); [vm_compute; lia|cbn; lia|].
    apply is_suffix_refl.
Qed.

Lemma split_on_none c w :
  (forall x, In x w -> (x =? c)%N = false) -> split_on c w = [w].
Proof.
  induction w as [|x w IH]; [reflexivity|]. intros H. cbn [split_on].
  rewrite (H x (or_introl eq_refl)), IH; [reflexivity|].
  intros y Hy. apply H. right. exact Hy.
Qed.

Lemma split_on_app_sep c w rest :
  (forall x, In x w -> (x =? c)%N = false) ->
  split_on c (w ++ c :: rest) = w :: split_on c rest.
Proof.
  induction w as [|x w IH]; intros H.
  - cbn [app split_on]. rewrite N.eqb_refl. reflexivity.
  - cbn [app split_on]. rewrite (H x (or_introl eq_refl)), IH; [reflexivity|].
    intros y Hy. apply H. right. exact Hy.
Qed.

Lemma ident_no_dot w x : ident w -> In x w -> (x =? ch ".")%N = false.
Proof. intros Hw Hx. apply (alnum_not_dot (ident_alnum Hw Hx)). Qed.

Lemma split_dot_joined : forall ws w,
  ident w -> Forall ident ws -> split_on (ch ".") (w ++ dot_joined ws) = w :: ws.
Proof.
  induction ws as [|w' ws IH]; intros w Hw Hws.
  - cbn [dot_joined]. rewrite app_nil_r. apply split_on_none. intros x. apply ident_no_dot, Hw.
  - inversion Hws; subst. cbn [dot_joined].
    rewrite split_on_app_sep by (intros x; apply ident_no_dot, Hw).
    rewrite IH by assumption. reflexivity.
Qed.

Lemma nth_length_cons {A} (l : list A) a d : nth (length l) (a :: l) d = List.last (a :: l) d.
Proof.
  revert a. induction l as [|b l IH]; intros a; [reflexivity|].
  exact (IH b).
Qed.

Lemma last_in {A} (l : list A) a d : In (List.last (a :: l) d) (a :: l).
Proof.
  revert a. induction l as [|b l IH]; intros a; [left; reflexivity|].
  right. apply IH.
Qed.

(** [simplifyDottedPath] gives the last segment. *)
Lemma simplifyDottedPath_last s w ws :
  dotted s w ws -> simplifyDottedPath s = List.last (w :: ws) [].
Proof.
  intros (-> & Hw & Hws & _). unfold simplifyDottedPath.
  rewrite (split_dot_joined Hw Hws).
  replace (length (w :: ws) - 1)%nat with (length ws) by (cbn [length]; lia).
  apply nth_length_cons.
Qed.

Lemma run_len_app_ge P a b : (run_len P a <= run_len P (a ++ b))%nat.
Proof. induction a as [|c a IH]; cbn [app run_len]; [lia|]. destruct (P c); lia. Qed.

Lemma max_run_app_l P a b : (max_run P a <= max_run P (a ++ b))%nat.
Proof.
  induction a as [|c a IH]; [cbn; lia|].
  pose proof (run_len_app_ge P (c :: a) b). cbn [app max_run] in *. lia.
Qed.

Lemma max_run_app_r P a b : (max_run P b <= max_run P (a ++ b))%nat.
Proof. induction a as [|c a IH]; [cbn; lia|]. cbn [app max_run]. lia. Qed.

Lemma max_run_infix P pre x post : (max_run P x <= max_run P (pre ++ x ++ post))%nat.
Proof.
  pose proof (max_run_app_l P x post). pose proof (max_run_app_r P pre (x ++ post)). lia.
Qed.

Lemma segment_infix : forall ws w x,
  In x (w :: ws) -> exists pre post, w ++ dot_joined ws = pre ++ x ++ post.
Proof.
  induction ws as [|w' ws IH]; intros w x [<-|Hx].
  - exists [], []. cbn [dot_joined app]. rewrite !app_nil_r. reflexivity.
  - contradiction.
  - exists [], (dot_joined (w' :: ws)). reflexivity.
  - destruct (IH w' x Hx) as (pre & post & E).
    exists (w ++ ch "." :: pre), post. cbn [dot_joined].
    rewrite E, <- !app_assoc. reflexivity.
Qed.

Lemma dotted_chars s w ws c :
  dotted s w ws -> In c s -> alnum c \/ c = ch ".".
Proof.
  intros (-> & Hw & Hws & _). revert w Hw.
  induction Hws as [|w' ws Hw' Hws IH]; intros w Hw Hc.
  - cbn [dot_joined] in Hc. rewrite app_nil_r in Hc. left. apply (ident_alnum Hw Hc).
  - cbn [dot_joined] in Hc. apply in_app_or in Hc. destruct Hc as [Hc|[<-|Hc]].
    + left. apply (ident_alnum Hw Hc).
    + right. reflexivity.
    + apply (IH w' Hw' Hc).
Qed.

(** The normal form of a dotted identifier with no known extension and no
    long hexadecimal run: its last segment. *)
Lemma normalize_dotted urlHostname s w ws :
  dotted s w ws ->
  test true re_known_ext s = false ->
  (max_run is_hex s < 8)%nat ->
  normalizeTTSText urlHostname s = List.last (w :: ws) []
  /\ simplified (List.last (w :: ws) []) = true.
Proof.
  intros Hd Hext Hrun.
  assert (Hlast : ident (List.last (w :: ws) [])).
  { destruct Hd as (_ & Hw & Hws & _).
    pose proof (last_in ws w []) as Hin.
    destruct Hin as [<-|Hin]; [exact Hw|].
    apply (proj1 (List.Forall_forall ident ws) Hws), Hin. }
  assert (Hsimp : simplified (List.last (w :: ws) []) = true).
  { apply simplified_alnum; [intros c; apply ident_alnum, Hlast|].
    destruct Hd as (-> & _).
    destruct (segment_infix (last_in ws w [])) as (pre & post & E).
    pose proof (max_run_infix is_hex pre (List.last (w :: ws) []) post) as H.
    rewrite <- E in H. lia. }
  split; [|exact Hsimp].
  assert (Hcount : forall a, (forall c, alnum c -> is_char a c = false) ->
                             is_char a (ch ".") = false ->
                             count_if (is_char a) s = 0%nat).
  { intros a Ha Hdot. apply count_if_none. intros c Hc.
    destruct (dotted_chars Hd Hc) as [H| ->]; [apply Ha, H|exact Hdot]. }
  rewrite normalize_steps, step_urls_id
    by apply (Hcount ":"%char alnum_not_colon eq_refl).
  unfold after_urls.
  rewrite step_abs_paths_id by (rewrite (Hcount "/"%char alnum_not_slash eq_refl); lia).
  rewrite step_rel_paths_id by (rewrite (Hcount "/"%char alnum_not_slash eq_refl); lia).
  rewrite step_hex_id by exact Hrun.
  rewrite (step_dotted_whole Hd Hext), (simplifyDottedPath_last Hd).
  apply simplified_parts in Hsimp.
  destruct Hsimp as (_ & _ & _ & _ & Hsp & Hws1 & Hws2).
  apply step_spaces_id; assumption.
Qed.


(** *** Absolute paths *)

Lemma in_ranges_app a b c : in_ranges (a ++ b) c = in_ranges a c || in_ranges b c.
Proof. unfold in_ranges. apply existsb_app. Qed.

Lemma in_ranges_one a c : in_ranges [one a] c = (c =? ch a)%N.
Proof. rewrite <- in_cls_one. unfold in_cls. cbn [cls_neg cls_ranges xorb]. reflexivity. Qed.

Lemma cls_seg_spec c :
  in_cls false cls_seg c = negb (is_ws c || (c =? ch "/")%N).
Proof.
  unfold in_cls, cls_seg, is_ws. cbn [cls_neg cls_ranges xorb].
  rewrite in_ranges_app, in_ranges_one. reflexivity.
Qed.

Lemma cls_seg_not_slash c : in_cls false cls_seg c = true -> (c =? ch "/")%N = false.
Proof.
  rewrite cls_seg_spec, negb_true_iff, orb_false_iff. tauto.
Qed.

Lemma cls_seg_not_ws c : in_cls false cls_seg c = true -> is_ws c = false.
Proof.
  rewrite cls_seg_spec, negb_true_iff, orb_false_iff. tauto.
Qed.

Lemma slash_not_seg : in_cls false cls_seg (ch "/") = false.
Proof. reflexivity. Qed.

Lemma segment_no_slash g x : segment g -> In x g -> (x =? ch "/")%N = false.
Proof. intros [_ H] Hx. apply cls_seg_not_slash, (forallb_In H Hx). Qed.

Lemma doubled_suffix a rest t :
  is_suffix (ch a :: ch a :: rest) t -> doubled a t = true.
Proof.
  intros [pre ->]. induction pre as [|c pre IH].
  - cbn [app doubled]. unfold is_char. rewrite N.eqb_refl. reflexivity.
  - cbn [app doubled] in *. destruct (pre ++ ch a :: ch a :: rest) eqn:E.
    + destruct pre; discriminate.
    + rewrite IH. apply orb_true_r.
Qed.

Lemma doubled_cons_other a c t : is_char a c = false -> doubled a (c :: t) = doubled a t.
Proof. intros H. cbn [doubled]. destruct t; [reflexivity|]. rewrite H. reflexivity. Qed.

Lemma doubled_run_other a g rest :
  (forall x, In x g -> is_char a x = false) -> doubled a (g ++ rest) = doubled a rest.
Proof.
  induction g as [|c g IH]; intros H; [reflexivity|]. cbn [app].
  rewrite doubled_cons_other by (apply H; left; reflexivity).
  apply IH. intros x Hx. apply H. right. exact Hx.
Qed.

Lemma doubled_cons_next a c d t :
  is_char a d = false -> doubled a (c :: d :: t) = doubled a (d :: t).
Proof.
  intros H. change (doubled a (c :: d :: t))
    with ((is_char a c && is_char a d) || doubled a (d :: t)).
  rewrite H, andb_false_r. reflexivity.
Qed.

Lemma doubled_sep_segment g rest :
  segment g -> doubled "/" (ch "/" :: g ++ rest) = doubled "/" rest.
Proof.
  intros Hg. destruct Hg as [Hne Hall]. destruct g as [|c g]; [congruence|].
  assert (Hno : forall x, In x (c :: g) -> is_char "/" x = false)
    by (intros x Hx; apply cls_seg_not_slash, (forallb_In Hall Hx)).
  change (ch "/" :: (c :: g) ++ rest) with (ch "/" :: c :: (g ++ rest)).
  rewrite doubled_cons_next by (apply Hno; left; reflexivity).
  change (c :: g ++ rest) with ((c :: g) ++ rest).
  apply doubled_run_other, Hno.
Qed.

Lemma doubled_dir_joined dirs file :
  Forall segment dirs -> segment file ->
  doubled "/" (ch "/" :: dir_joined dirs ++ file) = false.
Proof.
  intros Hd Hf. induction Hd as [|d ds Hd Hds IH].
  - cbn [dir_joined app]. rewrite <- (app_nil_r file), (doubled_sep_segment _ Hf). reflexivity.
  - cbn [dir_joined]. rewrite <- app_assoc. cbn [app].
    rewrite (doubled_sep_segment _ Hd). exact IH.
Qed.

Lemma m_seq_inv icase a b st st' :
  In st' (m icase (RSeq a b) st) ->
  exists x, In x (m icase a st) /\ In st' (m icase b x).
Proof. cbn [m]. intros H. apply in_flat_map in H. exact H. Qed.

Lemma m_lit1_inv a st st' : In st' (m false (lit1 a) st) -> snd st = ch a :: snd st'.
Proof.
  destruct st as [prev [|c t]]; unfold lit1; cbn [m snd]; [contradiction|].
  rewrite in_cls_one. destruct (N.eqb_spec c (ch a)) as [->|]; [|contradiction].
  intros [<-|[]]. reflexivity.
Qed.

Lemma m_suffix icase r st st' : In st' (m icase r st) -> is_suffix (snd st') (snd st).
Proof.
  intros H.
  destruct (@m_sound icase (fun _ => true) (fun _ => true) (fun _ _ _ _ => eq_refl) r st st' H)
    as (consumed & E & _).
  exists consumed. exact E.
Qed.

Lemma is_suffix_trans a b c : is_suffix a b -> is_suffix b c -> is_suffix a c.
Proof. intros [p ->] [q ->]. exists (q ++ p). rewrite app_assoc. reflexivity. Qed.

(** A URL match goes through "//". *)
Lemma url_match_slashes prev suf st' :
  In st' (m false re_url (prev, suf)) ->
  exists rest, is_suffix (ch "/" :: ch "/" :: rest) suf.
Proof.
  change re_url
    with (RSeq (lit "http")
               (RSeq (opt (lit1 "s"))
                     (RSeq (RSeq (lit1 ":") (RSeq (lit1 "/") (lit1 "/")))
                           (plus (RChar cls_url))))).
  intros H.
  apply m_seq_inv in H. destruct H as (x1 & H1 & H).
  apply m_seq_inv in H. destruct H as (x2 & H2 & H).
  apply m_seq_inv in H. destruct H as (x3 & H3 & _).
  apply m_seq_inv in H3. destruct H3 as (y1 & Hy1 & H3).
  apply m_seq_inv in H3. destruct H3 as (y2 & Hy2 & H3).
  apply m_lit1_inv in Hy1, Hy2, H3.
  apply m_suffix in H1, H2. cbn [snd] in H1.
  exists (snd x3).
  apply is_suffix_trans with (b := snd x2); [|apply (is_suffix_trans H2 H1)].
  exists [ch ":"]. rewrite Hy1, Hy2, H3. reflexivity.
Qed.

Lemma step_urls_no_slashes urlHostname t :
  doubled "/" t = false -> step_urls urlHostname t = t.
Proof.
  intros Hd. apply replace_all_no_match. intros prev suf Hs.
  destruct (m false re_url (prev, suf)) as [|st' l] eqn:E; [reflexivity|exfalso].
  assert (Hin : In st' (m false re_url (prev, suf))) by (rewrite E; left; reflexivity).
  destruct (url_match_slashes Hin) as (rest & Hr).
  rewrite (doubled_suffix (is_suffix_trans Hr Hs)) in Hd. discriminate.
Qed.

Lemma is_suffix_in suf s c : is_suffix suf s -> In c suf -> In c s.
Proof. intros [pre ->] H. apply in_or_app. right. exact H. Qed.

(** No directory is found in the last segment. *)
Lemma no_dir_in_file prev file : segment file -> m false re_dir (prev, file) = [].
Proof.
  intros Hf.
  destruct (m false re_dir (prev, file)) as [|st' l] eqn:E; [reflexivity|exfalso].
  assert (Hin : In st' (m false re_dir (prev, file))) by (rewrite E; left; reflexivity).
  apply m_seq_inv in Hin. destruct Hin as (x & Hx & Hl).
  apply m_lit1_inv in Hl. apply m_suffix in Hx. cbn [snd] in Hx.
  assert (Hs : In (ch "/") file).
  { apply (is_suffix_in Hx). rewrite Hl. left. reflexivity. }
  pose proof (segment_no_slash Hf Hs) as H. rewrite N.eqb_refl in H. discriminate.
Qed.

Lemma first_dir d rest prev :
  segment d ->
  first false re_dir (prev, d ++ ch "/" :: rest) = Some (Some (ch "/"), rest).
Proof.
  intros [Hne Hall]. unfold re_dir. eapply first_seq.
  - apply first_run; [exact slash_not_seg|exact Hall|].
    destruct d; [congruence|cbn; lia].
  - apply first_lit1.
Qed.

Lemma length_dir_joined_cons d ds file :
  length (dir_joined (d :: ds) ++ file)
  = S (length d + length (dir_joined ds ++ file)).
Proof. cbn [dir_joined]. rewrite <- app_assoc, length_app. cbn [app length]. lia. Qed.

(** The greedy repetition of directories takes them all and stops before the
    last segment. *)
Lemma rep_dirs file : segment file -> forall dirs prev lo fuel,
  Forall segment dirs ->
  (lo <= length dirs)%nat ->
  (length (dir_joined dirs ++ file) <= fuel)%nat ->
  exists prev',
    hd_error (rep (m false re_dir) fuel lo None (prev, dir_joined dirs ++ file))
    = Some (prev', file).
Proof.
  intros Hf. induction dirs as [|d ds IH]; intros prev lo fuel Hall Hlo Hfuel.
  - cbn [length] in Hlo. assert (lo = 0%nat) as -> by lia.
    exists prev. cbn [dir_joined app]. rewrite rep_stop; [reflexivity|].
    apply no_dir_in_file, Hf.
  - inversion Hall as [|? ? Hd Hds]; subst.
    rewrite length_dir_joined_cons in Hfuel. destruct fuel as [|fuel]; [lia|].
    destruct (IH (Some (ch "/")) (pred lo) fuel Hds) as (prev' & Hhd).
    + cbn [length] in Hlo. lia.
    + lia.
    + exists prev'.
      apply rep_head_step with (x := (Some (ch "/"), dir_joined ds ++ file)).
      * reflexivity.
      * cbn [dir_joined]. rewrite <- app_assoc. cbn [app].
        apply (first_dir _ _ Hd).
      * cbn [snd]. rewrite length_dir_joined_cons. lia.
      * exact Hhd.
Qed.

Lemma abs_first s dirs file :
  abs_path s dirs file ->
  exists last, first false re_abs (None, s) = Some (last, []).
Proof.
  intros (-> & Hd & Hf & Hlen).
  destruct (@rep_dirs file Hf dirs (Some (ch "/")) 2 (length (dir_joined dirs ++ file)) Hd)
    as (prev' & Hhd); [lia|lia|].
  exists (last_of prev' file).
  change re_abs
    with (RSeq (lit1 "/") (RSeq (RRep 2 None re_dir) (plus (RChar cls_seg)))).
  eapply first_seq; [apply first_lit1|].
  eapply first_seq.
  - unfold first. cbn [m snd]. exact Hhd.
  - rewrite <- (app_nil_r file) at 1. destruct Hf as [Hne Hall].
    apply first_run; [exact I|exact Hall|]. destruct file; [congruence|cbn; lia].
Qed.

Lemma step_abs_paths_whole s dirs file :
  abs_path s dirs file -> step_abs_paths s = simplifyPath s.
Proof.
  intros Ha. destruct (abs_first Ha) as (last & Hfirst).
  unfold step_abs_paths. apply replace_all_whole with (last := last).
  - destruct Ha as (-> & _). discriminate.
  - exact Hfirst.
  - apply (@no_match_by_count "/" re_abs 3 []); [vm_compute; lia|cbn; lia|].
    apply is_suffix_refl.
Qed.

(** The normal form of an absolute path whose short form (the file, or
    parent/file) is simplified: that short form. *)
Lemma normalize_abs_path urlHostname s dirs file :
  abs_path s dirs file ->
  simplified (simplifyPath s) = true ->
  normalizeTTSText urlHostname s = simplifyPath s.
Proof.
  intros Ha Hsimp.
  rewrite normalize_steps, step_urls_no_slashes.
  - unfold after_urls. rewrite (step_abs_paths_whole Ha).
    apply simplified_parts in Hsimp.
    destruct Hsimp as (_ & Hslash & Hdot & Hhex & Hsp & Hws1 & Hws2).
    rewrite step_rel_paths_id by exact Hslash. rewrite step_hex_id by exact Hhex.
    rewrite step_dotted_id by exact Hdot. apply step_spaces_id; assumption.
  - destruct Ha as (-> & Hd & Hf & _). apply doubled_dir_joined; assumption.
Qed.


Lemma filter_nonempty_id l : Forall (fun g => g <> []) l -> filter_nonempty l = l.
Proof.
  induction 1 as [|g l Hg Hl IH]; [reflexivity|].
  unfold filter_nonempty in *. cbn [List.filter].
  destruct g; [congruence|]. rewrite IH. reflexivity.
Qed.

Lemma split_dir_joined file : segment file -> forall dirs,
  Forall segment dirs ->
  split_on (ch "/") (dir_joined dirs ++ file) = dirs ++ [file].
Proof.
  intros Hf. induction 1 as [|d ds Hd Hds IH].
  - apply split_on_none. intros x. apply segment_no_slash, Hf.
  - cbn [dir_joined]. rewrite <- app_assoc. cbn [app].
    rewrite split_on_app_sep by (intros x; apply segment_no_slash, Hd).
    rewrite IH. reflexivity.
Qed.

Lemma nth_pred_length {A} (l : list A) a d :
  nth (length (a :: l) - 1) (a :: l) d = List.last (a :: l) d.
Proof.
  replace (length (a :: l) - 1)%nat with (length l) by (cbn [length]; lia).
  apply nth_length_cons.
Qed.

Lemma simplifyPath_abs s dirs file :
  abs_path s dirs file -> simplifyPath s = short_path dirs file.
Proof.
  intros (-> & Hd & Hf & Hlen). unfold simplifyPath, short_path.
  cbn [split_on]. rewrite N.eqb_refl, (split_dir_joined Hf Hd).
  assert (Hne : Forall (fun g => g <> []) (dirs ++ [file])).
  { apply Forall_app. split.
    - eapply List.Forall_impl; [|exact Hd]. intros g [H _]. exact H.
    - constructor; [apply Hf|constructor]. }
  assert (E : filter_nonempty ([] :: dirs ++ [file]) = dirs ++ [file]).
  { change (filter_nonempty ([] :: dirs ++ [file])) with (filter_nonempty (dirs ++ [file])).
    apply filter_nonempty_id, Hne. }
  rewrite !E, length_app. cbn [length].
  destruct (Nat.leb_spec (length dirs + 1) 2) as [H|_]; [lia|].
  replace (length dirs + 1 - 1)%nat with (length dirs) by lia.
  rewrite app_nth2, Nat.sub_diag by lia. cbn [nth].
  destruct (includes_char (ch ".") file); [reflexivity|].
  rewrite app_nth1 by lia.
  destruct dirs as [|d ds]; [cbn in Hlen; lia|].
  replace (length (d :: ds) + 1 - 2)%nat with (length (d :: ds) - 1)%nat by lia.
  rewrite nth_pred_length. reflexivity.
Qed.

(** *** URLs *)

Lemma rep_done step fuel st : rep step fuel 0 (Some 0%nat) st = [st].
Proof. destruct fuel; reflexivity. Qed.

Lemma first_opt_skip a prev rest :
  match rest with [] => True | c :: _ => (c =? ch a)%N = false end ->
  first false (opt (lit1 a)) (prev, rest) = Some (prev, rest).
Proof.
  intros H. unfold first, opt. cbn [m snd]. rewrite rep_stop; [reflexivity|].
  apply m_lit1_other, H.
Qed.

Lemma first_opt_take a prev rest :
  first false (opt (lit1 a)) (prev, ch a :: rest) = Some (Some (ch a), rest).
Proof.
  unfold first, opt. cbn [m snd length].
  apply rep_head_step with (x := (Some (ch a), rest)).
  - reflexivity.
  - apply first_lit1.
  - cbn [snd length]. lia.
  - cbn [pred dec]. rewrite rep_done. reflexivity.
Qed.

Lemma url_first s rest :
  url s rest -> exists last, first false re_url (None, s) = Some (last, []).
Proof.
  intros (Hs & Hne & Hall).
  change re_url
    with (RSeq (lit "http")
               (RSeq (opt (lit1 "s")) (RSeq (lit "://") (plus (RChar cls_url))))).
  assert (Htail : forall prev,
             first false (RSeq (lit "://") (plus (RChar cls_url))) (prev, js "://" ++ rest)
             = Some (last_of (last_of prev (js "://")) rest, [])).
  { intros prev. eapply first_seq; [apply first_lit; discriminate|].
    rewrite <- (app_nil_r rest) at 1. apply first_run; [exact I|exact Hall|].
    destruct rest; [congruence|cbn; lia]. }
  destruct Hs as [-> | ->].
  - eexists. change (js "http://" ++ rest) with (js "http" ++ (js "://" ++ rest)).
    eapply first_seq; [apply first_lit; discriminate|].
    eapply first_seq; [apply first_opt_skip; reflexivity|]. apply Htail.
  - eexists. change (js "https://" ++ rest) with (js "http" ++ (ch "s" :: js "://" ++ rest)).
    eapply first_seq; [apply first_lit; discriminate|].
    eapply first_seq; [apply first_opt_take|]. apply Htail.
Qed.

Lemma step_urls_whole urlHostname s rest :
  url s rest -> step_urls urlHostname s = simplifyUrl urlHostname s.
Proof.
  intros Hu. destruct (url_first Hu) as (last & Hfirst).
  unfold step_urls. apply replace_all_whole with (last := last).
  - destruct Hu as ([-> | ->] & _); discriminate.
  - exact Hfirst.
  - apply (@no_match_by_count ":" re_url 1 []); [vm_compute; lia|cbn; lia|].
    apply is_suffix_refl.
Qed.

(** The normal form of a URL whose spoken host is simplified: that spoken
    host. *)
Lemma normalize_url urlHostname s rest :
  url s rest ->
  simplified (simplifyUrl urlHostname s) = true ->
  normalizeTTSText urlHostname s = simplifyUrl urlHostname s.
Proof.
  intros Hu Hsimp. rewrite normalize_steps, (@step_urls_whole urlHostname _ _ Hu).
  apply after_urls_simplified, Hsimp.
Qed.


(** *** The four kinds of input *)



Lemma sample_path_is_abs_path :
  abs_path sample_path (map js ["Users"; "jeff"; "dev"; "hooks"; "lib"]%string) (js "config.ts").
Proof.
  split; [reflexivity|]. split; [|split; [|cbn; lia]].
  - repeat constructor; discriminate.
  - split; [discriminate|reflexivity].
Qed.

Lemma sample_dotted_is_dotted :
  dotted sample_dotted (js "com") (map js ["example"; "foo"; "BarService"]%string).
Proof.
  split; [reflexivity|]. split; [|split; [|cbn; lia]].
  - eexists _, _. repeat split; reflexivity.
  - repeat constructor; eexists _, _; repeat split; reflexivity.
Qed.


(** * Further properties of the code

    Properties read off the functions around the ones above: the rest of the
    queue, of the normaliser, of the resolver and of the backends, and the
    configuration, the templates and the transcript parser that feed them. *)

Import Obj.

(** ** The lock and the queue (lib/queue/tts-queue.ts) *)

(** X1: alone, [acquireLock] on a free lock path creates the lock file with
    the caller's identifier and returns true, and the [releaseLock] that
    follows finds that identifier in it and deletes the file: [parseInt]
    reads back what [String] wrote. *)
Theorem acquire_then_release pid isPidAlive :
  exists fs,
    acquireLock pid isPidAlive None = (Ok true, fs, [EvCreate true])
    /\ names fs pid
    /\ releaseLock pid fs = (Ok tt, None, [EvExists; EvRead true; EvUnlink Release]).
Proof.
  exists (Some (String_of pid)). split; [apply acquire_free|]. split.
  - exists (String_of pid). split; [reflexivity|apply parseInt_String_of].
  - rewrite release_result. destruct (decide _) as [_|Hn]; [reflexivity|].
    contradict Hn. apply parseInt_String_of.
Qed.


(** X3: a call of [speakWithLock] with the queue enabled, no lock file and
    no other process creates the lock, speaks once holding it, and releases
    it (exists, read, unlink), also when [provider.speak] rejects: the lock
    file is gone at the end and the promise settles as [speak] did. *)
Theorem uncontended_call cfg urlHostname isPidAlive self ok text t0 t n :
  queue_enabled cfg = true ->
  (6 <= n)%nat ->
  run_solo cfg urlHostname isPidAlive n self ok (World None t) (Proc Start text t0)
  = ([LInit; LFs (EvCreate true);
      LSpeak (normalizeTTSText urlHostname text) true ok;
      LFs EvExists; LFs (EvRead true); LFs (EvUnlink Release)],
     World None t, Proc (Done ok) text t).
Proof.
  intros Hq Hn.
  do 6 (destruct n as [|n]; [lia|]).
  assert (Hown : forall (A : Type) (x y : A),
             (if decide (parseInt (trim (String_of self)) = Some self) then x else y) = x).
  { intros A x y. destruct (decide _) as [_|Hne]; [reflexivity|].
    contradict Hne. apply parseInt_String_of. }
  repeat (progress (cbn [run_solo pstep p_pc p_text p_start lock now];
                    try rewrite Hq; try rewrite Hown;
                    try unfold at_pc; try unfold normalized; try unfold with_lock;
                    try unfold acquired)).
  destruct n; reflexivity.
Qed.

Lemma uncontended_call_witness :
  run_solo (Config true 30000) plainHostname (fun _ => true) 6 42 false
           (World None 10) (Proc Start (js "done") 0)
  = ([LInit; LFs (EvCreate true);
      LSpeak (normalizeTTSText plainHostname (js "done")) true false;
      LFs EvExists; LFs (EvRead true); LFs (EvUnlink Release)],
     World None 10, Proc (Done false) (js "done") 10).
Proof.
  apply (@uncontended_call (Config true 30000) plainHostname (fun _ => true) 42%Z false
           (js "done") 0%Z 10%Z 6%nat); [reflexivity|lia].
Defined.

Section SpeakOnce.
Variable cfg : config.
Variable urlHostname : jsstring -> option jsstring.
Variable isPidAlive : Z -> bool.
Variable self : Z.



End SpeakOnce.


Section NoForcedDelete.
Variable cfg : config.
Variable urlHostname : jsstring -> option jsstring.
Variable isPidAlive : Z -> bool.

Lemma pstep_patient now0 self ok w p l w' p' :
  patient now0 p ->
  (now0 <= now w)%Z ->
  (now w - now0 <= maxWaitMs cfg)%Z ->
  pstep cfg urlHostname isPidAlive self ok w p = Some (l, w', p') ->
  patient now0 p' /\ is_forced l = false /\ now w' = now w.
Proof.
  destruct p as [c text t0]. unfold pstep, patient. cbn [p_pc p_text p_start].
  unfold at_pc, normalized, acquired, not_acquired, with_lock. cbn [p_pc p_text p_start].
  intros Hp H0 Hmax.
  destruct c as [|s|s|s|s|s| | |u| | |r|r|r|r];
    repeat match goal with
           | s : site |- _ => destruct s
           | H : False |- _ => destruct H
           | |- context [(?a >? ?b)%Z] => destruct (Z.gtb_spec a b)
           | |- context [if ?b then _ else _] => destruct b
           | |- context [match lock w with _ => _ end] => destruct (lock w)
           end;
    intros [= <- <- <-]; cbn [p_pc p_start is_forced now]; try (repeat split; (lia || auto)).
Qed.

Lemma gstep_now g a ol g' :
  gstep cfg urlHostname isPidAlive g a = Some (ol, g') ->
  (now (g_world g) <= now (g_world g'))%Z.
Proof.
  destruct a as [d|i ok]; cbn [gstep].
  - destruct (Z.leb_spec 0 d); [|discriminate]. intros [= <- <-]. cbn. lia.
  - destruct (g_procs g !! i) as [p|]; [|discriminate].
    destruct (pstep _ _ _ i ok (g_world g) p) as [[[l w'] p']|] eqn:Hs; [|discriminate].
    intros [= <- <-]. cbn [g_world].
    destruct p as [c text t0]. revert Hs. unfold pstep. cbn [p_pc p_text p_start].
    unfold at_pc, normalized, acquired, not_acquired, with_lock.
    destruct c;
      repeat match goal with
             | |- context [if ?b then _ else _] => destruct b
             | |- context [match lock ?w with _ => _ end] => destruct (lock w)
             end;
      intros [= <- <- <-]; cbn [now]; lia.
Qed.

Lemma exec_now acts : forall g ls g',
  exec cfg urlHostname isPidAlive g acts = Some (ls, g') ->
  (now (g_world g) <= now (g_world g'))%Z.
Proof.
  induction acts as [|a acts IH]; intros g ls g'; cbn [exec].
  - intros [= <- <-]. lia.
  - destruct (gstep _ _ _ g a) as [[ol g1]|] eqn:Hg; [|discriminate].
    destruct (exec _ _ _ g1 acts) as [[ls1 g2]|] eqn:He; [|discriminate].
    intros [= <- <-]. pose proof (gstep_now Hg). pose proof (IH _ _ _ He). lia.
Qed.

Lemma exec_patient now0 acts : forall g ls g',
  (now0 <= now (g_world g))%Z ->
  (forall i p, g_procs g !! i = Some p -> patient now0 p) ->
  exec cfg urlHostname isPidAlive g acts = Some (ls, g') ->
  (now (g_world g') - now0 <= maxWaitMs cfg)%Z ->
  forallb (fun il => negb (is_forced (snd il))) ls = true.
Proof.
  induction acts as [|a acts IH]; intros g ls g' H0 Hall; cbn [exec].
  - intros [= <- <-] _. reflexivity.
  - destruct (gstep _ _ _ g a) as [[ol g1]|] eqn:Hg; [|discriminate].
    destruct (exec _ _ _ g1 acts) as [[ls1 g2]|] eqn:He; [|discriminate].
    intros [= <- <-] Hmax.
    pose proof (gstep_now Hg) as Hmono. pose proof (exec_now He) as Hmono'.
    destruct a as [d|i ok]; cbn [gstep] in Hg.
    + destruct (Z.leb_spec 0 d); [|discriminate]. injection Hg as <- <-.
      apply (IH _ _ _) in He; [exact He| |exact Hall|exact Hmax].
      cbn [g_world now]. lia.
    + destruct (g_procs g !! i) as [p|] eqn:Hp; [|discriminate].
      destruct (pstep _ _ _ i ok (g_world g) p) as [[[l w'] p']|] eqn:Hs; [|discriminate].
      injection Hg as <- <-. cbn [g_world] in *.
      destruct (pstep_patient (Hall _ _ Hp) H0 ltac:(lia) Hs) as (Hp' & Hl & Hnow).
      cbn [forallb snd]. rewrite Hl. cbn [negb andb].
      apply (IH _ _ _) in He; [exact He| | |exact Hmax]; cbn [g_world g_procs]; [lia|].
      intros j q. destruct (decide (j = i)) as [->|Hne].
      * rewrite lookup_insert_eq. intros [= <-]. exact Hp'.
      * rewrite lookup_insert_ne by congruence. apply Hall.
Qed.

End NoForcedDelete.

(** X5: in a run of any number of callers that start with no lock file,
    as long as the clock has not advanced by more than [maxWaitMs] since the
    start, no caller has force-deleted the lock file. *)
Theorem no_forced_delete_before_max_wait cfg urlHostname isPidAlive g acts ls g' :
  initial g ->
  exec cfg urlHostname isPidAlive g acts = Some (ls, g') ->
  (now (g_world g') - now (g_world g) <= maxWaitMs cfg)%Z ->
  forallb (fun il => negb (is_forced (snd il))) ls = true.
Proof.
  intros (_ & Hstart) He Hmax.
  apply (@exec_patient cfg urlHostname isPidAlive (now (g_world g)) acts g ls g');
    [lia| |exact He|exact Hmax].
  intros i p Hp. unfold patient. rewrite (Hstart _ _ Hp). exact I.
Qed.

Lemma no_forced_delete_before_max_wait_witness :
  forallb (fun il => negb (is_forced (snd il)))
          (match exec (Config true 30000) plainHostname (fun _ => true) two_callers
                      polite_schedule with
           | Some (ls, _) => ls
           | None => []
           end) = true.
Proof.
  destruct (exec (Config true 30000) plainHostname (fun _ => true) two_callers polite_schedule)
    as [[ls g']|] eqn:He; [|reflexivity].
  apply (@no_forced_delete_before_max_wait (Config true 30000) plainHostname (fun _ => true)
           two_callers polite_schedule ls g' initial_two_callers He).
  revert He. vm_compute. intros [= <- <-]. discriminate.
Defined.

(** ** The text normaliser (lib/tts/normalizer.ts) *)

Lemma double_space_cons c t :
  double_space (c :: t) = (is_char " " c && starts_sp t) || double_space t.
Proof.
  destruct t; cbn [double_space starts_sp]; [rewrite andb_false_r|]; reflexivity.
Qed.

Lemma span_spaces t :
  exists run rest,
    t = run ++ rest
    /\ forallb (in_cls false (Cls false [one " "])) run = true
    /\ stops false (Cls false [one " "]) rest.
Proof.
  induction t as [|c t (run & rest & -> & Hrun & Hstop)].
  - exists [], []. repeat split.
  - destruct (in_cls false (Cls false [one " "]) c) eqn:Hc.
    + exists (c :: run), rest. cbn [forallb app]. rewrite Hc. auto.
    + exists [], (c :: run ++ rest). repeat split. exact Hc.
Qed.

Lemma stops_starts_sp rest : stops false (Cls false [one " "]) rest -> starts_sp rest = false.
Proof.
  destruct rest as [|c t]; [reflexivity|]. cbn [stops starts_sp].
  rewrite in_cls_one. auto.
Qed.

Lemma no_space_pair prev rest :
  stops false (Cls false [one " "]) rest ->
  m false re_spaces (prev, ch " " :: rest) = [].
Proof.
  intros Hstop. unfold re_spaces. cbn [m]. fold (first false (lit1 " ")).
  change (m false (lit1 " ") (prev, ch " " :: rest)) with [(Some (ch " "), rest)].
  cbn [flat_map]. rewrite app_nil_r. unfold plus. cbn [m snd].
  destruct rest as [|c t]; [reflexivity|].
  cbn [length rep more]. cbn [stops] in Hstop.
  change (m false (lit1 " ") (Some (ch " "), c :: t))
    with (if in_cls false (Cls false [one " "]) c then [(Some c, t)] else []).
  rewrite Hstop. reflexivity.
Qed.

Lemma squeeze_tidy : forall fuel prev s,
  (length s < fuel)%nat ->
  double_space (replace_from false fuel re_spaces (fun _ => js " ") prev s) = false
  /\ (starts_sp s = false ->
      starts_sp (replace_from false fuel re_spaces (fun _ => js " ") prev s) = false).
Proof.
  induction fuel as [|fuel IH]; intros prev s Hlen; [lia|].
  cbn [replace_from]. destruct s as [|c t].
  - rewrite match_here_none by reflexivity. auto.
  - cbn [length] in Hlen. destruct (is_char " " c) eqn:Hc.
    + apply N.eqb_eq in Hc. subst c.
      destruct (span_spaces t) as (run & rest & -> & Hrun & Hstop).
      destruct run as [|c2 run].
      * cbn [app]. rewrite (match_here_none (no_space_pair prev Hstop)).
        destruct (IH (Some (ch " ")) rest ltac:(cbn [app] in Hlen; lia)) as (Hd & Hs).
        specialize (Hs (stops_starts_sp Hstop)).
        split; [|discriminate]. rewrite double_space_cons, Hs, Hd, andb_false_r. reflexivity.
      * assert (Hfirst : first false re_spaces (prev, ch " " :: (c2 :: run) ++ rest)
                         = Some (last_of (Some (ch " ")) (c2 :: run), rest)).
        { unfold re_spaces. eapply first_seq; [apply first_lit1|].
          apply first_run; [exact Hstop|exact Hrun|cbn [length]; lia]. }
        rewrite (match_here_first Hfirst). cbn [snd].
        replace (length (ch " " :: (c2 :: run) ++ rest) - length rest)%nat
          with (S (S (length run))) by (cbn [length app]; rewrite length_app; lia).
        cbn [firstn app].
        destruct (IH (last_of (Some (ch " ")) (c2 :: run)) rest
                    ltac:(cbn [length app] in Hlen; rewrite length_app in Hlen; lia))
          as (Hd & Hs).
        specialize (Hs (stops_starts_sp Hstop)).
        split; [|discriminate].
        match goal with
        | |- context [js " " ++ ?x] => change (js " " ++ x) with (ch " " :: x)
        end.
        rewrite double_space_cons, Hs, Hd, andb_false_r. reflexivity.
    + rewrite match_here_none.
      2:{ unfold re_spaces. cbn [m]. rewrite m_lit1_other; [reflexivity|exact Hc]. }
      destruct (IH (Some c) t ltac:(lia)) as (Hd & Hs).
      split.
      * rewrite double_space_cons, Hc, Hd. reflexivity.
      * intros _. cbn [starts_sp]. exact Hc.
Qed.

Lemma double_space_prefix a b : double_space (a ++ b) = false -> double_space a = false.
Proof.
  induction a as [|c a IH]; [reflexivity|]. cbn [app]. rewrite !double_space_cons.
  intros H. apply orb_false_iff in H. destruct H as (H1 & H2).
  rewrite (IH H2), orb_false_r.
  destruct a; [apply andb_false_r|exact H1].
Qed.

Lemma double_space_drop a b : double_space (a ++ b) = false -> double_space b = false.
Proof.
  induction a as [|c a IH]; [auto|]. cbn [app]. rewrite double_space_cons.
  intros H. apply orb_false_iff in H. apply IH, H.
Qed.

Lemma trim_start_suffix x : exists pre, x = pre ++ trim_start x.
Proof.
  induction x as [|c t (pre & IH)]; [exists []; reflexivity|].
  cbn [trim_start]. destruct (is_ws c).
  - exists (c :: pre). cbn [app]. congruence.
  - exists []. reflexivity.
Qed.

Lemma starts_ws_trim_start x : starts_ws (trim_start x) = false.
Proof.
  induction x as [|c t IH]; [reflexivity|]. cbn [trim_start].
  destruct (is_ws c) eqn:Hc; [exact IH|]. exact Hc.
Qed.

Lemma trim_tidy x :
  double_space x = false ->
  double_space (trim x) = false
  /\ starts_ws (trim x) = false
  /\ starts_ws (rev (trim x)) = false.
Proof.
  intros Hd. unfold trim.
  destruct (trim_start_suffix x) as (pre & Hx).
  destruct (trim_start_suffix (rev (trim_start x))) as (pre' & Hy).
  pose proof (starts_ws_trim_start x) as Hs.
  pose proof (starts_ws_trim_start (rev (trim_start x))) as Hs'.
  set (y := trim_start x) in *. set (z := trim_start (rev y)) in *.
  assert (Ey : y = rev z ++ rev pre').
  { rewrite <- (rev_involutive y), Hy, rev_app_distr. reflexivity. }
  rewrite Hx in Hd. apply double_space_drop in Hd. rewrite Ey in Hd.
  split; [apply (double_space_prefix Hd)|]. split.
  - rewrite Ey in Hs. destruct (rev z); [reflexivity|exact Hs].
  - rewrite rev_involutive. exact Hs'.
Qed.

(** X6: for every input, the text [normalizeTTSText] returns has no two
    adjacent blanks and no white space at its start or its end. *)
Theorem normalized_text_is_tidy urlHostname s :
  double_space (normalizeTTSText urlHostname s) = false
  /\ starts_ws (normalizeTTSText urlHostname s) = false
  /\ starts_ws (rev (normalizeTTSText urlHostname s)) = false.
Proof.
  unfold normalizeTTSText. cbn zeta.
  set (t := step_dotted _). unfold step_spaces, replace_all.
  apply trim_tidy, squeeze_tidy. lia.
Qed.

Lemma split_on_no_sep c s :
  Forall (fun p => forall x, In x p -> (x =? c)%N = false) (split_on c s).
Proof.
  induction s as [|x t IH]; cbn [split_on].
  - constructor; [intros x []|constructor].
  - destruct (N.eqb_spec x c) as [->|Hne].
    + constructor; [intros x []|exact IH].
    + destruct (split_on c t) as [|p ps].
      * constructor; [|constructor]. intros y [<-|[]]. apply N.eqb_neq, Hne.
      * inversion IH as [|? ? Hp Hps]; subst. constructor; [|exact Hps].
        intros y [<-|Hy]; [apply N.eqb_neq, Hne|apply Hp, Hy].
Qed.

Lemma filter_nonempty_Forall (P : jsstring -> Prop) l :
  Forall P l -> Forall P (filter_nonempty l).
Proof.
  intros H. apply List.Forall_forall. intros p Hp. apply filter_In in Hp.
  rewrite List.Forall_forall in H. apply H, Hp.
Qed.

Lemma nth_Forall (P : jsstring -> Prop) l n :
  Forall P l -> P [] -> P (nth n l []).
Proof.
  intros H Hnil. destruct (nth_in_or_default n l []) as [Hin| ->]; [|exact Hnil].
  rewrite List.Forall_forall in H. apply H, Hin.
Qed.

(** X7: for every input, [simplifyPath] returns a text with at most one
    slash, [simplifyDottedPath] one without a dot, and [simplifyHex] one of at
    most eleven code units. *)
Theorem replacements_are_short path dottedPath hex :
  (count_if (is_char "/") (simplifyPath path) <= 1)%nat
  /\ count_if (is_char ".") (simplifyDottedPath dottedPath) = 0%nat
  /\ (length (simplifyHex hex) <= 11)%nat.
Proof.
  split; [|split].
  - unfold simplifyPath.
    pose proof (filter_nonempty_Forall (split_on_no_sep (ch "/") path)) as Hseg.
    assert (Hzero : forall p, (forall x, In x p -> (x =? ch "/")%N = false) ->
                              count_if (is_char "/") p = 0%nat).
    { intros p Hp. apply count_if_none. exact Hp. }
    set (segments := filter_nonempty _) in *.
    destruct (Nat.leb_spec (length segments) 2) as [Hle|Hgt].
    + destruct segments as [|p [|q [|r l]]]; cbn [length] in Hle; try lia; cbn [join_with].
      * cbn. lia.
      * inversion Hseg; subst. rewrite Hzero by assumption. lia.
      * inversion Hseg as [|? ? Hp Hq']; subst. inversion Hq' as [|? ? Hq _]; subst.
        change (p ++ ch "/" :: q) with (p ++ [ch "/"] ++ q).
        rewrite !count_if_app, (Hzero p Hp), (Hzero q Hq).
        change (count_if (is_char "/") [ch "/"]) with 1%nat. lia.
    + assert (Hnth : forall n, count_if (is_char "/") (nth n segments []) = 0%nat).
      { intros n. apply Hzero. apply (nth_Forall (P := fun p => forall x, In x p -> _) n Hseg).
        intros x []. }
      destruct (includes_char _ _).
      * rewrite Hnth. lia.
      * match goal with
        | |- context [?a ++ ch "/" :: ?b] => change (a ++ ch "/" :: b) with (a ++ [ch "/"] ++ b)
        end.
        rewrite !count_if_app, !Hnth.
        change (count_if (is_char "/") [ch "/"]) with 1%nat. lia.
  - unfold simplifyDottedPath. apply count_if_none.
    apply (nth_Forall (P := fun p => forall x, In x p -> is_char "." x = false) _
                      (split_on_no_sep (ch ".") dottedPath)).
    intros x [].
  - unfold simplifyHex. rewrite length_app, length_firstn.
    change (length (js "hash ")) with 5%nat.
    pose proof (Nat.le_min_l 6 (length hex)). lia.
Qed.

Lemma scheme_first s rest :
  url s rest -> exists last, first false re_scheme (None, s) = Some (last, rest).
Proof.
  intros ([-> | ->] & _).
  - eexists. change re_scheme with (RSeq (lit "http") (RSeq (opt (lit1 "s")) (lit "://"))).
    change (js "http://" ++ rest) with (js "http" ++ (js "://" ++ rest)).
    eapply first_seq; [apply first_lit; discriminate|].
    eapply first_seq; [apply first_opt_skip; reflexivity|]. apply first_lit. discriminate.
  - eexists. change re_scheme with (RSeq (lit "http") (RSeq (opt (lit1 "s")) (lit "://"))).
    change (js "https://" ++ rest) with (js "http" ++ (ch "s" :: js "://" ++ rest)).
    eapply first_seq; [apply first_lit; discriminate|].
    eapply first_seq; [apply first_opt_take|]. apply first_lit. discriminate.
Qed.

Lemma replace_first_from_match icase r f prev s mt st :
  match_here icase r (prev, s) = Some (mt, st) ->
  replace_first_from icase r f prev s = f mt ++ snd st.
Proof.
  intros H. destruct s; cbn [replace_first_from]; rewrite H; destruct st; reflexivity.
Qed.

(** X8: for a URL the parser rejects, [simplifyUrl] returns what stands
    between the scheme and the first slash. *)
Theorem malformed_url_fallback urlHostname s rest :
  url s rest ->
  urlHostname s = None ->
  simplifyUrl urlHostname s = hd [] (split_on (ch "/") rest).
Proof.
  intros Hu Hnone. unfold simplifyUrl. rewrite Hnone.
  destruct (scheme_first Hu) as (last & Hfirst).
  unfold replace_first.
  rewrite (replace_first_from_match _ (match_here_first Hfirst)). reflexivity.
Qed.

Lemma malformed_url_fallback_witness :
  simplifyUrl plainHostname (js "http://exa_mple/path") = js "exa_mple".
Proof.
  apply (@malformed_url_fallback plainHostname (js "http://exa_mple/path") (js "exa_mple/path")).
  - split; [left; reflexivity|]. split; [discriminate|reflexivity].
  - reflexivity.
Defined.

(** *** A word before an absolute path *)







(** *** Relative paths of three segments *)

Lemma cls_rel_range c :
  in_cls false cls_rel c = true -> alnum c \/ c = 95%N \/ c = 46%N \/ c = 45%N.
Proof.
  unfold in_cls, cls_rel, in_ranges, range, one, alnum.
  cbn [cls_neg cls_ranges existsb fst snd xorb]. ch_values.
  rewrite !orb_true_iff, !andb_true_iff, !N.leb_le. lia.
Qed.

Lemma cls_rel_seg c : in_cls false cls_rel c = true -> in_cls false cls_seg c = true.
Proof.
  intros H. rewrite cls_seg_spec. apply cls_rel_range in H.
  destruct H as [H | [-> | [-> | ->]]]; [|reflexivity..].
  rewrite (alnum_not_ws H). pose proof (alnum_not_slash H) as Hs. unfold is_char in Hs.
  rewrite Hs. reflexivity.
Qed.

Lemma rel_name_segment g : rel_name g -> segment g.
Proof.
  intros [Hne Hall]. split; [exact Hne|].
  rewrite forallb_forall in *. intros c Hc. apply cls_rel_seg, Hall, Hc.
Qed.

Lemma slash_not_rel : in_cls false cls_rel (ch "/") = false.
Proof. reflexivity. Qed.

Lemma rel_name_no_slash g x : rel_name g -> In x g -> (x =? ch "/")%N = false.
Proof. intros H. apply segment_no_slash, rel_name_segment, H. Qed.

Lemma first_rel_dir d rest prev :
  rel_name d ->
  first false re_rel_dir (prev, d ++ ch "/" :: rest) = Some (Some (ch "/"), rest).
Proof.
  intros [Hne Hall]. unfold re_rel_dir. eapply first_seq.
  - apply first_run; [exact slash_not_rel|exact Hall|].
    destruct d; [congruence|cbn; lia].
  - apply first_lit1.
Qed.

Lemma no_rel_dir_in_file prev file : rel_name file -> m false re_rel_dir (prev, file) = [].
Proof.
  intros Hf.
  destruct (m false re_rel_dir (prev, file)) as [|st' l] eqn:E; [reflexivity|exfalso].
  assert (Hin : In st' (m false re_rel_dir (prev, file))) by (rewrite E; left; reflexivity).
  apply m_seq_inv in Hin. destruct Hin as (x & Hx & Hl).
  apply m_lit1_inv in Hl. apply m_suffix in Hx. cbn [snd] in Hx.
  assert (Hs : In (ch "/") file).
  { apply (is_suffix_in Hx). rewrite Hl. left. reflexivity. }
  pose proof (rel_name_no_slash Hf Hs) as H. rewrite N.eqb_refl in H. discriminate.
Qed.

Lemma rel3_first s d1 d2 file :
  rel_path3 s d1 d2 file ->
  exists last, first false re_rel (None, s) = Some (last, []).
Proof.
  intros (-> & H1 & H2 & Hf).
  exists (last_of (Some (ch "/")) file).
  change re_rel
    with (RSeq (RNotBehind cls_behind)
               (RSeq (RRep 2 None re_rel_dir) (plus (RChar cls_rel)))).
  eapply first_seq; [reflexivity|].
  eapply first_seq.
  - unfold first. cbn [m snd].
    set (n := length _).
    assert (Hn : (2 <= n)%nat).
    { subst n. rewrite length_app. cbn [length]. rewrite length_app. cbn [length]. lia. }
    destruct n as [|[|n]]; [lia|lia|].
    apply rep_head_step with (x := (Some (ch "/"), d2 ++ ch "/" :: file)).
    + reflexivity.
    + apply (first_rel_dir _ _ H1).
    + cbn [snd]. repeat (rewrite length_app || cbn [length]). lia.
    + cbn [pred dec].
      apply rep_head_step with (x := (Some (ch "/"), file)).
      * reflexivity.
      * apply (first_rel_dir _ _ H2).
      * cbn [snd]. repeat (rewrite length_app || cbn [length]). lia.
      * cbn [pred dec]. rewrite rep_stop; [reflexivity|].
        apply no_rel_dir_in_file, Hf.
  - rewrite <- (app_nil_r file) at 1. destruct Hf as [Hne Hall].
    apply first_run; [exact I|exact Hall|]. destruct file; [congruence|cbn; lia].
Qed.

Lemma rel3_split s d1 d2 file :
  rel_path3 s d1 d2 file ->
  filter_nonempty (split_on (ch "/") s) = [d1; d2; file].
Proof.
  intros (-> & H1 & H2 & Hf).
  rewrite split_on_app_sep by (intros x; apply (rel_name_no_slash H1)).
  rewrite split_on_app_sep by (intros x; apply (rel_name_no_slash H2)).
  rewrite split_on_none by (intros x; apply (rel_name_no_slash Hf)).
  apply filter_nonempty_id.
  repeat constructor; [apply H1|apply H2|apply Hf].
Qed.

Lemma doubled_none_of a s :
  (forall x, In x s -> is_char a x = false) -> doubled a s = false.
Proof.
  intros H. rewrite <- (app_nil_r s). rewrite doubled_run_other by exact H. reflexivity.
Qed.

Lemma rel3_counts s d1 d2 file :
  rel_path3 s d1 d2 file ->
  count_if (is_char "/") s = 2%nat /\ doubled "/" s = false.
Proof.
  intros (-> & H1 & H2 & Hf).
  assert (Hz : forall g, rel_name g -> count_if (is_char "/") g = 0%nat).
  { intros g Hg. apply count_if_none. intros c Hc. apply (rel_name_no_slash Hg Hc). }
  split.
  - change (d1 ++ ch "/" :: d2 ++ ch "/" :: file)
      with (d1 ++ [ch "/"] ++ d2 ++ [ch "/"] ++ file).
    rewrite !count_if_app, (Hz _ H1), (Hz _ H2), (Hz _ Hf).
    change (count_if (is_char "/") [ch "/"]) with 1%nat. lia.
  - rewrite doubled_run_other by (intros x; apply (rel_name_no_slash H1)).
    rewrite (doubled_sep_segment _ (rel_name_segment H2)).
    assert (Hno : forall x, In x file -> is_char "/" x = false)
      by (intros x; apply (rel_name_no_slash Hf)).
    destruct Hf as [Hne Hall]. destruct file as [|c t]; [congruence|].
    rewrite doubled_cons_next by (apply Hno; left; reflexivity).
    apply doubled_none_of. exact Hno.
Qed.

Lemma simplifyPath_rel3 s d1 d2 file :
  rel_path3 s d1 d2 file -> simplifyPath s = short_path [d1; d2] file.
Proof.
  intros H. unfold simplifyPath, short_path. rewrite (rel3_split H). reflexivity.
Qed.

Lemma step_rel_paths_rel3 s d1 d2 file :
  rel_path3 s d1 d2 file -> step_rel_paths s = short_path [d1; d2] file.
Proof.
  intros H. destruct (rel3_first H) as (last & Hfirst).
  unfold step_rel_paths. rewrite replace_all_whole with (last := last).
  - rewrite (rel3_split H). cbn [length Nat.ltb Nat.leb]. apply (simplifyPath_rel3 H).
  - destruct H as (-> & [Hne _] & _). destruct d1; [congruence|discriminate].
  - exact Hfirst.
  - apply (@no_match_by_count "/" re_rel 2 []); [vm_compute; lia|cbn; lia|].
    apply is_suffix_refl.
Qed.

(** X10: a relative path of three segments, standing alone, is replaced by
    its file when that has a dot, else by parent/file (when that short form is
    in simplified form). *)
Theorem relative_path_spoken_short urlHostname s d1 d2 file :
  rel_path3 s d1 d2 file ->
  simplified (short_path [d1; d2] file) = true ->
  normalizeTTSText urlHostname s = short_path [d1; d2] file.
Proof.
  intros H Hsimp. destruct (rel3_counts H) as (Hcount & Hdoubled).
  rewrite normalize_steps, (step_urls_no_slashes urlHostname Hdoubled).
  unfold after_urls.
  assert (Habs : step_abs_paths s = s).
  { apply replace_all_no_match.
    apply (@no_match_by_count "/" re_abs 3 s); [vm_compute; lia|lia]. }
  rewrite Habs, (step_rel_paths_rel3 H).
  apply simplified_parts in Hsimp.
  destruct Hsimp as (_ & Hslash & Hdot & Hhex & Hsp & Hws1 & Hws2).
  rewrite step_hex_id by exact Hhex.
  rewrite step_dotted_id by exact Hdot. apply step_spaces_id; assumption.
Qed.

Lemma relative_path_spoken_short_witness :
  normalizeTTSText plainHostname (js "src/components/Button.tsx") = js "Button.tsx".
Proof.
  apply (@relative_path_spoken_short plainHostname (js "src/components/Button.tsx")
           (js "src") (js "components") (js "Button.tsx")).
  - split; [reflexivity|]. repeat split; discriminate || reflexivity.
  - reflexivity.
Defined.

(** *** Text with nothing to simplify *)

Lemma dot_letters_suffix suf t : is_suffix suf t -> (dot_letters suf <= dot_letters t)%nat.
Proof.
  intros [pre ->]. induction pre as [|c pre IH]; [cbn [app]; lia|].
  cbn [app dot_letters]. destruct (_ && _); lia.
Qed.

Lemma rep_inv_lo step : forall fuel lo hi st y,
  In y (rep step fuel (S lo) hi st) ->
  exists x fuel', In x (step st) /\ In y (rep step fuel' lo (dec hi) x).
Proof.
  intros [|fuel] lo hi st y; cbn [rep Nat.eqb]; [intros []|].
  rewrite app_nil_r. destruct (more hi); [|intros []].
  intros H. apply in_flat_map in H. destruct H as (x & Hx & Hy).
  destruct (Nat.ltb _ _); [|destruct Hy]. exists x, fuel. auto.
Qed.

Lemma m_dot_ident_inv st st' :
  In st' (m false re_dot_ident st) ->
  (1 + dot_letters (snd st') <= dot_letters (snd st))%nat.
Proof.
  unfold re_dot_ident, re_ident. intros H.
  apply m_seq_inv in H. destruct H as (x & Hx & H).
  apply m_lit1_inv in Hx.
  apply m_seq_inv in H. destruct H as (y & Hy & H).
  apply m_suffix in H.
  destruct x as [px [|c t]]; cbn [m snd] in Hy; [destruct Hy|].
  destruct (in_cls false cls_alpha c) eqn:Hc; [|destruct Hy].
  destruct Hy as [<-|[]]. cbn [snd] in *. rewrite Hx. cbn [dot_letters].
  unfold is_char at 1. rewrite N.eqb_refl, Hc. cbn [andb].
  pose proof (dot_letters_suffix H).
  pose proof (@dot_letters_suffix t (c :: t) (is_suffix_tail c (is_suffix_refl t))). lia.
Qed.

Lemma dotted_match_dot_letters prev suf st' :
  In st' (m false re_dotted (prev, suf)) -> (3 <= dot_letters suf)%nat.
Proof.
  change re_dotted
    with (RSeq RWordB (RSeq re_ident (RSeq (RRep 3 None re_dot_ident) RWordB))).
  intros H.
  apply m_seq_inv in H. destruct H as (x1 & H1 & H). apply m_suffix in H1.
  apply m_seq_inv in H. destruct H as (x2 & H2 & H). apply m_suffix in H2.
  apply m_seq_inv in H. destruct H as (x3 & H3 & _).
  cbn [m] in H3.
  apply rep_inv_lo in H3. destruct H3 as (y1 & f1 & Hy1 & H3).
  apply rep_inv_lo in H3. destruct H3 as (y2 & f2 & Hy2 & H3).
  apply rep_inv_lo in H3. destruct H3 as (y3 & f3 & Hy3 & _).
  apply m_dot_ident_inv in Hy1, Hy2, Hy3.
  pose proof (dot_letters_suffix (is_suffix_trans H2 H1)). cbn [snd] in *. lia.
Qed.

Lemma step_dotted_plain t : (dot_letters t < 3)%nat -> step_dotted t = t.
Proof.
  intros H. apply replace_all_no_match. intros prev suf Hs.
  destruct (m false re_dotted (prev, suf)) as [|st' l] eqn:E; [reflexivity|exfalso].
  assert (Hin : In st' (m false re_dotted (prev, suf))) by (rewrite E; left; reflexivity).
  apply dotted_match_dot_letters in Hin. pose proof (dot_letters_suffix Hs). lia.
Qed.

(** X11: [normalizeTTSText] returns unchanged a text with fewer than two
    slashes, fewer than three dots followed by a letter, no run of eight
    hexadecimal digits, no two adjacent blanks and no white space at either
    end. *)
Theorem plain_text_is_unchanged urlHostname t :
  (count_if (is_char "/") t < 2)%nat ->
  (dot_letters t < 3)%nat ->
  (max_run is_hex t < 8)%nat ->
  double_space t = false ->
  starts_ws t = false ->
  starts_ws (rev t) = false ->
  normalizeTTSText urlHostname t = t.
Proof.
  intros Hslash Hdot Hhex Hsp Hws1 Hws2.
  rewrite normalize_steps. unfold after_urls.
  assert (Hurl : step_urls urlHostname t = t).
  { apply replace_all_no_match.
    apply (@no_match_by_count "/" re_url 2 t); [vm_compute; lia|lia]. }
  rewrite Hurl, step_abs_paths_id by lia.
  rewrite step_rel_paths_id by exact Hslash. rewrite step_hex_id by exact Hhex.
  rewrite step_dotted_plain by exact Hdot. apply step_spaces_id; assumption.
Qed.

Lemma plain_text_is_unchanged_witness :
  normalizeTTSText plainHostname (js "hooks: Done, Jeff. I edited config.ts.")
  = js "hooks: Done, Jeff. I edited config.ts.".
Proof.
  apply (@plain_text_is_unchanged plainHostname (js "hooks: Done, Jeff. I edited config.ts."));
    (vm_compute; (reflexivity || lia)).
Defined.

(** *** The four documented kinds of input *)

(** X12: a string of hexadecimal digits becomes "hash " and its first six
    digits when it has eight digits or more, among them a decimal digit and a
    letter; else it stays as it is. *)
Theorem hex_string_becomes_hash urlHostname s :
  forallb is_hex s = true ->
  normalizeTTSText urlHostname s
  = if Nat.leb 8 (length s) && (test false re_digit s && test true re_af s)
    then js "hash " ++ firstn 6 s else s.
Proof. apply normalize_hex. Qed.

Lemma hex_string_becomes_hash_witness :
  normalizeTTSText plainHostname sample_hex = js "hash a1b2c3".
Proof.
  apply (@hex_string_becomes_hash plainHostname sample_hex). reflexivity.
Defined.

(** X13: a dotted identifier of four segments or more, not ending in a
    known extension and without a run of eight hexadecimal digits, is replaced
    by its last segment. *)
Theorem dotted_identifier_becomes_last_segment urlHostname s w ws :
  dotted s w ws ->
  test true re_known_ext s = false ->
  (max_run is_hex s < 8)%nat ->
  normalizeTTSText urlHostname s = List.last (w :: ws) [].
Proof. intros Hd Hext Hhex. apply (normalize_dotted urlHostname Hd Hext Hhex). Qed.

Lemma dotted_identifier_becomes_last_segment_witness :
  normalizeTTSText plainHostname sample_dotted = js "BarService".
Proof.
  apply (@dotted_identifier_becomes_last_segment plainHostname sample_dotted (js "com")
           (map js ["example"; "foo"; "BarService"]%string) sample_dotted_is_dotted).
  - reflexivity.
  - vm_compute. lia.
Defined.

(** X14: an absolute path of four segments or more, standing alone, is
    replaced by its file when that has a dot, else by parent/file (when that
    short form is in simplified form). *)
Theorem absolute_path_becomes_short urlHostname s dirs file :
  abs_path s dirs file ->
  simplified (short_path dirs file) = true ->
  normalizeTTSText urlHostname s = short_path dirs file.
Proof.
  intros Ha Hs. rewrite <- (simplifyPath_abs Ha) in *.
  apply (normalize_abs_path urlHostname Ha Hs).
Qed.

Lemma absolute_path_becomes_short_witness :
  normalizeTTSText plainHostname sample_path = js "config.ts".
Proof.
  apply (@absolute_path_becomes_short plainHostname sample_path
           (map js ["Users"; "jeff"; "dev"; "hooks"; "lib"]%string) (js "config.ts")
           sample_path_is_abs_path).
  reflexivity.
Defined.

(** A one-character pattern replaces character by character. *)
Lemma replace_from_char k f : forall fuel prev s,
  (length s < fuel)%nat ->
  replace_from false fuel (RChar k) f prev s
  = flat_map (fun c => if in_cls false k c then f [c] else [c]) s.
Proof.
  induction fuel as [|fuel IH]; intros prev s Hlen; [lia|].
  destruct s as [|c t]; [reflexivity|]. cbn [length] in Hlen.
  cbn [replace_from flat_map]. unfold match_here. cbn [m snd].
  destruct (in_cls false k c).
  - cbn [snd length]. replace (S (length t) - length t)%nat with 1%nat by lia.
    cbn [firstn]. rewrite IH by lia. reflexivity.
  - rewrite IH by lia. reflexivity.
Qed.

Lemma replace_all_char k f s :
  replace_all false (RChar k) f s
  = flat_map (fun c => if in_cls false k c then f [c] else [c]) s.
Proof. apply replace_from_char. lia. Qed.

(** What a literal matches is the literal. *)
Lemma m_lit_list_inv l : forall st st',
  In st' (m false (lit_list l) st) -> snd st = map ch l ++ snd st'.
Proof.
  induction l as [|a l IH]; intros st st' H.
  - cbn [lit_list m] in H. rewrite rep_done in H. destruct H as [<-|[]]. reflexivity.
  - destruct l as [|b l].
    + apply m_lit1_inv in H. exact H.
    + change (lit_list (a :: b :: l)) with (RSeq (lit1 a) (lit_list (b :: l))) in H.
      apply m_seq_inv in H. destruct H as (x & Hx & H).
      apply m_lit1_inv in Hx. apply IH in H. rewrite Hx, H. reflexivity.
Qed.

Lemma starts_with_app p s : starts_with p s = true -> s = p ++ skipn (length p) s.
Proof.
  revert s. induction p as [|a p IH]; intros s H; [reflexivity|].
  destruct s as [|b s]; [discriminate|]. cbn [starts_with] in H.
  apply andb_true_iff in H. destruct H as (Hab & H). apply N.eqb_eq in Hab. subst b.
  cbn [length skipn app]. f_equal. apply IH, H.
Qed.

Lemma starts_with_prefix p s : starts_with p (p ++ s) = true.
Proof.
  induction p as [|a p IH]; [destruct s; reflexivity|].
  cbn [app starts_with]. rewrite N.eqb_refl. exact IH.
Qed.

Lemma replace_first_from_bol f : forall s c,
  replace_first_from false re_www f (Some c) s = s.
Proof.
  induction s as [|d s IH]; intros c; cbn [replace_first_from];
    (rewrite match_here_none by reflexivity); [reflexivity|].
  rewrite IH. reflexivity.
Qed.

Lemma strip_www_spec host :
  replace_first false re_www (fun _ => []) host = strip_www host.
Proof.
  unfold strip_www, replace_first.
  destruct (starts_with (js "www.") host) eqn:Hw.
  - apply starts_with_app in Hw. change (length (js "www.")) with 4%nat in Hw.
    assert (Hfirst : first false re_www (None, host)
                     = Some (Some (ch "."), skipn 4 host)).
    { rewrite Hw at 1.
      change re_www with (RSeq RBol (RSeq (lit "www") (lit1 "."))).
      eapply first_seq; [reflexivity|].
      change (js "www." ++ skipn 4 host) with (js "www" ++ ch "." :: skipn 4 host).
      eapply first_seq; [apply first_lit; discriminate|]. apply first_lit1. }
    rewrite (replace_first_from_match _ (match_here_first Hfirst)). reflexivity.
  - assert (Hnone : m false re_www (None, host) = []).
    { destruct (m false re_www (None, host)) as [|st' l] eqn:E; [reflexivity|exfalso].
      assert (Hin : In st' (m false re_www (None, host))) by (rewrite E; left; reflexivity).
      change re_www with (RSeq RBol (RSeq (lit "www") (lit1 "."))) in Hin.
      apply m_seq_inv in Hin. destruct Hin as (x & Hx & Hin).
      destruct Hx as [<-|[]].
      apply m_seq_inv in Hin. destruct Hin as (y & Hy & Hin).
      apply m_lit_list_inv in Hy. apply m_lit1_inv in Hin. cbn [snd] in Hy.
      rewrite Hin in Hy.
      change (map ch (list_ascii_of_string "www") ++ ch "." :: snd st')
        with (js "www." ++ snd st') in Hy.
      rewrite Hy, starts_with_prefix in Hw. discriminate. }
    destruct host as [|c t]; cbn [replace_first_from]; rewrite (match_here_none Hnone);
      [reflexivity|].
    rewrite replace_first_from_bol. reflexivity.
Qed.

Lemma simplifyUrl_host urlHostname s host :
  urlHostname s = Some host ->
  simplifyUrl urlHostname s = speak_dots (strip_www host).
Proof.
  intros H. unfold simplifyUrl. rewrite H, strip_www_spec.
  unfold re_dot, lit1. rewrite replace_all_char. unfold speak_dots.
  apply flat_map_ext. intros c. rewrite in_cls_one. reflexivity.
Qed.

(** X15: a URL standing alone, which the parser accepts, is replaced by its
    host without a leading "www." and with " dot " for each dot (when that
    text is in simplified form); the path and the query are dropped, a
    subdomain is kept. *)
Theorem url_becomes_spoken_host urlHostname s rest host :
  url s rest ->
  urlHostname s = Some host ->
  simplified (speak_dots (strip_www host)) = true ->
  normalizeTTSText urlHostname s = speak_dots (strip_www host).
Proof.
  intros Hu Hhost Hs. rewrite <- (simplifyUrl_host Hhost) in *. apply (normalize_url Hu Hs).
Qed.

Lemma url_becomes_spoken_host_witness :
  normalizeTTSText plainHostname (js "https://www.example.com/v2/users?q=1")
  = js "example dot com".
Proof.
  apply (@url_becomes_spoken_host plainHostname (js "https://www.example.com/v2/users?q=1")
           (js "www.example.com/v2/users?q=1") (js "www.example.com")).
  - split; [right; reflexivity|]. split; [discriminate|reflexivity].
  - reflexivity.
  - reflexivity.
Defined.

(** ** The resolver, the activity log and the backends *)




(** X18: a backend that [resolveTTSProvider] returns is registered under a
    name of the priority list, and [getAllProviders] lists that name as
    available. *)
Theorem resolved_provider_is_listed e priority p :
  resolveTTSProvider e priority = Some (Some p) ->
  exists name,
    In name priority
    /\ PROVIDERS !! name = Some p
    /\ In (name, true) (Providers.getAllProviders e).
Proof.
  unfold resolveTTSProvider.
  induction priority as [|name rest IH]; cbn [resolve]; [discriminate|].
  unfold get. destruct (PROVIDERS !! name) as [q|] eqn:Hq.
  - destruct (isAvailable e q) eqn:Ha.
    + intros [= ->]. exists name. split; [left; reflexivity|]. split; [exact Hq|].
      unfold Providers.getAllProviders.
      apply in_map_iff. exists (name, p). cbn [fst snd]. rewrite Ha. split; [reflexivity|].
      apply (elem_of_list_to_map_2 (M := gmap jsstring)) in Hq.
      apply list_elem_of_In in Hq. exact Hq.
    + intros H. destruct (IH H) as (n & Hin & Hrest). exists n. split; [right; exact Hin|exact Hrest].
  - destruct (existsb _ _); [discriminate|].
    intros H. destruct (IH H) as (n & Hin & Hrest). exists n. split; [right; exact Hin|exact Hrest].
Qed.

Lemma resolved_provider_is_listed_witness :
  exists name,
    In name [js "nope"; js "native"]
    /\ PROVIDERS !! name = Some Native
    /\ In (name, true)
          (Providers.getAllProviders (Environment true false false false false false)).
Proof.
  apply (@resolved_provider_is_listed (Environment true false false false false false)
           [js "nope"; js "native"] Native).
  vm_compute. reflexivity.
Defined.

(** ** The activity log *)

(** X19: calling [appendToJsonLog] for one entry after the other leaves a
    log that holds what the first call read (nothing, from a missing or
    corrupt file) followed by every entry in order, where [JSON.parse] reads
    back the arrays that were written in between. *)
Theorem log_keeps_every_entry JSON_parse JSON_stringify file entries :
  entries <> [] ->
  (forall k, (0 < k < length entries)%nat ->
             JSON_parse (JSON_stringify (JArr (read_log JSON_parse file ++ firstn k entries)))
             = Returns (JArr (read_log JSON_parse file ++ firstn k entries))) ->
  log_all JSON_parse JSON_stringify file entries
  = Some (JSON_stringify (JArr (read_log JSON_parse file ++ entries))).
Proof.
  unfold log_all. set (l0 := read_log JSON_parse file).
  assert (Hgen : forall es done f,
             read_log JSON_parse f = l0 ++ done ->
             (forall k, (0 < k < length es)%nat ->
                        JSON_parse (JSON_stringify (JArr (l0 ++ done ++ firstn k es)))
                        = Returns (JArr (l0 ++ done ++ firstn k es))) ->
             es <> [] ->
             fold_left (fun f entry => snd (appendToJsonLog JSON_parse JSON_stringify f entry))
                       es f
             = Some (JSON_stringify (JArr (l0 ++ done ++ es)))).
  { induction es as [|e es IH]; intros done f Hf Hround Hne; [congruence|].
    cbn [fold_left]. unfold appendToJsonLog at 2. cbn [snd]. rewrite Hf.
    destruct es as [|e2 es].
    - cbn [fold_left]. rewrite <- app_assoc. reflexivity.
    - replace (l0 ++ done ++ e :: e2 :: es) with (l0 ++ (done ++ [e]) ++ e2 :: es)
        by (rewrite <- (app_assoc done); reflexivity).
      apply IH; [| |discriminate].
      + unfold read_log.
        replace ((l0 ++ done) ++ [e]) with (l0 ++ done ++ firstn 1 (e :: e2 :: es))
          by (rewrite app_assoc; reflexivity).
        rewrite Hround by (cbn [length]; lia).
        cbn [firstn]. rewrite app_assoc. reflexivity.
      + intros k Hk.
        replace (l0 ++ (done ++ [e]) ++ firstn k (e2 :: es))
          with (l0 ++ done ++ firstn (S k) (e :: e2 :: es))
          by (cbn [firstn]; rewrite <- (app_assoc done); reflexivity).
        apply Hround. cbn [length] in *. lia. }
  intros Hne Hround.
  specialize (Hgen entries [] file). cbn [app] in Hgen. apply Hgen.
  - rewrite app_nil_r. reflexivity.
  - exact Hround.
  - exact Hne.
Qed.

Lemma log_keeps_every_entry_witness :
  log_all marks_parse marks_stringify (Some (js "{oops")) [JNull; JNull; JNull]
  = Some (marks_stringify (JArr [JNull; JNull; JNull])).
Proof.
  apply (@log_keeps_every_entry marks_parse marks_stringify (Some (js "{oops"))
           [JNull; JNull; JNull]).
  - discriminate.
  - intros [|[|[|k]]] Hk; cbn [length] in Hk; try lia; reflexivity.
Defined.

(** ** The backends *)


(** X21: the ElevenLabs backend resolves without having played in exactly
    two cases: the player was started and exited with a code that is not 0;
    or the player was not reached and the native backend is not available
    (the platform is not macOS). *)
Theorem elevenlabs_swallows_exactly pf f write afplay say1 say2 :
  swallowed (elevenlabs_speak pf f write afplay say1 say2)
  = if reaches_player f write afplay then negb (exit_ok afplay)
    else negb (native_isAvailable pf).
Proof.
  assert (Hn : forall say, swallowed (native_speak say) = false)
    by apply native_never_swallows.
  assert (Hf : forall say,
             swallowed (native_fallback pf say) = negb (native_isAvailable pf)).
  { intros say. unfold native_fallback. destruct (native_isAvailable pf); [apply Hn|reflexivity]. }
  unfold elevenlabs_speak, reaches_player.
  destruct f as [|[|] status text].
  - destruct afplay; apply Hf.
  - destruct write, afplay as [code|]; try apply Hf.
    cbn [exit_ok]. unfold swallowed. cbn [out spoke].
    destruct code; reflexivity.
  - assert (Hq : swallowed
                   (if quota_exceeded text
                    then if native_isAvailable pf
                         then match out (native_speak say1) with
                              | Resolved => native_speak say1
                              | Rejected => native_fallback pf say2
                              end
                         else Result Resolved false
                    else native_fallback pf say1)
                 = negb (native_isAvailable pf)).
    { destruct (quota_exceeded text); [|apply Hf].
      destruct (native_isAvailable pf) eqn:Hp; [|reflexivity].
      destruct (out (native_speak say1)) eqn:Ho; [apply Hn|].
      unfold native_fallback. rewrite Hp. apply Hn. }
    destruct afplay; exact Hq.
Qed.

(** X22: on macOS, where [say] works, every failure of the ElevenLabs
    backend before its player is started (a rejected fetch, a response that is
    not ok, a quota error, a file that cannot be written, a player that cannot
    be spawned) ends with the text spoken by [say] and the promise
    resolved. *)
Theorem elevenlabs_falls_back_to_say f write afplay say2 :
  reaches_player f write afplay = false ->
  elevenlabs_speak Darwin f write afplay (Some 0%Z) say2 = Result Resolved true.
Proof.
  unfold elevenlabs_speak, reaches_player, native_fallback.
  destruct f as [|[|] status text]; cbn [native_isAvailable native_speak out Z.eqb].
  - reflexivity.
  - destruct write; [|reflexivity]. destruct afplay; [discriminate|reflexivity].
  - destruct (quota_exceeded text); reflexivity.
Qed.

Lemma elevenlabs_falls_back_to_say_witness :
  elevenlabs_speak Darwin (Response false 401 (js "quota_exceeded")) true None (Some 0%Z) None
  = Result Resolved true.
Proof.
  apply (@elevenlabs_falls_back_to_say (Response false 401 (js "quota_exceeded")) true None None).
  reflexivity.
Defined.

(** ** Quoting for PowerShell, and the configuration *)

Lemma double_quotes_spec text :
  Playback.double_quotes text
  = flat_map (fun c => if is_char "'" c then js "''" else [c]) text.
Proof.
  unfold Playback.double_quotes, Playback.re_quote, lit1. rewrite replace_all_char.
  apply flat_map_ext. intros c. rewrite in_cls_one. reflexivity.
Qed.

Lemma double_quotes_paired text : paired_quotes (Playback.double_quotes text) = true.
Proof.
  rewrite double_quotes_spec. induction text as [|c t IH]; [reflexivity|].
  cbn [flat_map]. destruct (is_char "'" c) eqn:Hc.
  - change (js "''" ++ ?x) with (ch "'" :: ch "'" :: x). cbn [paired_quotes].
    unfold is_char at 1 2. rewrite N.eqb_refl. exact IH.
  - cbn [app paired_quotes]. rewrite Hc. exact IH.
Qed.

Lemma count_if_cons P c t :
  count_if P (c :: t) = ((if P c then 1 else 0) + count_if P t)%nat.
Proof. unfold count_if. cbn [List.filter]. destruct (P c); reflexivity. Qed.

Lemma double_quotes_keeps_out a text :
  is_char a (ch "'") = false ->
  count_if (is_char a) text = 0%nat ->
  count_if (is_char a) (Playback.double_quotes text) = 0%nat.
Proof.
  intros Ha. rewrite double_quotes_spec. induction text as [|c t IH]; [reflexivity|].
  rewrite count_if_cons. cbn [flat_map]. rewrite count_if_app. intros H.
  rewrite IH by lia. destruct (is_char "'" c) eqn:Hq.
  - change (js "''") with [ch "'"; ch "'"]. rewrite !count_if_cons, Ha. reflexivity.
  - rewrite count_if_cons. destruct (is_char a c); [lia|reflexivity].
Qed.

(** X23: in the PowerShell scripts of [speakNative] and [playAudioFile],
    every apostrophe of the text and of the file URI is doubled, so none
    stands alone inside the quoted literal, and the URI holds no
    backslash. *)
Theorem powershell_quotes_are_doubled text filePath :
  paired_quotes (Playback.double_quotes text) = true
  /\ paired_quotes (Playback.safeUri filePath) = true
  /\ count_if (is_char "\") (Playback.safeUri filePath) = 0%nat.
Proof.
  split; [apply double_quotes_paired|]. split; [apply double_quotes_paired|].
  unfold Playback.safeUri. apply double_quotes_keeps_out; [reflexivity|].
  unfold Playback.fileUri. rewrite count_if_app.
  change (count_if (is_char "\") (js "file:///")) with 0%nat.
  unfold Playback.re_backslash, lit1. rewrite replace_all_char.
  induction filePath as [|c t IH]; [reflexivity|].
  cbn [flat_map]. rewrite count_if_app. rewrite in_cls_one.
  fold (is_char "\" c). destruct (is_char "\" c) eqn:Hc.
  - change (count_if (is_char "\") (js "/")) with 0%nat. exact IH.
  - rewrite count_if_cons, Hc. exact IH.
Qed.

(** ** Objects *)

Lemma str_eqb_refl a : str_eqb a a = true.
Proof. unfold str_eqb. destruct (decide (a = a)); congruence. Qed.

Lemma str_eqb_neq a b : a <> b -> str_eqb a b = false.
Proof. unfold str_eqb. destruct (decide (a = b)); congruence. Qed.

Lemma str_eqb_eq a b : str_eqb a b = true -> a = b.
Proof. unfold str_eqb. destruct (decide (a = b)); congruence. Qed.

Lemma own_overwrite_same o k v : own o k <> None -> own (overwrite o k v) k = Some v.
Proof.
  induction o as [|[k' w] o IH]; cbn [own overwrite]; [congruence|].
  destruct (str_eqb k' k) eqn:E; cbn [own]; rewrite E; auto.
Qed.

Lemma own_overwrite_other o k v k' : k <> k' -> own (overwrite o k v) k' = own o k'.
Proof.
  intros Hne. induction o as [|[k0 w] o IH]; cbn [own overwrite]; [reflexivity|].
  destruct (str_eqb k0 k) eqn:E; cbn [own].
  - apply str_eqb_eq in E. subst k0. rewrite (str_eqb_neq Hne). reflexivity.
  - rewrite IH. reflexivity.
Qed.

Lemma own_app o k v k' :
  own (o ++ [(k, v)]) k'
  = match own o k' with
    | Some w => Some w
    | None => if str_eqb k k' then Some v else None
    end.
Proof.
  induction o as [|[k0 w] o IH]; cbn [own app]; [reflexivity|].
  destruct (str_eqb k0 k'); [reflexivity|exact IH].
Qed.

Lemma own_assign_same o k v : k <> js "__proto__" -> own (assign o k v) k = Some v.
Proof.
  intros Hk. unfold assign. destruct (own o k) eqn:E.
  - apply own_overwrite_same. congruence.
  - rewrite (str_eqb_neq Hk), own_app, E, str_eqb_refl. reflexivity.
Qed.

Lemma own_assign_other o k v k' : k <> k' -> own (assign o k v) k' = own o k'.
Proof.
  intros Hne. unfold assign. destruct (own o k) eqn:E.
  - apply own_overwrite_other, Hne.
  - destruct (str_eqb k (js "__proto__")); [reflexivity|].
    rewrite own_app, (str_eqb_neq Hne). destruct (own o k'); reflexivity.
Qed.

Lemma own_None_not_in o k : own o k = None -> ~ In k (map fst o).
Proof.
  induction o as [|[k0 w] o IH]; cbn [own map fst In]; [tauto|].
  destruct (str_eqb k0 k) eqn:E; [discriminate|].
  intros H [->|Hin]; [rewrite str_eqb_refl in E; discriminate|]. exact (IH H Hin).
Qed.

Lemma not_in_own_None o k : ~ In k (map fst o) -> own o k = None.
Proof.
  induction o as [|[k0 w] o IH]; cbn [own map fst In]; [reflexivity|].
  intros H. rewrite str_eqb_neq by tauto. apply IH. tauto.
Qed.

(** ** The configuration *)

Lemma deepMerge_loop target : forall src result key,
  key <> js "__proto__" ->
  List.NoDup (map fst src) ->
  own ((fix loop (src : fields) (result : fields) {struct src} : fields :=
          match src with
          | [] => result
          | (key, sv) :: src' =>
              loop src'
                   (match sv, own target key with
                    | JObj _, Some (JObj tv) =>
                        assign result key (JObj (Config.deepMerge_json tv sv))
                    | _, _ => assign result key sv
                    end)
          end) src result) key
  = match own src key with
    | Some sv => Some (merged (own target key) sv)
    | None => own result key
    end.
Proof.
  induction src as [|[k sv] src IH]; intros result key Hkey Hnd; [reflexivity|].
  cbn [map fst] in Hnd. inversion Hnd as [|? ? Hnotin Hnd']; subst.
  rewrite IH by assumption. cbn [own].
  destruct (str_eqb k key) eqn:E.
  - apply str_eqb_eq in E. subst k. rewrite (not_in_own_None Hnotin).
    unfold merged, Config.deepMerge.
    destruct sv; try (rewrite own_assign_same by exact Hkey; reflexivity).
    destruct (own target key) as [[]|]; rewrite own_assign_same by exact Hkey; reflexivity.
  - assert (Hne : k <> key) by (intros ->; rewrite str_eqb_refl in E; discriminate).
    destruct (own src key); [reflexivity|].
    destruct sv; try (apply own_assign_other, Hne).
    destruct (own target k) as [[]|]; apply own_assign_other, Hne.
Qed.

(** X24: the own property [key] (other than [__proto__]) of
    [deepMerge(target, source)]: where the source has it, the merge of the two
    values when both are objects and else the source's value (a null or an
    array of the source replaces the target's value); where the source lacks
    it, the target's. *)
Theorem deepMerge_by_key target source key :
  List.NoDup (map fst source) ->
  key <> js "__proto__" ->
  own (Config.deepMerge target source) key
  = match own source key with
    | Some sv => Some (merged (own target key) sv)
    | None => own target key
    end.
Proof.
  intros Hnd Hkey. unfold Config.deepMerge. cbn [Config.deepMerge_json].
  apply deepMerge_loop; assumption.
Qed.

Lemma deepMerge_by_key_witness :
  let target := [(js "tts", JObj [(js "enabled", JBool true);
                                  (js "queue", JObj [(js "enabled", JBool true);
                                                     (js "maxWaitMs", JNum 30000)])])] in
  let source := [(js "tts", JObj [(js "queue", JObj [(js "enabled", JBool false)])])] in
  own (Config.deepMerge target source) (js "tts")
  = Some (JObj [(js "enabled", JBool true);
                (js "queue", JObj [(js "enabled", JBool false);
                                   (js "maxWaitMs", JNum 30000)])]).
Proof.
  cbv zeta.
  apply (@deepMerge_by_key
           [(js "tts", JObj [(js "enabled", JBool true);
                             (js "queue", JObj [(js "enabled", JBool true);
                                                (js "maxWaitMs", JNum 30000)])])]
           [(js "tts", JObj [(js "queue", JObj [(js "enabled", JBool false)])])]
           (js "tts")).
  - repeat constructor. intros [].
  - discriminate.
Defined.

(** X25: with defaults that pass the model check, a first [loadConfig]
    returns the defaults when hooks.config.json is missing or does not parse;
    it throws, caching nothing, when the file holds null; and when the file
    sets [llm] to null it throws after caching the merged configuration, which
    every later call returns. *)
Theorem loadConfig_fallbacks JSON_parse number_below DEFAULTS :
  Config.validate number_below DEFAULTS = Returns tt ->
  (forall file,
      file = None \/ (exists raw, file = Some raw /\ JSON_parse raw = Throws) ->
      Config.loadConfig JSON_parse number_below DEFAULTS None file = (Returns DEFAULTS, Some DEFAULTS))
  /\ (forall raw,
         JSON_parse raw = Returns JNull ->
         Config.loadConfig JSON_parse number_below DEFAULTS None (Some raw) = (Throws, None))
  /\ (forall raw source,
         JSON_parse raw = Returns (JObj source) ->
         List.NoDup (map fst source) ->
         own source (js "llm") = Some JNull ->
         let config := Config.deepMerge DEFAULTS source in
         Config.loadConfig JSON_parse number_below DEFAULTS None (Some raw) = (Throws, Some config)
         /\ forall file, Config.loadConfig JSON_parse number_below DEFAULTS (Some config) file
                         = (Returns config, Some config)).
Proof.
  intros Hvalid. split; [|split].
  - intros file Hfile. unfold Config.loadConfig.
    assert (E : match file with
                | Some raw => match JSON_parse raw with Returns v => v | Throws => JObj [] end
                | None => JObj []
                end = JObj []).
    { destruct Hfile as [-> | (raw & -> & ->)]; reflexivity. }
    rewrite E. cbn [Config.entries].
    change (Config.deepMerge DEFAULTS []) with DEFAULTS. rewrite Hvalid. reflexivity.
  - intros raw Hraw. unfold Config.loadConfig. rewrite Hraw. reflexivity.
  - intros raw source Hraw Hnd Hllm config. split; [|reflexivity].
    unfold Config.loadConfig. rewrite Hraw. cbn [Config.entries].
    fold config. unfold Config.validate.
    assert (E : own config (js "llm") = Some JNull).
    { unfold config, Config.deepMerge. cbn [Config.deepMerge_json].
      rewrite deepMerge_loop by (assumption || discriminate).
      rewrite Hllm. reflexivity. }
    rewrite E. reflexivity.
Qed.

Lemma loadConfig_fallbacks_witness :
  Config.loadConfig tiny_config_parse (fun _ _ => false) tiny_defaults None None
  = (Returns tiny_defaults, Some tiny_defaults)
  /\ Config.loadConfig tiny_config_parse (fun _ _ => false) tiny_defaults None (Some (js "{oops"))
     = (Returns tiny_defaults, Some tiny_defaults)
  /\ Config.loadConfig tiny_config_parse (fun _ _ => false) tiny_defaults None (Some (js "null")) = (Throws, None)
  /\ Config.loadConfig tiny_config_parse (fun _ _ => false) tiny_defaults None (Some (js "llm: null"))
     = (Throws, Some [(js "tts", JObj [(js "enabled", JBool true)]); (js "llm", JNull)]).
Proof.
  destruct (@loadConfig_fallbacks tiny_config_parse (fun _ _ => false) tiny_defaults eq_refl) as (H1 & H2 & H3).
  split; [apply H1; left; reflexivity|].
  split; [apply H1; right; exists (js "{oops"); split; reflexivity|].
  split; [apply H2; reflexivity|].
  apply (H3 (js "llm: null") [(js "llm", JNull)]).
  - reflexivity.
  - repeat constructor. intros [].
  - reflexivity.
Defined.

Lemma merge_loops_agree target src :
  List.Forall
    (fun kv => forall t,
         Templates.deepMerge_with (Some (JObj t)) (snd kv) = config_merge t (snd kv)) src ->
  forall result,
    (fix loop (src : fields) (result : fields) {struct src} : fields :=
       match src with
       | [] => result
       | (key, sv) :: src' =>
           loop src' (assign result key (Templates.deepMerge_with (own target key) sv))
       end) src result
    = (fix loop (src : fields) (result : fields) {struct src} : fields :=
         match src with
         | [] => result
         | (key, sv) :: src' =>
             loop src'
                  (match sv, own target key with
                   | JObj _, Some (JObj tv) =>
                       assign result key (JObj (Config.deepMerge_json tv sv))
                   | _, _ => assign result key sv
                   end)
         end) src result.
Proof.
  induction 1 as [|[key sv] src Hsv _ IH]; intros result; [reflexivity|].
  rewrite IH. f_equal. cbn [snd] in Hsv.
  destruct sv; try reflexivity.
  destruct (own target key) as [[]|]; try reflexivity.
  rewrite Hsv. reflexivity.
Qed.

(** X26: on two objects, the [deepMerge] of the template loader and the
    [deepMerge] of the configuration return the same object. *)
Theorem loader_merge_agrees target source :
  Templates.deepMerge (Some (JObj target)) (Some (JObj source))
  = Some (JObj (Config.deepMerge target source)).
Proof.
  unfold Templates.deepMerge, Config.deepMerge. f_equal.
  assert (H : forall v t, Templates.deepMerge_with (Some (JObj t)) v = config_merge t v).
  { induction v as [| | | | |src IH] using json_nested_ind; intros t; try reflexivity.
    unfold config_merge. cbn [Templates.deepMerge_with Config.deepMerge_json]. f_equal.
    apply merge_loops_agree, IH. }
  apply (H (JObj source) target).
Qed.

(** ** The configuration file of the command-line tool *)

Lemma get_from_set_from value : forall keys current,
  keys <> [] ->
  ~ In (js "__proto__") keys ->
  ConfigManager.get_from (JObj (ConfigManager.set_from current keys value)) keys
  = ConfigManager.Value value.
Proof.
  induction keys as [|k keys IH]; intros current Hne Hproto; [congruence|].
  assert (Hk : k <> js "__proto__") by (intros ->; apply Hproto; left; reflexivity).
  destruct keys as [|k2 keys].
  - cbn [ConfigManager.set_from ConfigManager.get_from].
    rewrite own_assign_same by exact Hk. reflexivity.
  - change (ConfigManager.set_from current (k :: k2 :: keys) value)
      with (assign current k
              (JObj (ConfigManager.set_from
                       match own current k with Some (JObj o) => o | _ => [] end
                       (k2 :: keys) value))).
    cbn [ConfigManager.get_from]. rewrite own_assign_same by exact Hk.
    apply IH; [discriminate|]. intros H. apply Hproto. right. exact H.
Qed.

Lemma split_on_cons c s : exists p ps, split_on c s = p :: ps.
Proof.
  induction s as [|x t (p & ps & IH)]; cbn [split_on]; [eauto|].
  destruct (x =? c)%N; [eauto|]. rewrite IH. eauto.
Qed.

Lemma own_set_from_other value keys current k k' :
  keys = k :: match keys with _ :: t => t | [] => [] end ->
  k <> k' ->
  own (ConfigManager.set_from current keys value) k' = own current k'.
Proof.
  intros Hkeys Hne. destruct keys as [|k0 [|k2 keys]]; [reflexivity|..];
    injection Hkeys as ->.
  - cbn [ConfigManager.set_from]. apply own_assign_other, Hne.
  - change (ConfigManager.set_from current (k :: k2 :: keys) value)
      with (assign current k
              (JObj (ConfigManager.set_from
                       match own current k with Some (JObj o) => o | _ => [] end
                       (k2 :: keys) value))).
    apply own_assign_other, Hne.
Qed.

(** X27: [getConfigValue] after [setConfigValue] on the same path (with no
    key [__proto__]) returns the value set, whatever stood on the way; a path
    that starts with another key reads what it read before. *)
Theorem config_get_after_set config dotPath value :
  ~ In (js "__proto__") (split_on (ch ".") dotPath) ->
  ConfigManager.getConfigValue (ConfigManager.setConfigValue config dotPath value) dotPath
  = ConfigManager.Value value
  /\ forall other,
       hd [] (split_on (ch ".") other) <> hd [] (split_on (ch ".") dotPath) ->
       ConfigManager.getConfigValue (ConfigManager.setConfigValue config dotPath value) other
       = ConfigManager.getConfigValue config other.
Proof.
  intros Hproto. unfold ConfigManager.getConfigValue, ConfigManager.setConfigValue.
  destruct (split_on_cons (ch ".") dotPath) as (k & ks & E). rewrite E in *.
  split.
  - apply get_from_set_from; [discriminate|exact Hproto].
  - intros other. destruct (split_on_cons (ch ".") other) as (k' & ks' & E'). rewrite E'.
    cbn [hd]. intros Hne. cbn [ConfigManager.get_from].
    rewrite (@own_set_from_other value (k :: ks) config k k' eq_refl) by congruence.
    reflexivity.
Qed.

Lemma config_get_after_set_witness :
  let config := [(js "server", JObj [(js "port", JNum 3455)]);
                 (js "tts", JObj [(js "enabled", JBool true)])] in
  ConfigManager.getConfigValue
    (ConfigManager.setConfigValue config (js "tts.queue.enabled") (JBool false))
    (js "tts.queue.enabled")
  = ConfigManager.Value (JBool false)
  /\ ConfigManager.getConfigValue
       (ConfigManager.setConfigValue config (js "tts.queue.enabled") (JBool false))
       (js "server.port")
     = ConfigManager.Value (JNum 3455).
Proof.
  cbv zeta.
  destruct (@config_get_after_set
              [(js "server", JObj [(js "port", JNum 3455)]);
               (js "tts", JObj [(js "enabled", JBool true)])]
              (js "tts.queue.enabled") (JBool false)) as (Hget & Hframe).
  - vm_compute. intros [H|[H|[H|[]]]]; discriminate.
  - split; [exact Hget|]. rewrite Hframe; [reflexivity|discriminate].
Defined.

(** ** Templates (lib/templates/loader.ts) *)

Lemma clash_starts_with p : forall q rest,
  clash p q = true -> starts_with p (q ++ rest) = false.
Proof.
  induction p as [|a p IH]; intros [|b q] rest; cbn [clash]; try discriminate.
  cbn [app starts_with]. destruct (a =? b)%N; [|reflexivity].
  cbn [negb orb andb]. apply IH.
Qed.

Lemma lit_no_match str prev s :
  starts_with (js str) s = false -> m false (lit str) (prev, s) = [].
Proof.
  intros H. destruct (m false (lit str) (prev, s)) as [|st' l] eqn:E; [reflexivity|exfalso].
  assert (Hin : In st' (m false (lit str) (prev, s))) by (rewrite E; left; reflexivity).
  apply m_lit_list_inv in Hin. cbn [snd] in Hin.
  change (map ch (list_ascii_of_string str)) with (js str) in Hin.
  rewrite Hin, starts_with_prefix in H. discriminate.
Qed.

Lemma GetSubstitution_plain matched before after v :
  forallb (fun c => negb (is_char "$" c)) v = true ->
  Templates.GetSubstitution matched before after v = v.
Proof.
  induction v as [|c t IH]; [reflexivity|]. cbn [forallb]. intros H.
  apply andb_true_iff in H. destruct H as (Hc & Ht).
  cbn [Templates.GetSubstitution]. unfold is_char in Hc.
  destruct (c =? ch "$")%N; [discriminate|]. rewrite IH by exact Ht. reflexivity.
Qed.

(** The scan copies a stretch in which the pattern clashes everywhere. *)
Lemma replace_str_skip str v rest : forall q fuel scanned,
  (forall a b, q = a ++ b -> b <> [] -> clash (js str) b = true) ->
  Templates.replace_str_from (length q + fuel) (lit str) v scanned (q ++ rest)
  = q ++ Templates.replace_str_from fuel (lit str) v (rev q ++ scanned) rest.
Proof.
  induction q as [|c q IH]; intros fuel scanned H; [reflexivity|].
  cbn [length Nat.add app Templates.replace_str_from].
  rewrite match_here_none.
  2:{ apply lit_no_match. apply (clash_starts_with (q := c :: q)).
      apply (H [] (c :: q) eq_refl). discriminate. }
  f_equal. rewrite IH.
  - cbn [rev]. rewrite <- app_assoc. reflexivity.
  - intros a b -> Hb. apply (H (c :: a) b eq_refl Hb).
Qed.

Lemma firstn_app_exact {A} (p rest : list A) :
  firstn (length (p ++ rest) - length rest) (p ++ rest) = p.
Proof.
  rewrite length_app. replace (length p + length rest - length rest)%nat with (length p) by lia.
  rewrite firstn_app, Nat.sub_diag, firstn_all. cbn [firstn]. apply app_nil_r.
Qed.

(** The scan replaces the pattern where it stands. *)
Lemma replace_str_hit str v rest fuel scanned :
  list_ascii_of_string str <> [] ->
  forallb (fun c => negb (is_char "$" c)) v = true ->
  Templates.replace_str_from (S fuel) (lit str) v scanned (js str ++ rest)
  = v ++ Templates.replace_str_from fuel (lit str) v (rev (js str) ++ scanned) rest.
Proof.
  intros Hne Hv. cbn [Templates.replace_str_from].
  rewrite (match_here_first (first_lit (hd_error scanned) rest Hne)).
  cbn [snd]. rewrite firstn_app_exact.
  destruct (js str) as [|c t] eqn:E.
  - unfold js in E. destruct (list_ascii_of_string str); [congruence|discriminate].
  - rewrite GetSubstitution_plain by exact Hv. reflexivity.
Qed.

Lemma inert_spec h q a b :
  inert h q = true -> q = a ++ b -> b <> [] ->
  clash (js ("{{" ++ hole_name h ++ "}}")) b = true.
Proof.
  unfold inert. rewrite forallb_forall. intros H -> Hb.
  specialize (H (length a)). rewrite skipn_app, skipn_all, Nat.sub_diag in H.
  cbn [skipn app] in H. apply H. apply in_seq. rewrite length_app.
  destruct b; [congruence|cbn [length]; lia].
Qed.

Lemma inert_other h h' : hole_eqb h h' = false -> inert h (written (Hole h')) = true.
Proof. destruct h, h'; cbn [hole_eqb]; intros H; try discriminate; vm_compute; reflexivity. Qed.

Lemma pattern_head h :
  exists t, js ("{{" ++ hole_name h ++ "}}") = ch "{" :: t.
Proof. eexists. reflexivity. Qed.

Lemma text_inert h t a b :
  forallb (fun c => negb (is_char "{" c)) t = true ->
  t = a ++ b -> b <> [] ->
  clash (js ("{{" ++ hole_name h ++ "}}")) b = true.
Proof.
  intros Ht -> Hb. destruct b as [|c b]; [congruence|].
  destruct (pattern_head h) as (p & ->). cbn [clash].
  rewrite forallb_app in Ht. apply andb_true_iff in Ht. destruct Ht as (_ & Ht).
  cbn [forallb] in Ht. apply andb_true_iff in Ht. destruct Ht as (Hc & _).
  unfold is_char in Hc. rewrite N.eqb_sym, Hc. reflexivity.
Qed.

Lemma hole_eqb_eq a b : hole_eqb a b = true -> a = b.
Proof. destruct a, b; cbn; congruence. Qed.

Lemma pass h v :
  forallb (fun c => negb (is_char "$" c)) v = true ->
  forall l fuel scanned,
    forallb well_formed l = true ->
    (length (template_of l) < fuel)%nat ->
    Templates.replace_str_from fuel (Templates.placeholder (hole_name h)) v scanned
                               (template_of l)
    = template_of (map (fill_one h v) l).
Proof.
  intros Hv. unfold Templates.placeholder.
  assert (Hne : list_ascii_of_string ("{{" ++ hole_name h ++ "}}") <> []) by discriminate.
  induction l as [|p l IH]; intros fuel scanned Hwf Hlen.
  - destruct fuel as [|fuel]; [cbn in Hlen; lia|].
    cbn [template_of flat_map map Templates.replace_str_from].
    rewrite match_here_none; [reflexivity|]. apply lit_no_match.
    destruct (pattern_head h) as (t & ->). reflexivity.
  - cbn [forallb] in Hwf. apply andb_true_iff in Hwf. destruct Hwf as (Hp & Hwf).
    unfold template_of in *. cbn [flat_map map] in *. rewrite length_app in Hlen.
    destruct p as [t|h'].
    + cbn [written fill_one] in *.
      replace fuel with (length t + (fuel - length t))%nat by lia.
      rewrite replace_str_skip by (intros a b; apply (text_inert h Hp)).
      f_equal. apply IH; [exact Hwf|lia].
    + cbn [fill_one]. destruct (hole_eqb h h') eqn:E.
      * apply hole_eqb_eq in E. subst h'. cbn [written] in *.
        destruct fuel as [|fuel]; [lia|].
        rewrite (replace_str_hit _ _ _ Hne Hv). f_equal.
        apply IH; [exact Hwf|].
        assert (0 < length (js ("{{" ++ hole_name h ++ "}}")))%nat
          by (destruct (pattern_head h) as (t & ->); cbn [length]; lia).
        lia.
      * replace fuel with (length (written (Hole h')) + (fuel - length (written (Hole h'))))%nat
          by lia.
        rewrite replace_str_skip by (intros a b; apply (inert_spec (inert_other E))).
        f_equal. apply IH; [exact Hwf|lia].
Qed.

Lemma uint_chars_braceless u : braceless (uint_chars u) = true.
Proof.
  induction u; [reflexivity|..]; unfold braceless in *; cbn [uint_chars forallb];
    rewrite IHu; reflexivity.
Qed.

Lemma String_of_braceless n : braceless (String_of n) = true.
Proof.
  destruct n as [|p|p]; cbn [String_of].
  - reflexivity.
  - apply uint_chars_braceless.
  - unfold braceless. cbn [forallb]. apply (uint_chars_braceless (Pos.to_uint p)).
Qed.

Lemma braceless_parts v :
  braceless v = true ->
  forallb (fun c => negb (is_char "$" c)) v = true
  /\ forallb (fun c => negb (is_char "{" c)) v = true.
Proof.
  unfold braceless. rewrite !forallb_forall. intros H. split; intros c Hc;
    specialize (H c Hc); apply andb_true_iff in H; tauto.
Qed.

Lemma fill_one_well_formed h v l :
  braceless v = true ->
  forallb well_formed l = true -> forallb well_formed (map (fill_one h v) l) = true.
Proof.
  intros Hv. apply braceless_parts in Hv. destruct Hv as (_ & Hv).
  induction l as [|p l IH]; [reflexivity|]. cbn [forallb map]. intros H.
  apply andb_true_iff in H. destruct H as (Hp & Hl). rewrite (IH Hl), andb_true_r.
  destruct p as [t|h']; [exact Hp|]. cbn [fill_one].
  destruct (hole_eqb h h'); [exact Hv|reflexivity].
Qed.

Lemma replace_str_pieces h v l :
  braceless v = true ->
  forallb well_formed l = true ->
  Templates.replace_str (Templates.placeholder (hole_name h)) v (template_of l)
  = template_of (map (fill_one h v) l).
Proof.
  intros Hv Hwf. unfold Templates.replace_str.
  apply pass; [apply (braceless_parts Hv)|exact Hwf|lia].
Qed.

(** X28: for a template made of text without an opening brace and of the
    seven placeholders, and values without an opening brace or a dollar sign,
    [renderTemplate] returns the text with each placeholder replaced by its
    value: the empty string for an absent field, 0 for an absent count. *)
Theorem renderTemplate_fills_placeholders vars l :
  forallb well_formed l = true ->
  plain_vars vars = true ->
  Templates.renderTemplate (template_of l) vars = flat_map (filled vars) l.
Proof.
  intros Hwf Hvars. unfold plain_vars in Hvars.
  repeat (apply andb_true_iff in Hvars; destruct Hvars as (Hvars & ?)).
  unfold Templates.renderTemplate. cbn zeta.
  change "projectName"%string with (hole_name ProjectName).
  change "userName"%string with (hole_name UserName).
  change "activity"%string with (hole_name Activity).
  change "lastActivity"%string with (hole_name LastActivity).
  change "count"%string with (hole_name Count).
  change "agentName"%string with (hole_name AgentName).
  change "description"%string with (hole_name Description).
  repeat (rewrite replace_str_pieces;
          [|assumption || apply String_of_braceless
           |repeat (apply fill_one_well_formed;
                    [assumption || apply String_of_braceless|]); exact Hwf]).
  unfold template_of. clear. induction l as [|p l IH]; [reflexivity|].
  cbn [map flat_map]. rewrite IH. f_equal.
  destruct p as [t|h]; [reflexivity|]. destruct h; reflexivity.
Qed.

Lemma renderTemplate_fills_placeholders_witness :
  Templates.renderTemplate
    (js "{{projectName}}: Done, {{userName}}. Completed {{count}} actions, last one: {{lastActivity}}.")
    {| Templates.projectName := js "hooks"; Templates.userName := js "Jeff";
       Templates.activity := None; Templates.lastActivity := Some (js "edited config.ts");
       Templates.count := Some 3%Z; Templates.agentName := None;
       Templates.description := None |}
  = js "hooks: Done, Jeff. Completed 3 actions, last one: edited config.ts.".
Proof.
  apply (@renderTemplate_fills_placeholders
           {| Templates.projectName := js "hooks"; Templates.userName := js "Jeff";
              Templates.activity := None; Templates.lastActivity := Some (js "edited config.ts");
              Templates.count := Some 3%Z; Templates.agentName := None;
              Templates.description := None |}
           [Hole ProjectName; Text (js ": Done, "); Hole UserName; Text (js ". Completed ");
            Hole Count; Text (js " actions, last one: "); Hole LastActivity; Text (js ".")]);
    reflexivity.
Defined.

(** ** The transcript parser (lib/transcript-parser.ts) *)

(** ** The transcript parser (lib/transcript-parser.ts) *)

Section RecentActivity.
Variable JSON_parse : jsstring -> completion json.
Variable basename : json -> completion jsstring.

Lemma over_blocks_bound maxItems : forall blocks activities result,
  (Z.of_nat (length activities) < maxItems)%Z ->
  Transcript.over_blocks basename maxItems blocks activities = Returns result ->
  (Z.of_nat (length result) <= maxItems)%Z.
Proof.
  induction blocks as [|block rest IH]; intros activities result Hlt; cbn [Transcript.over_blocks].
  - intros [= <-]. lia.
  - destruct (Transcript.member (Some block) "type") as [ty|]; [|discriminate].
    destruct (Transcript.is_text ty "tool_use"); [|apply IH, Hlt].
    destruct (Transcript.member (Some block) "name") as [toolName|]; [|discriminate].
    destruct (Transcript.member (Some block) "input") as [input|]; [|discriminate].
    destruct (Transcript.describeToolUse basename toolName input) as [[[|c t]|]|];
      try discriminate; try apply IH, Hlt.
    destruct (Z.geb_spec (Z.of_nat (length (activities ++ [c :: t]))) maxItems) as [Hge|Hlt'].
    + intros [= <-]. rewrite length_app in *. cbn [length] in *. lia.
    + apply IH, Hlt'.
Qed.

Lemma over_messages_bound maxItems : forall messages activities result,
  (Z.of_nat (length activities) <= Z.max 0 maxItems)%Z ->
  Transcript.over_messages basename maxItems messages activities = Returns result ->
  (Z.of_nat (length result) <= Z.max 0 maxItems)%Z.
Proof.
  induction messages as [|msg earlier IH]; intros activities result Hle;
    cbn [Transcript.over_messages].
  - intros [= <-]. exact Hle.
  - destruct (Z.geb_spec (Z.of_nat (length activities)) maxItems) as [Hge|Hlt].
    + intros [= <-]. exact Hle.
    + destruct (Transcript.member (Some msg) "type") as [ty|]; [|discriminate].
      destruct (negb (Transcript.is_text ty "assistant")); [apply IH, Hle|].
      destruct (Transcript.member (Some msg) "message") as [messageContent|]; [|discriminate].
      set (contentBlocks := match messageContent with
                            | Some (JObj o) => Obj.own o (js "content")
                            | _ => None
                            end).
      destruct contentBlocks as [[| [|] | [|p|p] | [|c s] | blocks | o]|];
        try discriminate; try apply IH, Hle.
      destruct (Transcript.over_blocks basename maxItems blocks activities) as [acts|] eqn:Hb;
        [|discriminate].
      apply IH. pose proof (over_blocks_bound Hlt Hb). lia.
Qed.

End RecentActivity.

(** X29: [extractRecentActivity] returns at most [maxItems] activities, and
    none when [maxItems] is not positive; it throws when the last line of the
    transcript that parses is null (and [maxItems] is positive). *)
Theorem recent_activity_is_bounded JSON_parse basename file maxItems :
  (forall activities,
      Transcript.extractRecentActivity JSON_parse basename file maxItems = Returns activities ->
      (Z.of_nat (length activities) <= Z.max 0 maxItems)%Z)
  /\ ((maxItems <= 0)%Z ->
      Transcript.extractRecentActivity JSON_parse basename file maxItems = Returns [])
  /\ (forall earlier,
         (0 < maxItems)%Z ->
         Transcript.parseTranscript JSON_parse file = earlier ++ [JNull] ->
         Transcript.extractRecentActivity JSON_parse basename file maxItems = Throws).
Proof.
  unfold Transcript.extractRecentActivity. split; [|split].
  - intros activities.
    destruct (Transcript.over_messages basename maxItems _ []) as [acts|] eqn:H; [|discriminate].
    intros [= <-]. rewrite length_rev.
    apply (over_messages_bound (activities := []) (maxItems := maxItems)) in H; [exact H|].
    cbn [length]. lia.
  - intros Hle. destruct (rev _) as [|msg earlier]; [reflexivity|].
    cbn [Transcript.over_messages length].
    destruct (Z.geb_spec (Z.of_nat 0) maxItems); [reflexivity|lia].
  - intros earlier Hpos ->. rewrite rev_app_distr. cbn [rev app Transcript.over_messages length].
    destruct (Z.geb_spec (Z.of_nat 0) maxItems); [lia|reflexivity].
Qed.

(** The parser at work: lines that do not parse and messages of the user are
    passed over, and the bound keeps the latest activities. *)
Example recent_activity_runs :
  let file := Some (js "user" ++ [10%N] ++ js "bash" ++ [10%N; 10%N] ++ js "{oops" ++ [10%N]
                    ++ js "  edit ") in
  Transcript.extractRecentActivity tiny_line_parse tiny_basename file 5
  = Returns [js "ran command: bun test"; js "edited config.ts"]
  /\ Transcript.extractRecentActivity tiny_line_parse tiny_basename file 1
     = Returns [js "edited config.ts"].
Proof. split; reflexivity. Qed.
